(** * dolfyn: the Nortek index builder and the ADV rotations

    A shallow embedding of [dolfyn/io/nortek2lib.py] and
    [dolfyn/adv/rotate.py].

    - Part I embeds the index builder ([create_index_slow]), the index
      condenser ([index2ens_pos]) and the configuration decoder
      ([calc_config]).  Integers are [Z]; a raw file is a [list byte]; the
      file cursor and the exceptions of [struct] and of [seek] are threaded
      through a small cursor-and-error monad.
    - Part II embeds the frame rotations and the motion correction.  numpy's
      double precision arrays are lists of real numbers and their
      arithmetic is that of the reals: the rounding of double precision is
      not modelled, and a property that holds only without it says so.
      Elementwise operations on the one-dimensional series broadcast or
      raise as numpy's do; the [(3, N)] arrays of one data object are taken
      to share their number of samples.  The numerical routines of numpy and scipy that
      the module only calls (filter design, zero-phase filtering, matrix
      inverse, the argument of a complex number, rounding to single
      precision) are section variables.
    - Parts III and IV hold the properties of the index builder and of the
      rotations that the specification states; Parts V and VI hold further
      properties of the same code: the index file and its reader, the
      bounds and the end of the scan, the bit fields, the footprint of
      the rotations and of the motion correction. *)

From Stdlib Require Import ZArith List Lia String Ascii Bool Sorted.
From Stdlib.Strings Require Import Byte.
From Stdlib Require Import Reals Lra RNsatz.
From stdpp Require Import base option gmap strings list.

Import ListNotations.
Local Open Scope Z_scope.

(* ===================================================================== *)
(** * Part I.  [dolfyn/io/nortek2lib.py]                                  *)
(* ===================================================================== *)

(** ** Python exceptions raised along the modelled paths *)

Inductive exn : Type :=
| struct_error                 (* struct.error: buffer of the wrong size *)
| OSError                      (* seek to a negative offset *)
| IndexError                   (* vec[0] on an empty array *)
| KeyError                     (* d[k] or d.pop(k) on a missing key *)
| Exception (msg : string).    (* raise Exception(msg) *)

(** ** [struct]: little-endian decoding *)

Definition byte_val (b : byte) : Z := Z.of_N (Byte.to_N b).

Fixpoint le_uint (bs : list byte) : Z :=
  match bs with
  | [] => 0
  | b :: r => byte_val b + 256 * le_uint r
  end.

(** Format characters used by the module: [B] (uint8), [H] (uint16),
    [h] (int16), [I] (uint32).  All formats of the module are little-endian
    without padding (['6BH'] is native, and lays out identically on a
    little-endian machine: the [H] sits at the even offset 6). *)
Inductive fmt_char : Type := fB | fH | fh | fI.

Definition fmt_size (c : fmt_char) : nat :=
  match c with fB => 1 | fH => 2 | fh => 2 | fI => 4 end%nat.

Definition fmt_decode (c : fmt_char) (bs : list byte) : Z :=
  match c with
  | fh => let v := le_uint bs in if v <? 32768 then v else v - 65536
  | _ => le_uint bs
  end.

(** [struct.unpack(fmt, bs)]: [None] stands for [struct.error] (the buffer
    is not exactly as long as the format). *)
Fixpoint struct_unpack (fmt : list fmt_char) (bs : list byte) : option (list Z) :=
  match fmt with
  | [] => match bs with [] => Some [] | _ :: _ => None end
  | c :: fmt' =>
      if (length bs <? fmt_size c)%nat then None
      else match struct_unpack fmt' (skipn (fmt_size c) bs) with
           | Some vs => Some (fmt_decode c (firstn (fmt_size c) bs) :: vs)
           | None => None
           end
  end.

(** [hdr = struct.Struct('<BBBBhhh')] and [hdr.size]. *)
Definition hdr : list fmt_char := [fB; fB; fB; fB; fh; fh; fh].
Definition hdr_size : Z := 10.

(** ** The input file: a cursor-and-error monad *)

(** A computation over the cursor of [fin]: it raises, or returns a value
    and the new cursor. *)
Definition io (A : Type) : Type := Z -> exn + (A * Z).

Definition ret {A} (a : A) : io A := fun cur => inr (a, cur).
Definition raise {A} (e : exn) : io A := fun _ => inl e.
Definition bind {A B} (m : io A) (k : A -> io B) : io B :=
  fun cur => match m cur with
             | inl e => inl e
             | inr (a, cur') => k a cur'
             end.

(** stdpp's monad notations: [x ← m; k] and [m;; k]. *)
#[global] Instance io_ret : MRet io := @ret.
#[global] Instance io_bind : MBind io := fun A B k m => bind m k.

(** [fin.tell()] *)
Definition tell : io Z := fun cur => inr (cur, cur).

(** [fin.read(n)]: at most [n] bytes, fewer at the end of the file. *)
Definition read (fin : list byte) (n : Z) : io (list byte) :=
  fun cur =>
    let bs := firstn (Z.to_nat n) (skipn (Z.to_nat cur) fin) in
    inr (bs, cur + Z.of_nat (length bs)).

(** [fin.seek(off, 1)]: relative seek; a negative target raises [OSError],
    a target past the end is allowed. *)
Definition seek1 (off : Z) : io unit :=
  fun cur => if cur + off <? 0 then inl OSError else inr (tt, cur + off).

(** [struct.unpack(fmt, bs)] outside a [try]. *)
Definition unpack (fmt : list fmt_char) (bs : list byte) : io (list Z) :=
  match struct_unpack fmt bs with
  | Some vs => ret vs
  | None => raise struct_error
  end.

(** Python's [t[i]] on a tuple the format has produced. *)
Definition item (t : list Z) (i : nat) : Z := nth i t 0.

(** ** The index *)

(** [index_dtype]: one entry of the index file.  [struct.pack('<QQ4H6BH')]
    in [create_index_slow] and [np.fromfile(.., index_dtype)] in [get_index]
    use the same fixed-width layout, so an entry is kept as a record. *)
Record index_entry : Type := mk_entry {
  ens : Z;
  pos : Z;
  ID : Z;
  config : Z;
  beams_cy : Z;
  _blank : Z;
  year : Z;
  month : Z;
  day : Z;
  hour : Z;
  minute : Z;
  second : Z;
  usec100 : Z
}.

(** ** [create_index_slow] *)

(** The loop's variables: the running index [N], [last_ens], and what has
    been written to [fout]. *)
Record loop_vars : Type := mk_vars {
  v_N : Z;
  v_last_ens : Z;
  v_fout : list index_entry
}.

(** How one pass through the loop body ends. *)
Inductive flow : Type :=
| Next (vs : loop_vars)     (* fall through to the loop test *)
| Break (vs : loop_vars)    (* the [break] of the [except] clause *)
| Abort (e : exn) (vs : loop_vars).
                            (* [e] escapes once [fout] holds [v_fout vs] *)

(** [m], then [k], once the pass has reached the variables [vs]: an
    exception of [m] leaves the loop with what [vs] holds written. *)
Definition after_write (vs : loop_vars) (m : io unit) (k : io flow)
    : io flow :=
  fun cur => match m cur with
             | inl e => inr (Abort e vs, cur)
             | inr (_, cur') => k cur'
             end.

Definition recognized (id : Z) : bool :=
  (id =? 21) || (id =? 24) || (id =? 26).

(** The body of [while N < N_ens].  [fout.write] comes before the last
    [seek]: when that seek raises, the entry of the record is in [fout]. *)
Definition loop_body (fin : list byte) (vs : loop_vars) : io flow :=
  pos ← tell;
  bs ← read fin hdr_size;
  match struct_unpack hdr bs with
  | None => ret (Break vs)
  | Some dat =>
      if recognized (item dat 2) then
        seek1 2;;
        b ← read fin 2; t ← unpack [fH] b;
        let config := item t 0 in
        seek1 4;;
        b ← read fin 8; t ← unpack [fB; fB; fB; fB; fB; fB; fH] b;
        let yr := item t 0 in let mo := item t 1 in let dy := item t 2 in
        let h := item t 3 in let m := item t 4 in let s := item t 5 in
        let u := item t 6 in
        seek1 14;;
        b ← read fin 2; t ← unpack [fH] b;
        let beams_cy := item t 0 in
        seek1 40;;
        b ← read fin 4; t ← unpack [fI] b;
        let ens := item t 0 in
        let N := if (0 <? v_last_ens vs) && negb (v_last_ens vs =? ens)
                 then v_N vs + 1 else v_N vs in
        let entry := mk_entry N pos (item dat 2) config beams_cy 0
                              yr mo dy h m s u in
        after_write (mk_vars N (v_last_ens vs) (v_fout vs ++ [entry]))
          (seek1 (item dat 4 - 76))
          (ret (Next (mk_vars N ens (v_fout vs ++ [entry]))))
      else
        seek1 (item dat 4);;
        ret (Next vs)
  end.

(** How a run ends: the loop left normally, an exception escaped, or the
    bound on the number of passes was reached with the loop still going
    (Python would keep looping). *)
Inductive status : Type :=
| Finished
| Raised (e : exn)
| Running.

(** [while N < N_ens: ...], at most [fuel] passes.  The second component is
    what has been written to [fout]. *)
Fixpoint index_loop (fuel : nat) (fin : list byte) (N_ens : Z)
    (vs : loop_vars) (cur : Z) : status * list index_entry :=
  match fuel with
  | O => (Running, v_fout vs)
  | S fuel' =>
      if v_N vs <? N_ens then
        match loop_body fin vs cur with
        | inl e => (Raised e, v_fout vs)
        | inr (Next vs', cur') => index_loop fuel' fin N_ens vs' cur'
        | inr (Break vs', _) => (Finished, v_fout vs')
        | inr (Abort e vs', _) => (Raised e, v_fout vs')
        end
      else (Finished, v_fout vs)
  end.

(** [create_index_slow(infile, outfile, N_ens)]: [ens = 0; N = 0;
    last_ens = -1], cursor at 0, [fout] empty. *)
Definition create_index_slow (fuel : nat) (infile : list byte) (N_ens : Z)
    : status * list index_entry :=
  index_loop fuel infile N_ens (mk_vars 0 (-1) []) 0.

(** ** [index2ens_pos] *)

(** [np.diff] on a [uint64] array: differences wrap modulo [2^64]. *)
Definition np_diff (v : list Z) : list Z :=
  zip_with (fun a b => (b - a) mod 2 ^ 64) v (tail v).

(** [dens[1:] = vals], where [vals] has one element less than [dens]. *)
Definition assign_from_1 (dens vals : list bool) : list bool :=
  match dens with
  | [] => []
  | d0 :: _ => d0 :: vals
  end.

(** [v[mask]] for a boolean mask as long as [v]. *)
Fixpoint mask_select {A} (v : list A) (mask : list bool) : list A :=
  match v, mask with
  | x :: v', b :: mask' =>
      if b then x :: mask_select v' mask' else mask_select v' mask'
  | _, _ => []
  end.

Definition index2ens_pos (index : list index_entry) : list Z :=
  let dens := repeat true (length (map ens index)) in
  let dens := assign_from_1 dens
                (map (fun d => negb (d =? 0)) (np_diff (map ens index))) in
  mask_select (map pos index) dens.

(** What the docstring of [index2ens_pos] promises, written independently
    of the code: the position of every entry whose ensemble number has not
    been seen at an earlier entry. *)
Fixpoint first_occurrences (seen : list Z) (index : list index_entry)
    : list Z :=
  match index with
  | [] => []
  | e :: rest =>
      if existsb (Z.eqb (ens e)) seen then first_occurrences seen rest
      else pos e :: first_occurrences (ens e :: seen) rest
  end.

(** [index2ens_pos], entry by entry: an entry is kept when its ensemble
    number differs (modulo [2^64]) from the previous entry's. *)
Fixpoint keep_changes (prev : Z) (index : list index_entry) : list Z :=
  match index with
  | [] => []
  | e :: rest =>
      if negb ((ens e - prev) mod 2 ^ 64 =? 0)
      then pos e :: keep_changes (ens e) rest
      else keep_changes (ens e) rest
  end.

(** The fields of an entry fit [index_dtype]'s unsigned 64 bit columns. *)
Definition fits_dtype (e : index_entry) : Prop :=
  0 <= ens e < 2 ^ 64 /\ 0 <= pos e < 2 ^ 64.

(** ** [calc_config] *)

(** The Python values stored in the configuration dicts. *)
Inductive pyval : Type :=
| PBool (b : bool)
| PInt (z : Z)
| PStr (s : string)
| PNone.

Definition getbit (val n : Z) : bool :=
  negb (Z.land (Z.shiftr val n) 1 =? 0).

Definition headconfig_int2dict (val : Z) : gmap string pyval :=
  list_to_map
    [ ("press_valid", PBool (getbit val 0));
      ("temp_valid", PBool (getbit val 1));
      ("compass_valid", PBool (getbit val 2));
      ("tilt_valid", PBool (getbit val 3));
      ("vel", PBool (getbit val 5));
      ("amp", PBool (getbit val 6));
      ("corr", PBool (getbit val 7));
      ("alt", PBool (getbit val 8));
      ("alt_raw", PBool (getbit val 9));
      ("ast", PBool (getbit val 10));
      ("echo", PBool (getbit val 11));
      ("ahrs", PBool (getbit val 12));
      ("p_gd", PBool (getbit val 13));
      ("std", PBool (getbit val 14)) ]%string.

Definition beams_cy_int2dict (val id : Z) : gmap string pyval :=
  if id =? 28 then list_to_map [ ("ncells", PInt val) ]%string
  else
    list_to_map
      [ ("ncells", PInt (Z.land val (2 ^ 10 - 1)));
        ("cy", nth (Z.to_nat (Z.land (Z.shiftr val 10) 3))
                   [PStr "ENU"; PStr "XYZ"; PStr "BEAM"; PNone] PNone);
        ("nbeams", PInt (Z.shiftr val 12)) ]%string.

(** [np.all(vec == vec[0])] *)
Definition isuniform (vec : list Z) : exn + bool :=
  match vec with
  | [] => inl IndexError
  | v0 :: _ => inr (forallb (fun x => x =? v0) vec)
  end.

(** [np.unique]: the distinct values, ascending. *)
Fixpoint insert_unique (x : Z) (l : list Z) : list Z :=
  match l with
  | [] => [x]
  | y :: r =>
      if x <? y then x :: l
      else if x =? y then l
      else y :: insert_unique x r
  end.

Definition np_unique (v : list Z) : list Z := fold_right insert_unique [] v.

(** ['{:X}'.format(n)] for [n >= 0]: upper-case hexadecimal, no padding.
    Sixteen digits cover every unsigned 64 bit value. *)
Definition hex_digit (d : Z) : ascii :=
  nth (Z.to_nat d) (list_ascii_of_string "0123456789ABCDEF") "0"%char.

Fixpoint format_X_aux (digits : nat) (n : Z) (acc : string) : string :=
  match digits with
  | O => acc
  | S digits' =>
      let acc' := String (hex_digit (n mod 16)) acc in
      if n / 16 =? 0 then acc' else format_X_aux digits' (n / 16) acc'
  end.

Definition format_X (n : Z) : string := format_X_aux 16 n "".

Definition config_msg (id : Z) : string :=
  ("config are not identical for id: 0x" +:+ format_X id +:+ ".")%string.

Definition beams_cy_msg (id : Z) : string :=
  ("beams_cy are not identical for id: 0x" +:+ format_X id +:+ ".")%string.

(** [for id in ids: ...] of [calc_config]; [cfg] is the dict [config] being
    filled. *)
Fixpoint calc_config_loop (index : list index_entry) (ids : list Z)
    (cfg : gmap Z (gmap string pyval)) : exn + gmap Z (gmap string pyval) :=
  match ids with
  | [] => inr cfg
  | id :: ids' =>
      if negb (recognized id) then calc_config_loop index ids' cfg
      else
        let inds := map (fun e => ID e =? id) index in
        let _config := mask_select (map config index) inds in
        let _beams_cy := mask_select (map beams_cy index) inds in
        match isuniform _config with
        | inl e => inl e
        | inr false => inl (Exception (config_msg id))
        | inr true =>
            match isuniform _beams_cy with
            | inl e => inl e
            | inr false => inl (Exception (beams_cy_msg id))
            | inr true =>
                let c0 := nth 0 _config 0 in
                let b0 := nth 0 _beams_cy 0 in
                let d := headconfig_int2dict c0 in
                let d := beams_cy_int2dict b0 id ∪ d in
                let d := <["_config" := PInt c0]> d in
                let d := <["_beams_cy" := PInt b0]> d in
                match d !! "cy" with
                | None => inl KeyError
                | Some _ =>
                    calc_config_loop index ids' (<[id := delete "cy" d]> cfg)
                end
            end
        end
  end.

Definition calc_config (index : list index_entry)
    : exn + gmap Z (gmap string pyval) :=
  calc_config_loop index (np_unique (map ID index)) ∅.

(** The entries of record id [id], and the dict [calc_config] stores for
    an id whose entries carry the bits [c] and [b]. *)
Definition entries_of (id : Z) (index : list index_entry)
    : list index_entry :=
  List.filter (fun e => ID e =? id) index.

Definition config_dict (c b id : Z) : gmap string pyval :=
  delete "cy"
    (<["_beams_cy" := PInt b]>
       (<["_config" := PInt c]>
          (beams_cy_int2dict b id ∪ headconfig_int2dict c))).

(** All entries of record id [id] carry the same configuration bits and
    the same beams/coordinate-system bits. *)
Definition uniform_for (id : Z) (index : list index_entry) : Prop :=
  forall e1 e2, In e1 index -> In e2 index -> ID e1 = id -> ID e2 = id ->
    config e1 = config e2 /\ beams_cy e1 = beams_cy e2.

(** The configuration of one record id as the spec words it: one flag per
    bit of the bitmask (bits 4 and 15 unused), the low 10 bits of the
    beams/coordinate-system field as cell count and its bits from 12 up as
    beam count, beside the two raw fields. *)
Definition decoded_config (c b : Z) : gmap string pyval :=
  list_to_map
    [ ("press_valid", PBool (Z.testbit c 0));
      ("temp_valid", PBool (Z.testbit c 1));
      ("compass_valid", PBool (Z.testbit c 2));
      ("tilt_valid", PBool (Z.testbit c 3));
      ("vel", PBool (Z.testbit c 5));
      ("amp", PBool (Z.testbit c 6));
      ("corr", PBool (Z.testbit c 7));
      ("alt", PBool (Z.testbit c 8));
      ("alt_raw", PBool (Z.testbit c 9));
      ("ast", PBool (Z.testbit c 10));
      ("echo", PBool (Z.testbit c 11));
      ("ahrs", PBool (Z.testbit c 12));
      ("p_gd", PBool (Z.testbit c 13));
      ("std", PBool (Z.testbit c 14));
      ("ncells", PInt (b mod 1024));
      ("nbeams", PInt (b / 4096));
      ("_config", PInt c);
      ("_beams_cy", PInt b) ]%string.

(** ** Concrete raw streams for the examples *)

Definition byte_of (z : Z) : byte :=
  match Byte.of_N (Z.to_N (z mod 256)) with
  | Some b => b
  | None => x00
  end.

(** [n] little-endian bytes of [z] (two's complement for a negative [z]). *)
Definition le_bytes (n : nat) (z : Z) : list byte :=
  map (fun i => byte_of (z / 256 ^ Z.of_nat i)) (seq 0 n).

(** Overwrite [f] from offset [off] with [bs]. *)
Fixpoint poke (off : nat) (bs : list byte) (f : list byte) : list byte :=
  match off, f with
  | O, _ => bs ++ skipn (length bs) f
  | S o, x :: r => x :: poke o bs r
  | S o, [] => []
  end.

(** Write into [f], at offset [p], a header with record id [id] and size
    field [size], and the three fields the indexer decodes: the
    configuration bits, the beams/coordinate-system bits and the ensemble
    counter (at 12, 40 and 82 bytes from the start of the record). *)
Definition put_record (p : nat) (id size cfg beams counter : Z)
    (f : list byte) : list byte :=
  poke p ([byte_of 165; byte_of 10; byte_of id; byte_of 16]
          ++ le_bytes 2 size)
    (poke (p + 12) (le_bytes 2 cfg)
      (poke (p + 40) (le_bytes 2 beams)
        (poke (p + 82) (le_bytes 4 counter) f))).

Definition blank (n : nat) : list byte := repeat x00 n.

(** ** What the scan decodes at an offset *)

(** The header and the fields at fixed offsets, as [create_index_slow]
    decodes them when its cursor stands at [cur]. *)
Definition hdr_at (fin : list byte) (cur : Z) : option (list Z) :=
  struct_unpack hdr (firstn 10 (skipn (Z.to_nat cur) fin)).

Definition field_at (fmt : list fmt_char) (n : nat) (fin : list byte)
    (off : Z) : option (list Z) :=
  struct_unpack fmt (firstn n (skipn (Z.to_nat off) fin)).

(** The ensemble counter of the record at [p]: the [uint32] 82 bytes in. *)
Definition counter_at (fin : list byte) (p : Z) : option Z :=
  match field_at [fI] 4 fin (p + 82) with
  | Some t => Some (item t 0)
  | None => None
  end.

(** The number of bytes a format takes. *)
Definition fmt_total (fmt : list fmt_char) : nat :=
  fold_right (fun c n => (fmt_size c + n)%nat) 0%nat fmt.

(** The entry written for the record at [cur], given the decoded header
    and fields. *)
Definition written (vs : loop_vars) (cur : Z) (dat c t b e : list Z)
    : index_entry :=
  mk_entry (if (0 <? v_last_ens vs) && negb (v_last_ens vs =? item e 0)
            then v_N vs + 1 else v_N vs)
           cur (item dat 2) (item c 0) (item b 0) 0
           (item t 0) (item t 1) (item t 2) (item t 3) (item t 4)
           (item t 5) (item t 6).

(** Every pass either ends the loop, raises, skips the record, or appends
    exactly one entry located at the cursor; the seek past an indexed
    record can raise after the entry has been appended. *)
Inductive pass_spec (fin : list byte) (vs : loop_vars) (cur : Z)
    : exn + flow * Z -> Prop :=
| pass_break cur' :
    hdr_at fin cur = None ->
    pass_spec fin vs cur (inr (Break vs, cur'))
| pass_raise e :
    pass_spec fin vs cur (inl e)
| pass_skip dat :
    hdr_at fin cur = Some dat ->
    recognized (item dat 2) = false ->
    0 <= cur + 10 + item dat 4 ->
    pass_spec fin vs cur (inr (Next vs, cur + 10 + item dat 4))
| pass_index dat entry counter :
    hdr_at fin cur = Some dat ->
    recognized (item dat 2) = true ->
    0 <= cur + 10 + item dat 4 ->
    counter_at fin cur = Some counter ->
    pos entry = cur ->
    ID entry = item dat 2 ->
    ens entry = (if (0 <? v_last_ens vs) && negb (v_last_ens vs =? counter)
                 then v_N vs + 1 else v_N vs) ->
    pass_spec fin vs cur
      (inr (Next (mk_vars (ens entry) counter (v_fout vs ++ [entry])),
            cur + 10 + item dat 4))
| pass_abort dat entry counter cur' :
    hdr_at fin cur = Some dat ->
    recognized (item dat 2) = true ->
    cur + 10 + item dat 4 < 0 ->
    counter_at fin cur = Some counter ->
    pos entry = cur ->
    ID entry = item dat 2 ->
    ens entry = (if (0 <? v_last_ens vs) && negb (v_last_ens vs =? counter)
                 then v_N vs + 1 else v_N vs) ->
    pass_spec fin vs cur
      (inr (Abort OSError
              (mk_vars (ens entry) (v_last_ens vs) (v_fout vs ++ [entry])),
            cur')).

(** The size fields of the headers a run decodes, in scan order: the passes
    are those of [index_loop]. *)
Fixpoint scanned_sizes (fuel : nat) (fin : list byte) (N_ens : Z)
    (vs : loop_vars) (cur : Z) : list Z :=
  match fuel with
  | O => []
  | S fuel' =>
      if v_N vs <? N_ens then
        match hdr_at fin cur with
        | None => []
        | Some dat =>
            item dat 4 ::
            match loop_body fin vs cur with
            | inr (Next vs', cur') => scanned_sizes fuel' fin N_ens vs' cur'
            | _ => []
            end
        end
      else []
  end.

Definition create_index_sizes (fuel : nat) (infile : list byte) (N_ens : Z)
    : list Z :=
  scanned_sizes fuel infile N_ens (mk_vars 0 (-1) []) 0.

(** A stream of two velocity records (id [0x15]) at offsets 0 and 40 with
    ensemble counters [k0] and [k1], as the indexer reads it: the first
    record declares 30 bytes after its header, the fields of both records
    can be read, and no header follows the second record. *)
Definition two_velocity_records (fin : list byte) (k0 k1 : Z) : Prop :=
  exists dat0 dat1,
    hdr_at fin 0 = Some dat0 /\ item dat0 2 = 21 /\ item dat0 4 = 30 /\
    hdr_at fin 40 = Some dat1 /\ item dat1 2 = 21 /\
    0 <= 40 + 10 + item dat1 4 /\
    hdr_at fin (40 + 10 + item dat1 4) = None /\
    counter_at fin 0 = Some k0 /\ counter_at fin 40 = Some k1.

(** Scenario A and B of the spec: two velocity records at offsets 0 and 40,
    identical configuration bits, counters 5, 5 and 5, 6.  The indexer
    reads the fields of a record up to 86 bytes from its start, so the
    stream has 126 bytes, and the beams field of the first record (at
    offset 40) takes the place of the two leading bytes of the second
    header, which the indexer never inspects. *)
Definition stream_A : list byte :=
  put_record 0 21 30 7 4100 5 (put_record 40 21 76 7 4100 5 (blank 126)).

Definition stream_B : list byte :=
  put_record 0 21 30 7 4100 5 (put_record 40 21 76 7 4100 6 (blank 126)).

(** Two full velocity records with ensemble counters 0 and 1. *)
Definition stream_0_1 : list byte :=
  put_record 0 21 76 7 4100 0 (put_record 86 21 76 7 4100 1 (blank 172)).

(** One velocity record whose size field is 0. *)
Definition stream_size0 : list byte :=
  put_record 0 21 0 7 4100 3 (blank 86).

(** Two velocity records; the size field of the second is [-96], which
    sends the cursor back to offset 0. *)
Definition stream_back : list byte :=
  put_record 0 21 76 7 4100 1 (put_record 86 21 (-96) 7 4100 2 (blank 172)).

(** ** The index file *)

(** One unsigned little-endian field of [n] bytes, as [struct.pack] writes
    it: a value outside the range of the format raises [struct.error]
    ([None]). *)
Definition pack_uint (n : nat) (z : Z) : option (list byte) :=
  if (0 <=? z) && (z <? 256 ^ Z.of_nat n) then Some (le_bytes n z) else None.

(** The field widths of ['<QQ4H6BH'], which are those of [index_dtype]:
    two [uint64], four [uint16], six [uint8], one [uint16]. *)
Definition index_widths : list nat :=
  [8; 8; 2; 2; 2; 2; 1; 1; 1; 1; 1; 1; 2]%nat.

Definition itemsize : nat := 32.

Definition entry_values (e : index_entry) : list Z :=
  [ens e; pos e; ID e; config e; beams_cy e; _blank e;
   year e; month e; day e; hour e; minute e; second e; usec100 e].

Definition entry_of_values (vs : list Z) : index_entry :=
  mk_entry (item vs 0) (item vs 1) (item vs 2) (item vs 3) (item vs 4)
           (item vs 5) (item vs 6) (item vs 7) (item vs 8) (item vs 9)
           (item vs 10) (item vs 11) (item vs 12).

Fixpoint struct_pack (widths : list nat) (vals : list Z)
    : option (list byte) :=
  match widths, vals with
  | [], [] => Some []
  | n :: widths', z :: vals' =>
      match pack_uint n z, struct_pack widths' vals' with
      | Some a, Some b => Some (a ++ b)
      | _, _ => None
      end
  | _, _ => None
  end.

(** [struct.pack('<QQ4H6BH', N, pos, dat[2], config, beams_cy, 0, yr, mo,
    dy, h, m, s, u)] for the entry that holds these values. *)
Definition pack_entry (e : index_entry) : option (list byte) :=
  struct_pack index_widths (entry_values e).

(** What [fout] holds once the entries have been written, one
    [fout.write] each. *)
Fixpoint index_file (index : list index_entry) : option (list byte) :=
  match index with
  | [] => Some []
  | e :: rest =>
      match pack_entry e, index_file rest with
      | Some a, Some b => Some (a ++ b)
      | _, _ => None
      end
  end.

(** One item of [index_dtype] read from [itemsize] bytes. *)
Fixpoint take_fields (widths : list nat) (bs : list byte) : list Z :=
  match widths with
  | [] => []
  | n :: widths' => le_uint (firstn n bs) :: take_fields widths' (skipn n bs)
  end.

Definition unpack_entry (bs : list byte) : index_entry :=
  entry_of_values (take_fields index_widths bs).

Fixpoint fromfile_items (count : nat) (bs : list byte) : list index_entry :=
  match count with
  | O => []
  | S count' =>
      unpack_entry (firstn itemsize bs)
        :: fromfile_items count' (skipn itemsize bs)
  end.

(** [np.fromfile(index_file, dtype=index_dtype)]: as many items as the
    file holds in full. *)
Definition np_fromfile (bs : list byte) : list index_entry :=
  fromfile_items (length bs / itemsize) bs.

(** The values of an entry lie in the ranges of the columns of
    [index_dtype]. *)
Definition in_dtype_range (e : index_entry) : Prop :=
  Forall2 (fun n z => 0 <= z < 256 ^ Z.of_nat n) index_widths (entry_values e).

(** The range of the values a format character decodes to. *)
Definition fmt_range (c : fmt_char) (v : Z) : Prop :=
  match c with
  | fB => 0 <= v < 2 ^ 8
  | fH => 0 <= v < 2 ^ 16
  | fh => - 2 ^ 15 <= v < 2 ^ 15
  | fI => 0 <= v < 2 ^ 32
  end.

(** The entry [e] describes the record at its offset in [fin]: it lies
    within the file with the 86 bytes the indexer reads, has a recognized
    id, and carries the fields found at 12, 18 and 40 bytes from its
    start. *)
Definition describes_record (fin : list byte) (e : index_entry) : Prop :=
  0 <= pos e /\ pos e + 86 <= Z.of_nat (length fin) /\
  recognized (ID e) = true /\
  (exists dat, hdr_at fin (pos e) = Some dat /\ item dat 2 = ID e) /\
  field_at [fH] 2 fin (pos e + 12) = Some [config e] /\
  field_at [fB; fB; fB; fB; fB; fB; fH] 8 fin (pos e + 18)
    = Some [year e; month e; day e; hour e; minute e; second e; usec100 e] /\
  field_at [fH] 2 fin (pos e + 40) = Some [beams_cy e] /\
  _blank e = 0.

(** The numbers [l] continue a count that stands at [prev]: each is the
    one before it, or one more. *)
Fixpoint steps_from (prev : Z) (l : list Z) : Prop :=
  match l with
  | [] => True
  | x :: rest => (x = prev \/ x = prev + 1) /\ steps_from x rest
  end.

Definition counts_from_zero (l : list Z) : Prop :=
  match l with
  | [] => True
  | x :: rest => x = 0 /\ steps_from x rest
  end.

(** A velocity record cut off after 50 bytes: its header is whole, the
    ensemble counter at offset 82 is not there. *)
Definition stream_cut : list byte :=
  put_record 0 21 76 7 4100 1 (blank 50).

(** A whole velocity record whose size field is [-11]: the seek past the
    record aims at offset [-1]. *)
Definition stream_seek_back : list byte :=
  put_record 0 21 (-11) 7 4100 1 (blank 86).

(** ** [collapse] *)

Definition collapse_msg (name : string) : string :=
  ("The variable " +:+ name +:+
   " is expected to be uniform, but it is not.")%string.

(** [collapse(vec, name=None)]: the result is the vector itself or its
    first element; the second component holds the warnings issued. *)
Definition collapse (vec : list Z) (name : option string)
    : exn + ((list Z + Z) * list string) :=
  let name := match name with
              | None => "**unkown**"%string
              | Some n => n
              end in
  match isuniform vec with
  | inl e => inl e
  | inr false => inr (inl vec, [collapse_msg name])
  | inr true => inr (inr (nth 0 vec 0), [])
  end.

(** ** [get_index] *)

(** The files [get_index] sees: contents by path. *)
Abbreviation files := (gmap string (list byte)) (only parsing).

(** What has reached [fout] when a [struct.pack] raises: the entries
    before the first one that does not pack. *)
Fixpoint written_before_error (index : list index_entry) : list byte :=
  match index with
  | [] => []
  | e :: rest =>
      match pack_entry e with
      | Some a => a ++ written_before_error rest
      | None => []
      end
  end.

(** [get_index(infile, reload=False)] within at most [fuel] passes of the
    indexing loop; [None] when the loop is still going after them.  The
    result holds the files as the call leaves them and what the call
    returns or raises.  A missing [infile] makes [open] raise before the
    index file is touched; an index file left by a run that raised holds
    the entries written until then. *)
Definition get_index (fuel : nat) (fs : files) (infile : string)
    (reload : bool) : option (files * (exn + list index_entry)) :=
  let index_file_name := (infile +:+ ".index")%string in
  if negb (bool_decide (is_Some (fs !! index_file_name))) || reload then
    match fs !! infile with
    | None => Some (fs, inl OSError)
    | Some raw =>
        let (st, entries) := create_index_slow fuel raw (2 ^ 32) in
        match index_file entries with
        | None =>
            Some (<[index_file_name := written_before_error entries]> fs,
                  inl struct_error)
        | Some bs =>
            let fs' := <[index_file_name := bs]> fs in
            match st with
            | Running => None
            | Raised e => Some (fs', inl e)
            | Finished => Some (fs', inr (np_fromfile bs))
            end
        end
    end
  else
    match fs !! index_file_name with
    | Some bs => Some (fs, inr (np_fromfile bs))
    | None => Some (fs, inl OSError)
    end.

(** The entries of record id [id] carry one configuration field, and one
    beams/coordinate-system field. *)
Definition same_config (id : Z) (index : list index_entry) : Prop :=
  forall e1 e2, In e1 index -> In e2 index -> ID e1 = id -> ID e2 = id ->
    config e1 = config e2.

Definition same_beams_cy (id : Z) (index : list index_entry) : Prop :=
  forall e1 e2, In e1 index -> In e2 index -> ID e1 = id -> ID e2 = id ->
    beams_cy e1 = beams_cy e2.

(** The bits of the configuration field that [headconfig_int2dict]
    decodes. *)
Definition used_bits : list Z := [0; 1; 2; 3; 5; 6; 7; 8; 9; 10; 11; 12; 13; 14].

(** Entries of id [0x18] that differ in the configuration field, and
    entries of id [0x15] that differ in the beams field only. *)
Definition index_two_offenders : list index_entry :=
  [mk_entry 0 0 24 1 4100 0 0 0 0 0 0 0 0;
   mk_entry 0 86 24 2 4100 0 0 0 0 0 0 0 0;
   mk_entry 0 172 21 7 4100 0 0 0 0 0 0 0 0;
   mk_entry 0 258 21 7 4101 0 0 0 0 0 0 0 0].

(** A raw file beside which no index file lies. *)
Definition raw_only : gmap string (list byte) := {[ "a.VEC"%string := stream_B ]}.

(* ===================================================================== *)
(** * Part II.  [dolfyn/adv/rotate.py]                                    *)
(* ===================================================================== *)

Local Open Scope R_scope.

(** Further exceptions of this module are carried by [exn] as well. *)
Definition AttributeError : exn := Exception "AttributeError".
Definition TypeError : exn := Exception "TypeError".
Definition ValueError : exn := Exception "ValueError".

(** ** Arrays *)

(** A one-dimensional numpy array of floats, over the reals.  The rows of
    one [(3, N)] array have one length; on arrays of equal length
    [zip_with] is numpy's elementwise operation. *)
Abbreviation array := (list R) (only parsing).

(** numpy's elementwise operation on two one-dimensional arrays of any
    lengths: arrays of one length are combined element by element, an array
    of length 1 is stretched to the length of the other, and any other pair
    of lengths raises [ValueError] (the operands could not be broadcast
    together). *)
Definition broadcast {A B C} (f : A -> B -> C) (a : list A) (b : list B)
    : exn + list C :=
  if Nat.eqb (length a) (length b) then inr (zip_with f a b)
  else match a, b with
       | [x], _ => inr (map (f x) b)
       | _, [y] => inr (map (fun x => f x y) a)
       | _, _ => inl ValueError
       end.

(** The value of an expression, or the exception its evaluation raises.
    Python evaluates the operands of an operator from left to right and
    then applies it: the exception of the left operand comes first. *)
Definition unop {A B} (f : A -> B) (x : exn + A) : exn + B :=
  match x with
  | inl e => inl e
  | inr a => inr (f a)
  end.

Definition binop {A B C} (f : A -> B -> exn + C) (x : exn + A) (y : exn + B)
    : exn + C :=
  match x with
  | inl e => inl e
  | inr a => match y with
             | inl e => inl e
             | inr b => f a b
             end
  end.

Definition zeros (n : nat) : array := repeat 0 n.
Definition aadd (a b : array) : array := zip_with Rplus a b.
Definition asub (a b : array) : array := zip_with Rminus a b.
Definition amul (a b : array) : array := zip_with Rmult a b.
Definition ascale (c : R) (a : array) : array := map (Rmult c) a.
Definition aneg (a : array) : array := map Ropp a.

(** The leading axis of length three of the [(3, N)] and [(3, 3, ..)]
    arrays, and its indices. *)
Record v3 (A : Type) : Type := V3 { c0 : A; c1 : A; c2 : A }.
Arguments V3 {A} _ _ _.
Arguments c0 {A} _.
Arguments c1 {A} _.
Arguments c2 {A} _.

Inductive ix3 : Type := I0 | I1 | I2.

Definition at3 {A} (t : v3 A) (i : ix3) : A :=
  match i with I0 => c0 t | I1 => c1 t | I2 => c2 t end.

Definition tab3 {A} (f : ix3 -> A) : v3 A := V3 (f I0) (f I1) (f I2).

Definition map3 {A B} (f : A -> B) (t : v3 A) : v3 B :=
  V3 (f (c0 t)) (f (c1 t)) (f (c2 t)).

Definition zip3 {A B C} (f : A -> B -> C) (s : v3 A) (t : v3 B) : v3 C :=
  V3 (f (c0 s) (c0 t)) (f (c1 s) (c1 t)) (f (c2 s) (c2 t)).

(** Sums over an axis of length three, of scalars and of arrays. *)
Definition sum3 (f : ix3 -> R) : R := f I0 + f I1 + f I2.
Definition asum3 (f : ix3 -> array) : array := aadd (aadd (f I0) (f I1)) (f I2).

Abbreviation mat3 := (v3 (v3 R)) (only parsing).

(** [m.T] *)
Definition transpose (m : mat3) : mat3 :=
  tab3 (fun i => tab3 (fun j => at3 (at3 m j) i)).

(** [np.dot(m, a)] for [m] of shape [(3, 3)] and [a] of shape [(3, N)],
    [(3,)] and [(3, P)]. *)
Definition dot_arrays (m : mat3) (a : v3 array) : v3 array :=
  tab3 (fun i => asum3 (fun j => ascale (at3 (at3 m i) j) (at3 a j))).

Definition dot_vec (m : mat3) (a : v3 R) : v3 R :=
  tab3 (fun i => sum3 (fun j => at3 (at3 m i) j * at3 a j)).

Definition dot_cols (m : mat3) (a : v3 (list R)) : v3 (list R) :=
  dot_arrays m a.

(** [scipy.integrate.cumtrapz(y, dx=dx)] along one row: the running sum of
    [dx * (y[i] + y[i+1]) / 2]. *)
Fixpoint cumtrapz_from (acc dx : R) (y : array) : array :=
  match y with
  | a :: (b :: _) as rest =>
      let acc' := acc + dx * (a + b) / 2 in
      acc' :: cumtrapz_from acc' dx rest
  | _ => []
  end.

Definition cumtrapz (y : array) (dx : R) : array := cumtrapz_from 0 dx y.

Definition mean (a : array) : R :=
  fold_right Rplus 0 a / INR (length a).

(** ** The data object *)

(** Values of the [props] dict. *)
Inductive pval : Type :=
| VNum (x : R)
| VStr (s : string)
| VStrs (l : list string)
| VVec (v : v3 R)
| VMat (m : mat3).

(** The data object [advo].  Its named data are kept by shape: [series]
    holds the one-dimensional arrays ([u], [v], [w], [u_inst], [roll],
    ...), [vectors] the arrays of shape [(3, N)] ([_u], [AngRt], [Accel],
    [urot], ...).  An attribute is present when its name is bound. *)
Record advo : Type := mk_advo {
  series : gmap string array;
  vectors : gmap string (v3 array);
  orientmat : option (v3 (v3 array));
  fs : R;
  principal_angle : R;
  props : gmap string pval;
  groups : gmap string (gset string);
  config_orientation : string;
  config_coordinate_system : string;
  config_head : gmap string mat3
}.

Definition set_series (s : gmap string array) (d : advo) : advo :=
  mk_advo s (vectors d) (orientmat d) (fs d) (principal_angle d) (props d)
          (groups d) (config_orientation d) (config_coordinate_system d)
          (config_head d).

Definition set_vectors (x : gmap string (v3 array)) (d : advo) : advo :=
  mk_advo (series d) x (orientmat d) (fs d) (principal_angle d) (props d)
          (groups d) (config_orientation d) (config_coordinate_system d)
          (config_head d).

Definition set_props (p : gmap string pval) (d : advo) : advo :=
  mk_advo (series d) (vectors d) (orientmat d) (fs d) (principal_angle d) p
          (groups d) (config_orientation d) (config_coordinate_system d)
          (config_head d).

Definition set_groups (g : gmap string (gset string)) (d : advo) : advo :=
  mk_advo (series d) (vectors d) (orientmat d) (fs d) (principal_angle d)
          (props d) g (config_orientation d) (config_coordinate_system d)
          (config_head d).

(** ** Mutation of the data object: a state-and-error monad *)

(** The state is the data object and the warnings issued so far.  A
    computation that raises still returns the state it has reached: the
    object is mutated in place. *)
Definition rot (A : Type) : Type :=
  advo * list string -> (exn + A) * (advo * list string).

#[global] Instance rot_ret : MRet rot := fun A a st => (inr a, st).
#[global] Instance rot_bind : MBind rot := fun A B k m st =>
  match m st with
  | (inl e, st') => (inl e, st')
  | (inr a, st') => k a st'
  end.

Definition throw {A} (e : exn) : rot A := fun st => (inl e, st).
Definition lift {A} (r : exn + A) : rot A := fun st => (r, st).
Definition get_obj : rot advo := fun st => (inr (fst st), st).
Definition modify (f : advo -> advo) : rot unit :=
  fun st => (inr tt, (f (fst st), snd st)).

(** [warnings.warn(msg)] *)
Definition warn (msg : string) : rot unit :=
  fun st => (inr tt, (fst st, snd st ++ [msg])).

(** [advo.name] within an expression, for a one-dimensional attribute of
    the data object [d]. *)
Definition obj_attr (d : advo) (name : string) : exn + array :=
  match series d !! name with
  | Some a => inr a
  | None => inl AttributeError
  end.

(** [advo.name] for a one-dimensional and for a [(3, N)] attribute. *)
Definition attr (name : string) : rot array :=
  d ← get_obj;
  match series d !! name with
  | Some a => mret a
  | None => throw AttributeError
  end.

Definition attr3 (name : string) : rot (v3 array) :=
  d ← get_obj;
  match vectors d !! name with
  | Some a => mret a
  | None => throw AttributeError
  end.

(** [advo.name = a] *)
Definition set_attr (name : string) (a : array) : rot unit :=
  modify (fun d => set_series (<[name := a]> (series d)) d).

Definition set_attr3 (name : string) (a : v3 array) : rot unit :=
  modify (fun d => set_vectors (<[name := a]> (vectors d)) d).

(** [advo.props[k]], and its use as a number, a vector, a matrix. *)
Definition prop (k : string) : rot pval :=
  d ← get_obj;
  match props d !! k with
  | Some x => mret x
  | None => throw KeyError
  end.

Definition prop_num (k : string) : rot R :=
  x ← prop k;
  match x with VNum r => mret r | _ => throw TypeError end.

Definition prop_vec (k : string) : rot (v3 R) :=
  x ← prop k;
  match x with VVec r => mret r | _ => throw TypeError end.

Definition prop_mat (k : string) : rot mat3 :=
  x ← prop k;
  match x with VMat r => mret r | _ => throw TypeError end.

(** [advo.props[k] = x] *)
Definition set_prop (k : string) (x : pval) : rot unit :=
  modify (fun d => set_props (<[k := x]> (props d)) d).

(** [advo.props.has_key(k)] *)
Definition has_key (k : string) : rot bool :=
  d ← get_obj; mret (bool_decide (is_Some (props d !! k))).

(** [advo.props.get(k, None) == s] *)
Definition prop_is (k s : string) : rot bool :=
  d ← get_obj;
  mret (match props d !! k with
        | Some (VStr s') => String.eqb s' s
        | _ => false
        end).

(** [advo.groups[g].add(name)] *)
Definition group_add (g name : string) : rot unit :=
  d ← get_obj;
  match groups d !! g with
  | Some names => modify (set_groups (<[g := {[name]} ∪ names]> (groups d)))
  | None => throw KeyError
  end.

(** [advo.add_data(name, a, group)].  The method belongs to the data
    object, outside this module: it stores [a] under [name] and records the
    name in [group] (created when new). *)
Definition add_data (name : string) (a : array) (g : string) : rot unit :=
  set_attr name a;;
  modify (fun d =>
    set_groups (<[g := {[name]} ∪ default ∅ (groups d !! g)]> (groups d)) d).

(** ** A float or an array *)

(** The angles are arrays, or floats once [use_mean_rotation] has replaced
    them by their circular mean; numpy broadcasts a float over an array,
    and two arrays as [broadcast] has it. *)
Inductive nd : Type :=
| Sc (x : R)
| Ar (a : array).

Definition nd_map (f : R -> R) (a : nd) : nd :=
  match a with
  | Sc x => Sc (f x)
  | Ar l => Ar (map f l)
  end.

Definition nd_zip (f : R -> R -> R) (a b : nd) : exn + nd :=
  match a, b with
  | Sc x, Sc y => inr (Sc (f x y))
  | Sc x, Ar l => inr (Ar (map (f x) l))
  | Ar l, Sc y => inr (Ar (map (fun x => f x y) l))
  | Ar l, Ar m => unop Ar (broadcast f l m)
  end.

(** A float or an array times an array. *)
Definition bmul (a : nd) (b : array) : exn + array :=
  match a with
  | Sc x => inr (ascale x b)
  | Ar l => broadcast Rmult l b
  end.

(** The operators of an expression over floats and arrays, and of an
    expression over arrays: [x * a] in the latter is a float or an array
    times an array. *)
Declare Scope nd_scope.
Delimit Scope nd_scope with nd.
Notation "a * b" := (binop (nd_zip Rmult) a b) : nd_scope.
Notation "a + b" := (binop (nd_zip Rplus) a b) : nd_scope.
Notation "a - b" := (binop (nd_zip Rminus) a b) : nd_scope.
Notation "- a" := (unop (nd_map Ropp) a) : nd_scope.

Declare Scope arr_scope.
Delimit Scope arr_scope with arr.
Notation "x * a" := (binop bmul x a) : arr_scope.
Notation "a + b" := (binop (broadcast Rplus) a b) : arr_scope.

(** ** The functions of the module *)

Section rotate.

(** numpy and scipy routines the module calls but does not define. *)

(** [x.astype('single')] on one element: rounding to single precision. *)
Variable single : R -> R.
(** [np.angle(re + 1j*im)] *)
Variable np_angle : R -> R -> R.
(** [scipy.signal.butter(order, Wn)]: the coefficients [(b, a)]. *)
Variable butter : nat -> R -> exn + (list R * list R).
(** [scipy.signal.filtfilt(b, a, x)] along one row. *)
Variable filtfilt : list R -> list R -> array -> exn + array.
(** [np.linalg.inv] *)
Variable inv : mat3 -> exn + mat3.

(** *** [calcAccelVel] *)

Definition calcAccelVel (accel : v3 array) (samp_freq filt_freq : R)
    : exn + v3 array :=
  match butter 2 (filt_freq / (samp_freq / 2)) with
  | inl e => inl e
  | inr filt =>
      let hp := accel in
      let dat := map3 (fun row => 0 :: cumtrapz row (1 / samp_freq)) hp in
      let highpass (row : array) : exn + array :=
        match filtfilt (fst filt) (snd filt) row with
        | inl e => inl e
        | inr low => inr (asub row low)
        end in
      match highpass (c0 dat) with
      | inl e => inl e
      | inr d0 =>
          match highpass (c1 dat) with
          | inl e => inl e
          | inr d1 =>
              match highpass (c2 dat) with
              | inl e => inl e
              | inr d2 => inr (map3 aneg (V3 d0 d1 d2))
              end
          end
      end
  end.

(** *** [calcRotationVel] *)

(** [vec_imu2sample]: of shape [(3,)], or [(3, P)] with one column per
    probe. *)
Inductive positions : Type :=
| Shape3 (v : v3 R)
| Shape3P (m : v3 (list R)).

(** [col[:, None] * a]: one scaled copy of [a] per probe. *)
Definition outer (col : list R) (a : array) : list array :=
  map (fun p => ascale p a) col.

Definition calcRotationVel (AngRt : v3 array) (vec_imu2sample : positions)
    (transMat : option mat3) : exn + v3 array :=
  let vec : v3 (list R) :=
    match vec_imu2sample with
    | Shape3 v => map3 (fun x => [x]) v        (* reshape((3, 1)) *)
    | Shape3P m => m
    end in
  let uerr : v3 (list array) :=
    map3 (map aneg)
      (V3 (zip_with asub (outer (c2 vec) (c1 AngRt))
                         (outer (c1 vec) (c2 AngRt)))
          (zip_with asub (outer (c0 vec) (c2 AngRt))
                         (outer (c2 vec) (c0 AngRt)))
          (zip_with asub (outer (c1 vec) (c0 AngRt))
                         (outer (c0 vec) (c1 AngRt)))) in
  let probe (j : ix3) (k : nat) : array := nth k (at3 uerr j) [] in
  let ix (k : ix3) : nat := match k with I0 => 0 | I1 => 1 | I2 => 2 end%nat in
  match transMat with
  | Some T =>
      if Nat.eqb (length (c0 uerr)) 3 then
        match inv T with
        | inl e => inl e
        | inr Tinv =>
            (* einsum('ij,jkl->ikl', inv(transMat), uerr) *)
            let A (i k : ix3) : array :=
              asum3 (fun j => ascale (at3 (at3 Tinv i) j) (probe j (ix k))) in
            (* np.diagonal(A), then einsum('ij,kj->ik', transMat, ..) *)
            inr (tab3 (fun i =>
                   asum3 (fun j => ascale (at3 (at3 T i) j) (A j j))))
        end
      else
        match c0 uerr with
        | [] => inl IndexError
        | _ :: _ => inr (map3 (fun l => nth 0 l []) uerr)
        end
  | None =>
      match c0 uerr with
      | [] => inl IndexError
      | _ :: _ => inr (map3 (fun l => nth 0 l []) uerr)
      end
  end.

(** *** [correct_motion] *)

Record correct_motion : Type := mk_correct_motion {
  accelvel_filtfreq : R;
  accel_filtfreq : R;
  separate_probes : bool
}.

(** [correct_motion.__init__]; the defaults are [1/30], [1/100] and
    [False]. *)
Definition correct_motion_init (accel_filtfreq vel_filtfreq : R)
    (separate_probes : bool) : correct_motion :=
  mk_correct_motion vel_filtfreq accel_filtfreq separate_probes.

Definition _rotateVel2body : rot unit :=
  m ← prop_mat "body2head_rotmat";
  u ← attr3 "_u";
  set_attr3 "_u" (dot_arrays (transpose m) u).

Definition _calcProbePos (self : correct_motion) : rot positions :=
  nortek ← prop_is "inst_make" "Nortek";
  vector ← prop_is "inst_model" "VECTOR";
  if nortek && vector && separate_probes self then
    let r := 0.076 in
    let phi := - 30 * PI / 180 in
    let theta := map (fun t => t * PI / 180) [0; 120; 240] in
    m ← prop_mat "body2head_rotmat";
    b ← prop_vec "body2head_vec";
    let geom := V3 (map (fun t => r * cos t) theta)
                   (map (fun t => r * sin t) theta)
                   (map (fun _ => r * tan phi * 1) theta) in
    mret (Shape3P (zip3 (fun row bi => map (fun x => x + bi) row)
                        (dot_cols (transpose m) geom) b))
  else
    b ← prop_vec "body2head_vec";
    mret (Shape3 b).

Definition _calcRotVel (self : correct_motion) : rot unit :=
  pos ← _calcProbePos self;
  (if separate_probes self then
     m ← prop_mat "body2head_rotmat";
     a ← attr3 "AngRt";
     d ← get_obj;
     let pos' := match pos with
                 | Shape3 v => Shape3 (dot_vec m v)
                 | Shape3P p => Shape3P (dot_cols m p)
                 end in
     v ← lift (calcRotationVel (dot_arrays m a) pos'
                               (config_head d !! "TransMatrix"));
     set_attr3 "urot" (dot_arrays (transpose m) v)
   else
     a ← attr3 "AngRt";
     v ← lift (calcRotationVel a pos None);
     set_attr3 "urot" v);;
  group_add "orient" "urot".

Definition _calcAccelStable (self : correct_motion) : rot unit :=
  d ← get_obj;
  om ← match orientmat d with
       | Some om => mret om
       | None => throw AttributeError
       end;
  acc ← attr3 "Accel";
  (* einsum('ijk,ik->jk', orientmat, Accel) *)
  let acctmp := tab3 (fun j =>
                  asum3 (fun i => amul (at3 (at3 om i) j) (at3 acc i))) in
  flt ← lift (butter 1 (accel_filtfreq self / (fs d / 2)));
  a0 ← lift (filtfilt (fst flt) (snd flt) (c0 acctmp));
  a1 ← lift (filtfilt (fst flt) (snd flt) (c1 acctmp));
  a2 ← lift (filtfilt (fst flt) (snd flt) (c2 acctmp));
  let acctmp := V3 a0 a1 a2 in
  (* einsum('ijk,jk->ik', orientmat, acctmp) *)
  set_attr3 "AccelStable"
    (tab3 (fun i =>
       asum3 (fun j => amul (at3 (at3 om i) j) (at3 acctmp j))));;
  group_add "orient" "AccelStable".

Definition _calcAccelVel (self : correct_motion) : rot unit :=
  acc ← attr3 "Accel";
  stable ← attr3 "AccelStable";
  d ← get_obj;
  v ← lift (calcAccelVel (zip3 asub acc stable) (fs d)
                         (accelvel_filtfreq self));
  set_attr3 "uacc" v;;
  group_add "orient" "uacc".

(** [correct_motion.__call__] *)
Definition correct_motion_call (self : correct_motion) : rot unit :=
  d ← get_obj;
  match props d !! "rotate_vars" with
  | None =>
      set_prop "rotate_vars"
        (VStrs ["_u"; "urot"; "uacc"; "Accel"; "AccelStable"; "AngRt";
                "Mag"]%string)
  | Some (VStrs l) =>
      set_prop "rotate_vars" (VStrs (l ++ ["urot"; "uacc"; "AccelStable"]%string))
  | Some _ => throw TypeError
  end;;
  _rotateVel2body;;
  _calcRotVel self;;
  _calcAccelStable self;;
  _calcAccelVel self;;
  u ← attr3 "_u";
  urot ← attr3 "urot";
  uacc ← attr3 "uacc";
  set_attr3 "_u" (zip3 asub u (zip3 aadd urot uacc)).

(** *** [inst2earth] *)


(** [np.angle(np.exp(1j*a).mean())] *)
Definition circular_mean (a : nd) : nd :=
  match a with
  | Sc x => Sc (np_angle (cos x) (sin x))
  | Ar l => Sc (np_angle (mean (map cos l)) (mean (map sin l)))
  end.

Definition no_declination_msg : string :=
  "No declination in adv object.  Assuming a declination of 0.".

Definition inst2earth (use_mean_rotation : bool) : rot unit :=
  roll ← attr "roll";
  let rr := Ar (map (fun x => x * PI / 180) roll) in
  pitch ← attr "pitch";
  let pp := Ar (map (fun x => x * PI / 180) pitch) in
  heading ← attr "heading";
  let hh := Ar (map (fun x => (x - 90) * PI / 180) heading) in
  let rr := if use_mean_rotation then circular_mean rr else rr in
  let pp := if use_mean_rotation then circular_mean pp else pp in
  let hh := if use_mean_rotation then circular_mean hh else hh in
  has ← has_key "declination";
  hh ← (if (has : bool) then
          x ← prop_num "declination";
          mret (nd_map (fun h => h + x * PI / 180) hh)
        else
          warn no_declination_msg;; mret hh);
  has ← has_key "heading_offset";
  hh ← (if (has : bool) then
          x ← prop_num "heading_offset";
          mret (nd_map (fun h => h + x * PI / 180) hh)
        else (mret hh : rot nd));
  d ← get_obj;
  let rr := if String.eqb (config_orientation d) "down"
            then nd_map (fun r => r + PI) rr else rr in
  (if String.eqb (config_coordinate_system d) "XYZ"
      && negb (bool_decide (is_Some (series d !! "u_inst")))
   then
     u ← attr "u"; add_data "u_inst" u "inst";;
     v ← attr "v"; add_data "v_inst" v "inst";;
     w ← attr "w"; add_data "w_inst" w "inst"
   else (mret tt : rot unit));;
  d ← get_obj;
  let ch : exn + nd := inr (nd_map cos hh) in
  let sh : exn + nd := inr (nd_map sin hh) in
  let cp : exn + nd := inr (nd_map cos pp) in
  let sp : exn + nd := inr (nd_map sin pp) in
  let cr : exn + nd := inr (nd_map cos rr) in
  let sr : exn + nd := inr (nd_map sin rr) in
  let u_inst := obj_attr d "u_inst" in
  let v_inst := obj_attr d "v_inst" in
  let w_inst := obj_attr d "w_inst" in
  u ← lift (unop (map single)
              ((ch * cp)%nd * u_inst
               + (- ch * sp * sr + sh * cr)%nd * v_inst
               + (- ch * cr * sp - sh * sr)%nd * w_inst)%arr);
  v ← lift (unop (map single)
              ((- sh * cp)%nd * u_inst
               + (sh * sp * sr + ch * cr)%nd * v_inst
               + (sh * cr * sp - ch * sr)%nd * w_inst)%arr);
  w ← lift (unop (map single)
              (sp * u_inst + (sr * cp)%nd * v_inst
               + (cp * cr)%nd * w_inst)%arr);
  add_data "u" u "main";;
  add_data "v" v "main";;
  add_data "w" w "main";;
  set_prop "coord_sys" (VStr "earth").

(** *** [earth2principal] and [principal2earth] *)

(** Modelled from the spec: [advo.U_rot(angle)] is a method of the data
    object, defined outside this module.  The spec has it "treat (u,v) as a
    complex number u+iv, multiply by a unit phasor" of the given angle; the
    result is kept as pairs (real part, imaginary part). *)
Definition U_rot (angle : R) : rot (list (R * R)) :=
  u ← attr "u";
  v ← attr "v";
  lift (broadcast (fun a b => (a * cos angle - b * sin angle,
                               a * sin angle + b * cos angle)) u v).

(** [earth2principal(advo, vrs=('u','v'))]; the body never reads [vrs]. *)
Definition earth2principal : rot unit :=
  cs ← prop "coord_sys";
  if match cs with VStr s => String.eqb s "principal" | _ => false end
  then (mret tt : rot unit)
  else
    d ← get_obj;
    tmp ← U_rot (- principal_angle d);
    set_attr "u" (map single (map fst tmp));;
    set_attr "v" (map single (map snd tmp));;
    set_prop "coord_sys" (VStr "principal").

Definition principal2earth : rot unit :=
  d ← get_obj;
  tmp ← U_rot (principal_angle d);
  set_attr "u" (map single (map fst tmp));;
  set_attr "v" (map single (map snd tmp));;
  set_prop "coord_sys" (VStr "earth").

End rotate.

(** ** What the operations leave in place, and example data objects *)

(** The rotated pairs [U_rot] computes from [u] and [v] of one length. *)
Definition rotated (angle : R) (u v : array) : list (R * R) :=
  zip_with (fun a b => (a * cos angle - b * sin angle,
                        a * sin angle + b * cos angle)) u v.

(** The data object once the rotated components and the tag are stored. *)
Definition store_rotated (single : R -> R) (tmp : list (R * R))
    (tag : string) (d : advo) : advo :=
  let d1 := set_series (<["u" := map single (map fst tmp)]> (series d)) d in
  let d2 := set_series (<["v" := map single (map snd tmp)]> (series d1)) d1 in
  set_props (<["coord_sys" := VStr tag]> (props d2)) d2.

(** [d'] differs from [d] at most in the series [u] and [v] and in the
    [coord_sys] entry of [props]. *)
Definition same_but_uv_and_tag (d d' : advo) : Prop :=
  (forall k : string, k <> "u" -> k <> "v" ->
     series d' !! k = series d !! k) /\
  vectors d' = vectors d /\
  orientmat d' = orientmat d /\
  fs d' = fs d /\
  principal_angle d' = principal_angle d /\
  (forall k : string, k <> "coord_sys" -> props d' !! k = props d !! k) /\
  groups d' = groups d /\
  config_orientation d' = config_orientation d /\
  config_coordinate_system d' = config_coordinate_system d /\
  config_head d' = config_head d.

(** A data object in the earth frame: one sample with [u = 1], [v = 0],
    [w = 0], and a principal angle of [PI]. *)
Definition d_earth : advo :=
  mk_advo (<["u" := [1]]> (<["v" := [0]]> (<["w" := [0]]> ∅)))
          ∅ None 1 PI (<["coord_sys" := VStr "earth"]> ∅) ∅ "up" "ENU" ∅.

(** A data object in the earth frame whose [u] has three samples and whose
    [v] has two. *)
Definition d_ragged : advo :=
  mk_advo (<["u" := [1; 2; 3]]> (<["v" := [0; 0]]> ∅))
          ∅ None 1 PI (<["coord_sys" := VStr "earth"]> ∅) ∅ "up" "ENU" ∅.

(** [advo.props[k] = x] applied to a data object. *)
Definition with_prop (k : string) (x : R) (d : advo) : advo :=
  set_props (<[k := VNum x]> (props d)) d.

(** The part of [inst2earth] from the test of the orientation on, and the
    part from the test of [heading_offset] on, given the angles computed
    so far.  [inst2earth_parts] below shows that [inst2earth] is the
    sequence of its first statements and these parts. *)
Definition inst2earth_apply (single : R -> R) (rr pp hh : nd) : rot unit :=
  d ← get_obj;
  let rr := if String.eqb (config_orientation d) "down"
            then nd_map (fun r => r + PI) rr else rr in
  (if String.eqb (config_coordinate_system d) "XYZ"
      && negb (bool_decide (is_Some (series d !! "u_inst")))
   then
     u ← attr "u"; add_data "u_inst" u "inst";;
     v ← attr "v"; add_data "v_inst" v "inst";;
     w ← attr "w"; add_data "w_inst" w "inst"
   else (mret tt : rot unit));;
  d ← get_obj;
  let ch : exn + nd := inr (nd_map cos hh) in
  let sh : exn + nd := inr (nd_map sin hh) in
  let cp : exn + nd := inr (nd_map cos pp) in
  let sp : exn + nd := inr (nd_map sin pp) in
  let cr : exn + nd := inr (nd_map cos rr) in
  let sr : exn + nd := inr (nd_map sin rr) in
  let u_inst := obj_attr d "u_inst" in
  let v_inst := obj_attr d "v_inst" in
  let w_inst := obj_attr d "w_inst" in
  u ← lift (unop (map single)
              ((ch * cp)%nd * u_inst
               + (- ch * sp * sr + sh * cr)%nd * v_inst
               + (- ch * cr * sp - sh * sr)%nd * w_inst)%arr);
  v ← lift (unop (map single)
              ((- sh * cp)%nd * u_inst
               + (sh * sp * sr + ch * cr)%nd * v_inst
               + (sh * cr * sp - ch * sr)%nd * w_inst)%arr);
  w ← lift (unop (map single)
              (sp * u_inst + (sr * cp)%nd * v_inst
               + (cp * cr)%nd * w_inst)%arr);
  add_data "u" u "main";;
  add_data "v" v "main";;
  add_data "w" w "main";;
  set_prop "coord_sys" (VStr "earth").

Definition inst2earth_offset (single : R -> R) (rr pp hh : nd) : rot unit :=
  has ← has_key "heading_offset";
  hh ← (if (has : bool) then
          x ← prop_num "heading_offset";
          mret (nd_map (fun h => h + x * PI / 180) hh)
        else (mret hh : rot nd));
  inst2earth_apply single rr pp hh.

(** The angles [rr], [pp], [hh] before the corrections of the heading. *)
Definition first_angles (np_angle : R -> R -> R) (use_mean_rotation : bool)
    (roll pitch heading : array) : nd * nd * nd :=
  let rr := Ar (map (fun x => x * PI / 180) roll) in
  let pp := Ar (map (fun x => x * PI / 180) pitch) in
  let hh := Ar (map (fun x => (x - 90) * PI / 180) heading) in
  (if use_mean_rotation then circular_mean np_angle rr else rr,
   if use_mean_rotation then circular_mean np_angle pp else pp,
   if use_mean_rotation then circular_mean np_angle hh else hh).

(** A computation that neither reads nor writes the property [k] and
    issues no warning: run on a data object with [k] set to [x], it ends
    as on the object without, and leaves the same object with [k] set. *)
Definition respects (k : string) (x : R) {A} (m : rot A) : Prop :=
  forall d ws ws0,
    fst (m (with_prop k x d, ws0)) = fst (m (d, ws)) /\
    fst (snd (m (with_prop k x d, ws0)))
      = with_prop k x (fst (snd (m (d, ws)))) /\
    snd (snd (m (d, ws))) = ws /\
    snd (snd (m (with_prop k x d, ws0))) = ws0.

(** A data object in instrument coordinates with neither a declination nor
    a heading offset: one sample, all angles and velocities 0. *)
Definition d_no_inputs : advo :=
  mk_advo (<["roll" := [0]]> (<["pitch" := [0]]> (<["heading" := [0]]>
            (<["u" := [0]]> (<["v" := [0]]> (<["w" := [0]]> ∅))))))
          ∅ None 1 0 ∅ ∅ "up" "XYZ" ∅.

(** A data object in instrument coordinates with a declination and no
    heading offset: one sample, all angles and velocities 0. *)
Definition d_no_offset : advo :=
  mk_advo (<["roll" := [0]]> (<["pitch" := [0]]> (<["heading" := [0]]>
            (<["u" := [0]]> (<["v" := [0]]> (<["w" := [0]]> ∅))))))
          ∅ None 1 0 (<["declination" := VNum 0]> ∅) ∅ "up" "XYZ" ∅.

(** A [(3, N)] array of zeros, and the shape [(3, 3, N)] of the
    orientation matrix. *)
Definition zeros3 (n : nat) : v3 (list R) := V3 (zeros n) (zeros n) (zeros n).

Definition rows_of_length (n : nat) (a : v3 (list R)) : Prop :=
  length (c0 a) = n /\ length (c1 a) = n /\ length (c2 a) = n.


(** The probe positions form a rectangular array with at least one
    probe. *)
Definition rectangular (pos : positions) : Prop :=
  match pos with
  | Shape3 _ => True
  | Shape3P m => exists P, (0 < P)%nat /\ rows_of_length P m
  end.


(** An instrument at rest: two samples, velocity rows [1, 1], [2, 2],
    [3, 3], angular rate and acceleration zero, the identity as
    head-to-body matrix and as orientation matrix. *)
Definition id3 : v3 (v3 R) := V3 (V3 1 0 0) (V3 0 1 0) (V3 0 0 1).

Definition d_rest : advo :=
  mk_advo ∅
          (<["_u" := V3 [1; 1] [2; 2] [3; 3]]>
             (<["AngRt" := zeros3 2]> (<["Accel" := zeros3 2]> ∅)))
          (Some (map3 (map3 (fun x => [x; x])) id3))
          1 0
          (<["body2head_rotmat" := VMat id3]>
             (<["body2head_vec" := VVec (V3 0 0 0)]> ∅))
          (<["orient" := ∅]> ∅) "up" "XYZ" ∅.

(** Stand-ins for the filter routines in the examples: a design that
    returns the coefficients [([1], [1])] and a filter that returns its
    input. *)
Definition unit_butter (order : nat) (Wn : R) : exn + (list R * list R) :=
  inr ([1], [1]).

Definition pass_filtfilt (b a x : list R) : exn + list R := inr x.

Definition same_inv (m : v3 (v3 R)) : exn + v3 (v3 R) := inr m.




(** ** [inst2earth] in closed form *)

(** The data object once [add_data(name, a, g)] has run. *)
Definition with_data (name : string) (a : list R) (g : string) (d : advo)
    : advo :=
  set_groups (<[g := {[name]} ∪ default ∅ (groups d !! g)]> (groups d))
    (set_series (<[name := a]> (series d)) d).

(** The test that guards the copy of [u], [v], [w] to [u_inst], [v_inst],
    [w_inst]. *)
Definition saves_inst (d : advo) : bool :=
  String.eqb (config_coordinate_system d) "XYZ"
  && negb (bool_decide (is_Some (series d !! "u_inst"))).

(** The data object once the three components have been copied. *)
Definition save_inst (u v w : list R) (d : advo) : advo :=
  with_data "w_inst" w "inst"
    (with_data "v_inst" v "inst" (with_data "u_inst" u "inst" d)).

(** The roll angle the rotation uses: [PI] more for the orientation
    [down]. *)
Definition oriented (d : advo) (rr : nd) : nd :=
  if String.eqb (config_orientation d) "down"
  then nd_map (fun r => r + PI) rr else rr.

(** The components [u], [v], [w] in the earth frame, from the angles and
    the components in the instrument frame, in the order [inst2earth]
    evaluates them. *)
Definition earth_uvw (single : R -> R) (rr pp hh : nd)
    (u_inst v_inst w_inst : exn + list R) : exn + v3 (list R) :=
  let ch : exn + nd := inr (nd_map cos hh) in
  let sh : exn + nd := inr (nd_map sin hh) in
  let cp : exn + nd := inr (nd_map cos pp) in
  let sp : exn + nd := inr (nd_map sin pp) in
  let cr : exn + nd := inr (nd_map cos rr) in
  let sr : exn + nd := inr (nd_map sin rr) in
  binop (fun uv w => inr (V3 (fst uv) (snd uv) w))
    (binop (fun u v => inr (u, v))
       (unop (map single)
          ((ch * cp)%nd * u_inst
           + (- ch * sp * sr + sh * cr)%nd * v_inst
           + (- ch * cr * sp - sh * sr)%nd * w_inst)%arr)
       (unop (map single)
          ((- sh * cp)%nd * u_inst
           + (sh * sp * sr + ch * cr)%nd * v_inst
           + (sh * cr * sp - ch * sr)%nd * w_inst)%arr))
    (unop (map single)
       (sp * u_inst + (sr * cp)%nd * v_inst + (cp * cr)%nd * w_inst)%arr).

(** The data object once the earth-frame components and the tag are
    stored. *)
Definition store_earth (e : v3 (list R)) (d : advo) : advo :=
  let d3 := with_data "w" (c2 e) "main"
              (with_data "v" (c1 e) "main"
                 (with_data "u" (c0 e) "main" d)) in
  set_props (<["coord_sys" := VStr "earth"]> (props d3)) d3.

(** The copy of the components, as [inst2earth] runs it. *)
Definition save_inst_data : rot unit :=
  u ← attr "u"; add_data "u_inst" u "inst";;
  v ← attr "v"; add_data "v_inst" v "inst";;
  w ← attr "w"; add_data "w_inst" w "inst".

(** The data object of [d_no_offset] once [inst2earth] has run. *)
Definition d_rotated : advo :=
  fst (snd (inst2earth (fun x => x) (fun _ _ => 0) false (d_no_offset, []))).

(** A data object like [d_no_offset], in the coordinate system [ENU]: it
    holds no instrument-frame components, and [inst2earth] stores none. *)
Definition d_enu : advo :=
  mk_advo (<["roll" := [0]]> (<["pitch" := [0]]> (<["heading" := [0]]>
            (<["u" := [0]]> (<["v" := [0]]> (<["w" := [0]]> ∅))))))
          ∅ None 1 0 (<["declination" := VNum 0]> ∅) ∅ "up" "ENU" ∅.

(** [d] in the orientation [up], with the instrument-frame components
    [vi] and [wi] negated. *)
Definition turned_up (vi wi : list R) (d : advo) : advo :=
  mk_advo (<["w_inst" := aneg wi]> (<["v_inst" := aneg vi]> (series d)))
          (vectors d) (orientmat d) (fs d) (principal_angle d) (props d)
          (groups d) "up" (config_coordinate_system d) (config_head d).

(** The outcome, the warnings, and the series [u], [v], [w] of the data
    object a run leaves. *)
Definition outcome_uvw (r : (exn + unit) * (advo * list string))
    : (exn + unit) * list string
      * (option (list R) * option (list R) * option (list R)) :=
  (fst r, snd (snd r),
   (series (fst (snd r)) !! "u", series (fst (snd r)) !! "v",
    series (fst (snd r)) !! "w")).

(** One sample, roll, pitch and heading 0, in the orientation [down]. *)
Definition d_down : advo :=
  mk_advo (<["roll" := [0]]> (<["pitch" := [0]]> (<["heading" := [0]]>
            (<["u_inst" := [1]]> (<["v_inst" := [2]]>
               (<["w_inst" := [3]]> ∅))))))
          ∅ None 1 0 (<["declination" := VNum 0]> ∅) ∅ "down" "XYZ" ∅.

(** ** What motion correction writes *)

(** [d'] is [d] with a [(3, N)] array stored under [key] and [key]
    recorded in the group [orient]; nothing else differs. *)
Definition records_vector (key : string) (d d' : advo) : Prop :=
  exists val names,
    groups d !! "orient" = Some names /\
    d' = set_groups (<["orient" := {[key]} ∪ names]> (groups d))
           (set_vectors (<[key := val]> (vectors d)) d).

(** The names [__call__] adds to [rotate_vars]. *)
Definition rotate_vars_after (d : advo) : pval :=
  match props d !! "rotate_vars" with
  | Some (VStrs l) => VStrs (l ++ ["urot"; "uacc"; "AccelStable"]%string)
  | _ => VStrs ["_u"; "urot"; "uacc"; "Accel"; "AccelStable"; "AngRt";
                "Mag"]%string
  end.

(** The data object of [d_rest] once motion correction has run with the
    stand-in filters. *)
Definition d_rest_corrected : advo :=
  fst (snd (correct_motion_call unit_butter pass_filtfilt same_inv
              (correct_motion_init (1 / 30) (1 / 100) false) (d_rest, []))).

(** ** The rotation of [inst2earth] preserves speed *)

(** The squared speed, sample by sample. *)
Definition speed2 (u v w : list R) : list R :=
  aadd (aadd (amul u u) (amul v v)) (amul w w).

(** The value a float or an array contributes at sample [i], and the
    arrays that have [n] samples. *)
Definition nd_at (a : nd) (i : nat) : R :=
  match a with
  | Sc x => x
  | Ar l => nth i l 0
  end.

Definition nd_fits (n : nat) (a : nd) : Prop :=
  match a with
  | Sc _ => True
  | Ar l => length l = n
  end.

(** A float or an array, or an array, that is the value of an expression,
    has [n] samples and holds [g i] at sample [i]. *)
Definition nd_good (n : nat) (g : nat -> R) (x : exn + nd) : Prop :=
  exists a, x = inr a /\ nd_fits n a /\
            forall i, (i < n)%nat -> nd_at a i = g i.

Definition arr_good (n : nat) (g : nat -> R) (x : exn + list R) : Prop :=
  exists a, x = inr a /\ length a = n /\
            forall i, (i < n)%nat -> nth i a 0 = g i.

(** Two samples in the orientation [down], with a roll of 90 and a heading
    of 30 degrees. *)
Definition d_two : advo :=
  mk_advo (<["roll" := [90; 0]]> (<["pitch" := [10; 20]]>
             (<["heading" := [30; 60]]>
                (<["u_inst" := [1; 4]]> (<["v_inst" := [2; 5]]>
                   (<["w_inst" := [3; 6]]> ∅))))))
          ∅ None 1 0 (<["declination" := VNum 0]> ∅) ∅ "down" "XYZ" ∅.

Definition d_two_rotated : advo :=
  fst (snd (inst2earth (fun x => x) (fun _ _ => 0) false (d_two, []))).

(* ===================================================================== *)
(** * Part III.  Properties of the index builder and the index analysis   *)
(* ===================================================================== *)

Local Open Scope Z_scope.

(** ** [struct] and the cursor *)


Lemma struct_unpack_length fmt : forall bs vs,
  struct_unpack fmt bs = Some vs -> length bs = fmt_total fmt.
Proof.
  induction fmt as [|c fmt IH]; intros bs vs H; simpl in *.
  - destruct bs; [reflexivity | discriminate].
  - destruct (Nat.ltb_spec (length bs) (fmt_size c)); [discriminate|].
    destruct (struct_unpack fmt (skipn (fmt_size c) bs)) eqn:E; [|discriminate].
    apply IH in E. rewrite length_skipn in E. lia.
Qed.

Lemma struct_unpack_total fmt : forall bs,
  length bs = fmt_total fmt -> exists vs, struct_unpack fmt bs = Some vs.
Proof.
  induction fmt as [|c fmt IH]; intros bs H; simpl in *.
  - destruct bs; [eauto | discriminate].
  - destruct (Nat.ltb_spec (length bs) (fmt_size c)); [lia|].
    destruct (IH (skipn (fmt_size c) bs)) as [vs E].
    { rewrite length_skipn. lia. }
    rewrite E. eauto.
Qed.

Lemma field_at_total fmt n fin off :
  fmt_total fmt = n -> (Z.to_nat off + n <= length fin)%nat ->
  exists t, field_at fmt n fin off = Some t.
Proof.
  intros Hn Hlen. apply struct_unpack_total.
  rewrite length_firstn, length_skipn. lia.
Qed.

Lemma field_at_fits fmt n fin off t :
  field_at fmt n fin off = Some t -> fmt_total fmt = n -> (0 < n)%nat ->
  (Z.to_nat off + n <= length fin)%nat.
Proof.
  intros H Hn Hpos. apply struct_unpack_length in H.
  rewrite length_firstn, length_skipn in H. lia.
Qed.

Lemma seek1_ok off cur :
  0 <= cur + off -> seek1 off cur = inr (tt, cur + off).
Proof.
  intros H. unfold seek1.
  destruct (Z.ltb_spec (cur + off) 0); [lia | reflexivity].
Qed.

Lemma read_unpack_eq {A} fin fmt n (k : list Z -> io A) cur :
  Z.of_nat (fmt_total fmt) = n ->
  (read fin n ≫= (fun b => unpack fmt b ≫= k)) cur =
  match struct_unpack fmt (firstn (Z.to_nat n) (skipn (Z.to_nat cur) fin)) with
  | Some t => k t (cur + n)
  | None => inl struct_error
  end.
Proof.
  intros Hn. unfold mbind, io_bind, bind, read, unpack.
  destruct (struct_unpack fmt _) as [t|] eqn:E; [|reflexivity].
  apply struct_unpack_length in E. rewrite E, Hn. reflexivity.
Qed.

(** ** One pass of the loop, in closed form *)

Lemma loop_body_eq fin vs cur :
  0 <= cur ->
  loop_body fin vs cur =
  match hdr_at fin cur with
  | None =>
      inr (Break vs,
           cur + Z.of_nat (length (firstn 10 (skipn (Z.to_nat cur) fin))))
  | Some dat =>
      if recognized (item dat 2) then
        match field_at [fH] 2 fin (cur + 12),
              field_at [fB; fB; fB; fB; fB; fB; fH] 8 fin (cur + 18),
              field_at [fH] 2 fin (cur + 40),
              field_at [fI] 4 fin (cur + 82) with
        | Some c, Some t, Some b, Some e =>
            let entry := written vs cur dat c t b e in
            if cur + 10 + item dat 4 <? 0 then
              inr (Abort OSError
                     (mk_vars (ens entry) (v_last_ens vs)
                              (v_fout vs ++ [entry])),
                   cur + 86)
            else
              inr (Next (mk_vars (ens entry) (item e 0) (v_fout vs ++ [entry])),
                   cur + 10 + item dat 4)
        | _, _, _, _ => inl struct_error
        end
      else if cur + 10 + item dat 4 <? 0 then inl OSError
           else inr (Next vs, cur + 10 + item dat 4)
  end.
Proof.
  intros Hcur. unfold loop_body, hdr_at, field_at, written.
  unfold mbind at 1 2, io_bind at 1 2, bind at 1 2, tell, read at 1, hdr_size.
  cbn beta iota. change (Z.to_nat 10) with 10%nat.
  destruct (struct_unpack hdr (firstn 10 (skipn (Z.to_nat cur) fin)))
    as [dat|] eqn:Eh; [|reflexivity].
  pose proof (struct_unpack_length _ _ _ Eh) as Lh. simpl in Lh. rewrite Lh.
  change (Z.of_nat 10) with 10.
  destruct (recognized (item dat 2)).
  2: { unfold mbind, io_bind, bind, seek1, ret.
       destruct (cur + 10 + item dat 4 <? 0); reflexivity. }
  unfold mbind at 1, io_bind at 1, bind at 1. rewrite seek1_ok by lia.
  rewrite read_unpack_eq by reflexivity.
  replace (cur + 10 + 2) with (cur + 12) by lia.
  change (Z.to_nat 2) with 2%nat.
  destruct (struct_unpack [fH] (firstn 2 (skipn (Z.to_nat (cur + 12)) fin)))
    as [c|]; [|reflexivity].
  unfold mbind at 1, io_bind at 1, bind at 1. rewrite seek1_ok by lia.
  rewrite read_unpack_eq by reflexivity.
  replace (cur + 12 + 2 + 4) with (cur + 18) by lia.
  change (Z.to_nat 8) with 8%nat.
  destruct (struct_unpack _ (firstn 8 (skipn (Z.to_nat (cur + 18)) fin)))
    as [t|]; [|reflexivity].
  unfold mbind at 1, io_bind at 1, bind at 1. rewrite seek1_ok by lia.
  rewrite read_unpack_eq by reflexivity.
  replace (cur + 18 + 8 + 14) with (cur + 40) by lia.
  change (Z.to_nat 2) with 2%nat.
  destruct (struct_unpack [fH] (firstn 2 (skipn (Z.to_nat (cur + 40)) fin)))
    as [b|]; [|reflexivity].
  unfold mbind at 1, io_bind at 1, bind at 1. rewrite seek1_ok by lia.
  rewrite read_unpack_eq by reflexivity.
  replace (cur + 40 + 2 + 40) with (cur + 82) by lia.
  change (Z.to_nat 4) with 4%nat.
  destruct (struct_unpack [fI] (firstn 4 (skipn (Z.to_nat (cur + 82)) fin)))
    as [e|]; [|reflexivity].
  unfold after_write, seek1, ret. cbv zeta.
  replace (cur + 82 + 4 + (item dat 4 - 76)) with (cur + 10 + item dat 4)
    by lia.
  replace (cur + 82 + 4) with (cur + 86) by lia.
  destruct (cur + 10 + item dat 4 <? 0); reflexivity.
Qed.


Lemma loop_body_spec fin vs cur :
  0 <= cur -> pass_spec fin vs cur (loop_body fin vs cur).
Proof.
  intros Hcur. rewrite loop_body_eq by assumption.
  destruct (hdr_at fin cur) as [dat|] eqn:Eh; [|constructor; assumption].
  destruct (recognized (item dat 2)) eqn:Er.
  - destruct (field_at [fH] 2 fin (cur + 12)) as [c|]; [|constructor].
    destruct (field_at _ 8 fin (cur + 18)) as [t|]; [|constructor].
    destruct (field_at [fH] 2 fin (cur + 40)) as [b|]; [|constructor].
    destruct (field_at [fI] 4 fin (cur + 82)) as [e|] eqn:Ee; [|constructor].
    cbv zeta.
    destruct (Z.ltb_spec (cur + 10 + item dat 4) 0).
    + eapply pass_abort; eauto.
      unfold counter_at. rewrite Ee. reflexivity.
    + eapply pass_index; eauto.
      unfold counter_at. rewrite Ee. reflexivity.
  - destruct (Z.ltb_spec (cur + 10 + item dat 4) 0); [constructor|].
    eapply pass_skip; eauto.
Qed.

(** ** The ensemble index across a change of counter *)

(** The rule the code applies: the index moves on when the previous
    counter is positive and differs from the record's. *)
Lemma pass_index_rule fin vs cur vs' cur' :
  0 <= cur ->
  loop_body fin vs cur = inr (Next vs', cur') ->
  v_fout vs' <> v_fout vs ->
  exists counter entry,
    counter_at fin cur = Some counter /\
    v_fout vs' = v_fout vs ++ [entry] /\
    v_last_ens vs' = counter /\
    v_N vs' = ens entry /\
    pos entry = cur /\
    ens entry = (if (0 <? v_last_ens vs) && negb (v_last_ens vs =? counter)
                 then v_N vs + 1 else v_N vs).
Proof.
  intros Hcur Hb Hne. pose proof (loop_body_spec fin vs cur Hcur) as P.
  rewrite Hb in P. inversion P; subst.
  - contradiction.
  - exists counter, entry. simpl. repeat split; auto.
Qed.

(** C1, evaluated where it fails: two velocity records whose ensemble
    counters are 0 and 1.  The counter changes, yet both index entries are
    written with ensemble index 0, because the test [last_ens > 0] also
    rejects a previous counter that is 0. *)
Theorem counter_zero_then_one_keeps_index :
  counter_at stream_0_1 0 = Some 0 /\
  counter_at stream_0_1 86 = Some 1 /\
  fst (create_index_slow 3 stream_0_1 (2 ^ 32)) = Finished /\
  map (fun e => (ID e, pos e, ens e))
      (snd (create_index_slow 3 stream_0_1 (2 ^ 32)))
  = [(21, 0, 0); (21, 86, 0)].
Proof. vm_compute. repeat split; reflexivity. Qed.

(** ** A declared size below the header size *)

(** C2, as the code has it: there is no corruption check.  A record whose
    size field [s] satisfies [0 <= s < hdr_size] (0 included) is handled
    like any other: an unrecognized record is skipped, a recognized record
    that lies within the file is indexed, no exception is raised, and the
    cursor moves to [cur + hdr_size + s], beyond the start of the record. *)
Theorem small_size_is_processed fin vs cur dat :
  0 <= cur ->
  hdr_at fin cur = Some dat ->
  0 <= item dat 4 < hdr_size ->
  (recognized (item dat 2) = false ->
     loop_body fin vs cur = inr (Next vs, cur + hdr_size + item dat 4)) /\
  (recognized (item dat 2) = true ->
     (Z.to_nat cur + 86 <= length fin)%nat ->
     exists entry counter,
       loop_body fin vs cur =
         inr (Next (mk_vars (ens entry) counter (v_fout vs ++ [entry])),
              cur + hdr_size + item dat 4) /\
       pos entry = cur /\ ID entry = item dat 2).
Proof.
  intros Hcur Hh Hs. unfold hdr_size in *.
  rewrite loop_body_eq by assumption. rewrite Hh.
  split; intros Hr; rewrite Hr.
  - destruct (Z.ltb_spec (cur + 10 + item dat 4) 0); [lia | reflexivity].
  - intros Hlen.
    destruct (field_at_total [fH] 2 fin (cur + 12)) as [c Ec];
      [reflexivity | lia |].
    destruct (field_at_total [fB; fB; fB; fB; fB; fB; fH] 8 fin (cur + 18))
      as [t Et]; [reflexivity | lia |].
    destruct (field_at_total [fH] 2 fin (cur + 40)) as [b Eb];
      [reflexivity | lia |].
    destruct (field_at_total [fI] 4 fin (cur + 82)) as [e Ee];
      [reflexivity | lia |].
    rewrite Ec, Et, Eb, Ee.
    destruct (Z.ltb_spec (cur + 10 + item dat 4) 0); [lia |].
    exists (written vs cur dat c t b e), (item e 0). cbv zeta.
    repeat split.
Qed.

(** A velocity record with size field 0 at the start of an 86 byte file. *)
Lemma small_size_is_processed_witness :
  exists entry counter,
    loop_body stream_size0 (mk_vars 0 (-1) []) 0 =
      inr (Next (mk_vars (ens entry) counter [entry]), 0 + hdr_size + 0) /\
    pos entry = 0 /\ ID entry = 21.
Proof.
  refine (proj2 (small_size_is_processed stream_size0 (mk_vars 0 (-1) []) 0
                   [165; 10; 21; 16; 0; 0; 0] _ _ _) _ _).
  - lia.
  - vm_compute. reflexivity.
  - unfold hdr_size, item. simpl. lia.
  - vm_compute. reflexivity.
  - vm_compute. lia.
Defined.

(** C2 as stated fails: the build over a file that starts with a velocity
    record of declared size 0 ends normally, and the record is indexed. *)
Lemma size_zero_record_is_indexed :
  hdr_at stream_size0 0 = Some [165; 10; 21; 16; 0; 0; 0] /\
  create_index_slow 9 stream_size0 (2 ^ 32)
  = (Finished, [mk_entry 0 0 21 7 4100 0 0 0 0 0 0 0 0]).
Proof. vm_compute. split; reflexivity. Qed.

(** ** Order of the index entries *)

Lemma Sorted_snoc {A} (R : A -> A -> Prop) (l : list A) (x : A) :
  Sorted R l -> Forall (fun y => R y x) l -> Sorted R (l ++ [x]).
Proof.
  induction 1 as [|y l Hs IH Hd]; intros Hall; simpl.
  - repeat constructor.
  - inversion Hall as [|? ? Hyx Hl]; subst.
    constructor; [apply IH; assumption |].
    destruct l as [|z l]; simpl; constructor.
    + assumption.
    + inversion Hd; assumption.
Qed.

Lemma Sorted_map_snoc {A} (R : Z -> Z -> Prop) (f : A -> Z) l x :
  Sorted R (map f l) -> Forall (fun y => R (f y) (f x)) l ->
  Sorted R (map f (l ++ [x])).
Proof.
  intros Hs Hall. rewrite map_app. simpl. apply Sorted_snoc; [assumption |].
  rewrite Forall_map. exact Hall.
Qed.

(** The ensemble numbers written so far never exceed the running index,
    which never decreases. *)
Lemma index_loop_ens_sorted fuel fin N_ens : forall vs cur,
  0 <= cur ->
  Sorted Z.le (map ens (v_fout vs)) ->
  Forall (fun e => ens e <= v_N vs) (v_fout vs) ->
  Sorted Z.le (map ens (snd (index_loop fuel fin N_ens vs cur))).
Proof.
  induction fuel as [|fuel IH]; intros vs cur Hcur Hs Hb; simpl.
  - assumption.
  - destruct (v_N vs <? N_ens); [|assumption].
    pose proof (loop_body_spec fin vs cur Hcur) as P.
    destruct (loop_body fin vs cur) as [e | [[vs'|vs'|e' vs'] cur']];
      inversion P; subst; simpl; try assumption.
    + apply IH; assumption.
    + assert (Hge : v_N vs <= ens entry).
      { match goal with H : ens entry = _ |- _ => rewrite H end.
        destruct (_ && _); lia. }
      apply IH; simpl.
      * assumption.
      * apply Sorted_map_snoc; [assumption |].
        eapply Forall_impl; [exact Hb |]. simpl. intros; lia.
      * apply Forall_app; split.
        -- eapply Forall_impl; [exact Hb |]. simpl. intros; lia.
        -- repeat constructor. lia.
    + assert (Hge : v_N vs <= ens entry).
      { match goal with H : ens entry = _ |- _ => rewrite H end.
        destruct (_ && _); lia. }
      apply Sorted_map_snoc; [assumption |].
      eapply Forall_impl; [exact Hb |]. simpl. intros; lia.
Qed.

(** While every decoded header declares an extent [hdr_size + size] that
    is positive, the cursor moves forward and the offsets written grow. *)
Lemma index_loop_pos_sorted fuel fin N_ens : forall vs cur,
  0 <= cur ->
  Forall (fun size => 0 < hdr_size + size)
         (scanned_sizes fuel fin N_ens vs cur) ->
  Sorted Z.lt (map pos (v_fout vs)) ->
  Forall (fun e => pos e < cur) (v_fout vs) ->
  Sorted Z.lt (map pos (snd (index_loop fuel fin N_ens vs cur))).
Proof.
  unfold hdr_size.
  induction fuel as [|fuel IH]; intros vs cur Hcur Hsz Hs Hb; simpl in *.
  - assumption.
  - destruct (v_N vs <? N_ens); [|assumption].
    pose proof (loop_body_spec fin vs cur Hcur) as P.
    destruct (loop_body fin vs cur) as [e | [[vs'|vs'|e' vs'] cur']];
      inversion P; subst; simpl; try assumption;
      match goal with H : hdr_at fin _ = Some _ |- _ => rewrite H in Hsz end;
      inversion Hsz as [|? ? Hpos Hrest]; subst.
    + apply IH; try assumption; try lia.
      eapply Forall_impl; [exact Hb |]. simpl. intros; lia.
    + apply IH; simpl; try assumption.
      * apply Sorted_map_snoc; [assumption |].
        eapply Forall_impl; [exact Hb |]. simpl. intros; lia.
      * apply Forall_app; split.
        -- eapply Forall_impl; [exact Hb |]. simpl. intros; lia.
        -- repeat constructor. lia.
    + lia.
Qed.

(** C5, as the code has it: in whatever the build has written, at any
    point of the run, the ensemble numbers never decrease from one entry to
    the next; the byte offsets strictly increase provided every header the
    scan decodes declares a positive extent [hdr_size + size] (the size
    field is a signed 16 bit integer), which sends the cursor forward. *)
Theorem index_is_ordered fuel infile N_ens :
  Sorted Z.le (map ens (snd (create_index_slow fuel infile N_ens))) /\
  (Forall (fun size => 0 < hdr_size + size)
          (create_index_sizes fuel infile N_ens) ->
   Sorted Z.lt (map pos (snd (create_index_slow fuel infile N_ens)))).
Proof.
  unfold create_index_slow, create_index_sizes. split.
  - apply index_loop_ens_sorted; simpl; [lia | constructor | constructor].
  - intros Hsz.
    apply index_loop_pos_sorted; simpl;
      [lia | assumption | constructor | constructor].
Qed.

(** The stream of scenario B: sizes 30 and 76, offsets 0 and 40. *)
Lemma index_is_ordered_witness :
  create_index_sizes 3 stream_B (2 ^ 32) = [30; 76] /\
  Sorted Z.le (map ens (snd (create_index_slow 3 stream_B (2 ^ 32)))) /\
  Sorted Z.lt (map pos (snd (create_index_slow 3 stream_B (2 ^ 32)))).
Proof.
  split; [vm_compute; reflexivity |].
  split; [exact (proj1 (index_is_ordered 3 stream_B (2 ^ 32))) |].
  apply (proj2 (index_is_ordered 3 stream_B (2 ^ 32))).
  assert (E : create_index_sizes 3 stream_B (2 ^ 32) = [30; 76])
    by (vm_compute; reflexivity).
  rewrite E. unfold hdr_size. repeat constructor.
Defined.

(** C5 as stated fails: with the size field [-96] in the second record the
    cursor returns to offset 0, and the build (here with [N_ens = 2]) ends
    normally with the offsets 0, 86, 0. *)
Lemma offsets_can_step_back :
  create_index_sizes 4 stream_back 2 = [76; -96; 76] /\
  fst (create_index_slow 4 stream_back 2) = Finished /\
  map pos (snd (create_index_slow 4 stream_back 2)) = [0; 86; 0] /\
  ~ Sorted Z.lt (map pos (snd (create_index_slow 4 stream_back 2))).
Proof.
  assert (E : map pos (snd (create_index_slow 4 stream_back 2)) = [0; 86; 0])
    by (vm_compute; reflexivity).
  repeat split; try (vm_compute; reflexivity).
  rewrite E. intros Hs.
  inversion Hs as [|? ? Hs' _]; subst.
  inversion Hs' as [|? ? _ Hd]; subst.
  inversion Hd as [|? ? Hlt]; subst. lia.
Qed.

(** ** [index2ens_pos] keeps the first entry of each ensemble *)

Lemma mask_select_keep_changes index : forall prev,
  mask_select (map pos index)
    (map (fun d => negb (d =? 0))
         (zip_with (fun a b => (b - a) mod 2 ^ 64)
                   (prev :: map ens index) (map ens index)))
  = keep_changes prev index.
Proof.
  induction index as [|e rest IH]; intros prev.
  - reflexivity.
  - specialize (IH (ens e)). simpl in *. rewrite IH. reflexivity.
Qed.

Lemma index2ens_pos_cons e rest :
  index2ens_pos (e :: rest) = pos e :: keep_changes (ens e) rest.
Proof.
  rewrite <- mask_select_keep_changes. reflexivity.
Qed.

Lemma existsb_eqb_In x seen :
  existsb (Z.eqb x) seen = true <-> In x seen.
Proof.
  rewrite existsb_exists. split.
  - intros [y [Hy E]]. apply Z.eqb_eq in E. subst. assumption.
  - intros H. exists x. split; [assumption | apply Z.eqb_refl].
Qed.

Lemma keep_changes_first_occurrences index : forall prev seen,
  In prev seen ->
  (forall x, In x seen -> x <= prev) ->
  0 <= prev ->
  Forall fits_dtype index ->
  Sorted Z.le (prev :: map ens index) ->
  keep_changes prev index = first_occurrences seen index.
Proof.
  induction index as [|e rest IH]; intros prev seen Hin Hmax Hp Hfit Hs; simpl.
  - reflexivity.
  - inversion Hfit as [|? ? [[He0 He1] _] Hfit']; subst.
    apply Sorted_inv in Hs. destruct Hs as [Hs Hd].
    inversion Hd as [|? ? Hle]; subst.
    destruct (Z.eq_dec (ens e) prev) as [E | NE].
    + rewrite E, Z.sub_diag. simpl.
      destruct (existsb (Z.eqb prev) seen) eqn:Ex.
      * apply IH; auto. rewrite <- E. exact Hs.
      * apply existsb_eqb_In in Hin. congruence.
    + assert (Hm : (ens e - prev) mod 2 ^ 64 = ens e - prev)
        by (apply Z.mod_small; lia).
      rewrite Hm.
      destruct (Z.eqb_spec (ens e - prev) 0) as [Z0 | _]; [lia |]. simpl.
      destruct (existsb (Z.eqb (ens e)) seen) eqn:Ex.
      * apply existsb_eqb_In in Ex. apply Hmax in Ex. lia.
      * f_equal. apply IH; auto.
        -- left; reflexivity.
        -- intros x [<- | Hx]; [lia |]. apply Hmax in Hx. lia.
Qed.

Lemma index2ens_pos_first_occurrences index :
  Forall fits_dtype index ->
  Sorted Z.le (map ens index) ->
  index2ens_pos index = first_occurrences [] index.
Proof.
  intros Hfit Hs. destruct index as [|e rest]; [reflexivity |].
  rewrite index2ens_pos_cons. simpl. f_equal.
  inversion Hfit as [|? ? [[He0 He1] _] Hfit']; subst.
  apply keep_changes_first_occurrences; auto.
  - left; reflexivity.
  - intros x [<- | []]. lia.
Qed.

(** ** The two-record scenarios *)

Lemma index_loop_two_records fuel fin N_ens k0 k1 :
  two_velocity_records fin k0 k1 ->
  1 <= N_ens ->
  exists e0 e1,
    index_loop (S (S (S fuel))) fin N_ens (mk_vars 0 (-1) []) 0
      = (Finished, [e0; e1]) /\
    pos e0 = 0 /\ ens e0 = 0 /\ pos e1 = 40 /\
    ens e1 = (if (0 <? k0) && negb (k0 =? k1) then 1 else 0).
Proof.
  intros (dat0 & dat1 & H0 & Hid0 & Hsz0 & H1 & Hid1 & Hnn & Hend & Hk0 & Hk1)
         HN.
  unfold counter_at in Hk0, Hk1.
  destruct (field_at [fI] 4 fin (0 + 82)) as [c0|] eqn:E0; [|discriminate].
  destruct (field_at [fI] 4 fin (40 + 82)) as [c1|] eqn:E1; [|discriminate].
  injection Hk0 as Hk0. injection Hk1 as Hk1.
  pose proof (field_at_fits _ _ _ _ _ E1 eq_refl ltac:(lia)) as Hlen.
  change (Z.to_nat (40 + 82)) with 122%nat in Hlen.
  destruct (field_at_total [fH] 2 fin (0 + 12)) as [a0 A0];
    [reflexivity | simpl; lia |].
  destruct (field_at_total [fB; fB; fB; fB; fB; fB; fH] 8 fin (0 + 18))
    as [t0 T0]; [reflexivity | simpl; lia |].
  destruct (field_at_total [fH] 2 fin (0 + 40)) as [b0 B0];
    [reflexivity | simpl; lia |].
  destruct (field_at_total [fH] 2 fin (40 + 12)) as [a1 A1];
    [reflexivity | simpl; lia |].
  destruct (field_at_total [fB; fB; fB; fB; fB; fB; fH] 8 fin (40 + 18))
    as [t1 T1]; [reflexivity | simpl; lia |].
  destruct (field_at_total [fH] 2 fin (40 + 40)) as [b1 B1];
    [reflexivity | simpl; lia |].
  set (vs0 := mk_vars 0 (-1) []).
  set (e0 := written vs0 0 dat0 a0 t0 b0 c0).
  set (vs1 := mk_vars (ens e0) (item c0 0) (v_fout vs0 ++ [e0])).
  set (e1 := written vs1 40 dat1 a1 t1 b1 c1).
  set (vs2 := mk_vars (ens e1) (item c1 0) (v_fout vs1 ++ [e1])).
  exists e0, e1.
  assert (P0 : loop_body fin vs0 0 = inr (Next vs1, 40)).
  { rewrite loop_body_eq by lia. rewrite H0, Hid0, A0, T0, B0, E0, Hsz0.
    reflexivity. }
  assert (P1 : loop_body fin vs1 40
               = inr (Next vs2, 40 + 10 + item dat1 4)).
  { rewrite loop_body_eq by lia. rewrite H1, Hid1, A1, T1, B1, E1.
    simpl recognized. cbv iota.
    destruct (Z.ltb_spec (40 + 10 + item dat1 4) 0); [lia | reflexivity]. }
  assert (P2 : exists cur', loop_body fin vs2 (40 + 10 + item dat1 4)
                            = inr (Break vs2, cur')).
  { rewrite loop_body_eq by lia. rewrite Hend. eauto. }
  destruct P2 as [cur' P2].
  assert (En0 : ens e0 = 0) by reflexivity.
  assert (En1 : ens e1 = (if (0 <? k0) && negb (k0 =? k1) then 1 else 0)).
  { unfold e1, written. simpl. rewrite Hk0, Hk1. reflexivity. }
  split; [| repeat split; assumption].
  cbn [index_loop]. fold vs0.
  replace (v_N vs0 <? N_ens) with true
    by (symmetry; apply Z.ltb_lt; simpl; lia).
  rewrite P0.
  replace (v_N vs1 <? N_ens) with true
    by (symmetry; apply Z.ltb_lt; simpl; lia).
  rewrite P1.
  destruct (v_N vs2 <? N_ens); [rewrite P2 |]; reflexivity.
Qed.

Lemma index2ens_pos_pair e0 e1 :
  index2ens_pos [e0; e1] =
  if (ens e1 - ens e0) mod 2 ^ 64 =? 0 then [pos e0] else [pos e0; pos e1].
Proof.
  rewrite index2ens_pos_cons. simpl.
  destruct ((ens e1 - ens e0) mod 2 ^ 64 =? 0); reflexivity.
Qed.

(** C6: on an index whose ensemble numbers never decrease,
    [index2ens_pos] returns the offsets of the first entry of each distinct
    ensemble number, in order; and for every stream the indexer reads as
    two velocity records at offsets 0 and 40, counters 5, 5 give [[0]] and
    counters 5, 6 give [[0; 40]], as soon as the build may index at least
    one ensemble and runs for its three passes. *)
Theorem index2ens_pos_condenses :
  (forall index,
     Forall fits_dtype index ->
     Sorted Z.le (map ens index) ->
     index2ens_pos index = first_occurrences [] index) /\
  (forall fuel infile N_ens,
     two_velocity_records infile 5 5 -> 1 <= N_ens -> (3 <= fuel)%nat ->
     index2ens_pos (snd (create_index_slow fuel infile N_ens)) = [0]) /\
  (forall fuel infile N_ens,
     two_velocity_records infile 5 6 -> 1 <= N_ens -> (3 <= fuel)%nat ->
     index2ens_pos (snd (create_index_slow fuel infile N_ens)) = [0; 40]).
Proof.
  split; [exact index2ens_pos_first_occurrences |].
  split; intros fuel infile N_ens Hrec HN Hfuel;
    (destruct fuel as [|[|[|fuel]]]; [lia | lia | lia |]);
    destruct (index_loop_two_records fuel infile N_ens _ _ Hrec HN)
      as (e0 & e1 & Hrun & Hp0 & Hn0 & Hp1 & Hn1);
    unfold create_index_slow; rewrite Hrun; simpl snd;
    rewrite index2ens_pos_pair, Hp0, Hp1, Hn0, Hn1; reflexivity.
Qed.

(** Scenario A, scenario B, and an index of three entries in two
    ensembles. *)
Lemma index2ens_pos_condenses_witness :
  index2ens_pos (snd (create_index_slow 3 stream_A (2 ^ 32))) = [0] /\
  index2ens_pos (snd (create_index_slow 3 stream_B (2 ^ 32))) = [0; 40] /\
  index2ens_pos [mk_entry 0 0 21 7 4100 0 0 0 0 0 0 0 0;
                 mk_entry 0 86 24 7 4100 0 0 0 0 0 0 0 0;
                 mk_entry 1 172 21 7 4100 0 0 0 0 0 0 0 0]
  = first_occurrences [] [mk_entry 0 0 21 7 4100 0 0 0 0 0 0 0 0;
                          mk_entry 0 86 24 7 4100 0 0 0 0 0 0 0 0;
                          mk_entry 1 172 21 7 4100 0 0 0 0 0 0 0 0].
Proof.
  split; [| split].
  - apply (proj1 (proj2 index2ens_pos_condenses)); [| lia | lia].
    exists [165; 10; 21; 16; 30; 0; 0], [4; 16; 21; 16; 76; 0; 0].
    repeat split; try (vm_compute; reflexivity);
      vm_compute; intro; discriminate.
  - apply (proj2 (proj2 index2ens_pos_condenses)); [| lia | lia].
    exists [165; 10; 21; 16; 30; 0; 0], [4; 16; 21; 16; 76; 0; 0].
    repeat split; try (vm_compute; reflexivity);
      vm_compute; intro; discriminate.
  - apply (proj1 index2ens_pos_condenses).
    + repeat constructor; simpl; lia.
    + simpl. repeat constructor; lia.
Defined.

(** ** [calc_config] and the uniformity of the configuration *)

Lemma getbit_testbit v n : 0 <= n -> getbit v n = Z.testbit v n.
Proof.
  intros Hn. unfold getbit.
  change 1 with (Z.ones 1). rewrite Z.land_ones by lia.
  rewrite <- (Z.add_0_l n) at 2. rewrite <- Z.shiftr_spec by lia.
  rewrite Z.bit0_odd. change (2 ^ 1) with 2.
  rewrite Zmod_odd. destruct (Z.odd (Z.shiftr v n)); reflexivity.
Qed.

Lemma recognized_not_echo id : recognized id = true -> (id =? 28) = false.
Proof.
  unfold recognized. intros Hr.
  destruct (Z.eqb_spec id 28); [subst; discriminate | reflexivity].
Qed.

(** The dict the code builds is the configuration as the spec words it. *)
Lemma dict_shape (p0 p1 p2 p3 p5 p6 p7 p8 p9 p10 p11 p12 p13 p14 : pyval)
    (ncells cy nbeams cc bb : pyval) :
  delete "cy"
    (<["_beams_cy" := bb]>
       (<["_config" := cc]>
          (list_to_map [("ncells", ncells); ("cy", cy); ("nbeams", nbeams)]%string
           ∪ list_to_map
               [ ("press_valid", p0); ("temp_valid", p1);
                 ("compass_valid", p2); ("tilt_valid", p3); ("vel", p5);
                 ("amp", p6); ("corr", p7); ("alt", p8); ("alt_raw", p9);
                 ("ast", p10); ("echo", p11); ("ahrs", p12); ("p_gd", p13);
                 ("std", p14) ]%string)))
  = (list_to_map
      [ ("press_valid", p0); ("temp_valid", p1); ("compass_valid", p2);
        ("tilt_valid", p3); ("vel", p5); ("amp", p6); ("corr", p7);
        ("alt", p8); ("alt_raw", p9); ("ast", p10); ("echo", p11);
        ("ahrs", p12); ("p_gd", p13); ("std", p14); ("ncells", ncells);
        ("nbeams", nbeams); ("_config", cc); ("_beams_cy", bb) ]%string
     : gmap string pyval).
Proof. vm_compute. reflexivity. Qed.

Lemma config_dict_decoded c b id :
  recognized id = true -> config_dict c b id = decoded_config c b.
Proof.
  intros Hr. unfold config_dict, beams_cy_int2dict.
  rewrite (recognized_not_echo id Hr).
  unfold headconfig_int2dict. rewrite dict_shape. unfold decoded_config.
  rewrite !getbit_testbit by lia.
  change (2 ^ 10 - 1) with (Z.ones 10). rewrite Z.land_ones by lia.
  rewrite Z.shiftr_div_pow2 by lia.
  reflexivity.
Qed.

Lemma cy_is_present c b id :
  recognized id = true ->
  exists v,
    (<["_beams_cy" := PInt b]>
       (<["_config" := PInt c]>
          (beams_cy_int2dict b id ∪ headconfig_int2dict c))) !! "cy" = Some v.
Proof.
  intros Hr. unfold beams_cy_int2dict. rewrite (recognized_not_echo id Hr).
  eexists. vm_compute. reflexivity.
Qed.

Lemma mask_select_filter {A} (f : index_entry -> A) p index :
  mask_select (map f index) (map p index) = map f (List.filter p index).
Proof.
  induction index as [|e rest IH]; simpl; [reflexivity |].
  rewrite IH. destruct (p e); reflexivity.
Qed.

Lemma entries_of_In id index e :
  In e (entries_of id index) <-> In e index /\ ID e = id.
Proof.
  unfold entries_of. rewrite filter_In, Z.eqb_eq. reflexivity.
Qed.

Lemma isuniform_map {A} (f : A -> Z) l b :
  isuniform (map f l) = inr b ->
  exists x0 rest, l = x0 :: rest /\
    (b = true <-> forall x, In x l -> f x = f x0).
Proof.
  destruct l as [|x0 rest]; simpl; [discriminate |].
  intros H. injection H as <-. exists x0, rest. split; [reflexivity |].
  rewrite Z.eqb_refl. simpl. rewrite forallb_forall. split.
  - intros H x [<- | Hx]; [reflexivity |].
    apply Z.eqb_eq. apply H. apply in_map. exact Hx.
  - intros H y Hy. apply in_map_iff in Hy. destruct Hy as [x [<- Hx]].
    apply Z.eqb_eq. apply H. right. exact Hx.
Qed.

Lemma isuniform_nonempty {A} (f : A -> Z) l x :
  In x l -> exists b, isuniform (map f l) = inr b.
Proof. destruct l; [intros [] | simpl; eauto]. Qed.

(** One pass of [for id in ids] for a recognized id. *)
Lemma calc_config_loop_cons index id ids cfg :
  recognized id = true ->
  calc_config_loop index (id :: ids) cfg =
  match isuniform (map config (entries_of id index)) with
  | inl e => inl e
  | inr false => inl (Exception (config_msg id))
  | inr true =>
      match isuniform (map beams_cy (entries_of id index)) with
      | inl e => inl e
      | inr false => inl (Exception (beams_cy_msg id))
      | inr true =>
          calc_config_loop index ids
            (<[id := config_dict
                       (nth 0 (map config (entries_of id index)) 0)
                       (nth 0 (map beams_cy (entries_of id index)) 0) id]>
               cfg)
      end
  end.
Proof.
  intros Hr. simpl. rewrite Hr. simpl. rewrite !mask_select_filter.
  fold (entries_of id index).
  destruct (isuniform (map config (entries_of id index))) as [e | [|]];
    try reflexivity.
  destruct (isuniform (map beams_cy (entries_of id index))) as [e | [|]];
    try reflexivity.
  destruct (cy_is_present (nth 0 (map config (entries_of id index)) 0)
              (nth 0 (map beams_cy (entries_of id index)) 0) id Hr)
    as [v Hv].
  rewrite Hv. reflexivity.
Qed.

Lemma calc_config_loop_skip index id ids cfg :
  recognized id = false ->
  calc_config_loop index (id :: ids) cfg = calc_config_loop index ids cfg.
Proof. intros Hr. simpl. rewrite Hr. reflexivity. Qed.

Lemma insert_unique_In x y l : In y (insert_unique x l) <-> y = x \/ In y l.
Proof.
  induction l as [|z l IH]; simpl.
  - intuition.
  - destruct (Z.ltb_spec x z); [simpl; intuition |].
    destruct (Z.eqb_spec x z); [subst; simpl; intuition |].
    simpl. rewrite IH. intuition.
Qed.

Lemma np_unique_In y v : In y (np_unique v) <-> In y v.
Proof.
  induction v as [|x v IH]; simpl; [reflexivity |].
  rewrite insert_unique_In, IH. intuition.
Qed.

(** Uniformity of the entries of [id], read off the two tests of the
    loop. *)
Lemma uniform_for_tests id index :
  isuniform (map config (entries_of id index)) = inr true ->
  isuniform (map beams_cy (entries_of id index)) = inr true ->
  uniform_for id index.
Proof.
  intros Hc Hb e1 e2 H1 H2 E1 E2.
  apply isuniform_map in Hc. destruct Hc as (x0 & rest & _ & Hc).
  apply isuniform_map in Hb. destruct Hb as (y0 & rest' & _ & Hb).
  assert (I1 : In e1 (entries_of id index)) by (apply entries_of_In; auto).
  assert (I2 : In e2 (entries_of id index)) by (apply entries_of_In; auto).
  split.
  - rewrite (proj1 Hc eq_refl e1 I1), (proj1 Hc eq_refl e2 I2). reflexivity.
  - rewrite (proj1 Hb eq_refl e1 I1), (proj1 Hb eq_refl e2 I2). reflexivity.
Qed.

Lemma not_uniform_for_config id index :
  isuniform (map config (entries_of id index)) = inr false ->
  ~ uniform_for id index.
Proof.
  intros Hc Hu. apply isuniform_map in Hc.
  destruct Hc as (x0 & rest & El & Hc).
  assert (false = true); [| discriminate].
  apply Hc. intros x Hx.
  assert (I0 : In x0 (entries_of id index)) by (rewrite El; left; reflexivity).
  apply entries_of_In in Hx. apply entries_of_In in I0.
  apply (Hu x x0); tauto.
Qed.

Lemma not_uniform_for_beams_cy id index :
  isuniform (map beams_cy (entries_of id index)) = inr false ->
  ~ uniform_for id index.
Proof.
  intros Hc Hu. apply isuniform_map in Hc.
  destruct Hc as (x0 & rest & El & Hc).
  assert (false = true); [| discriminate].
  apply Hc. intros x Hx.
  assert (I0 : In x0 (entries_of id index)) by (rewrite El; left; reflexivity).
  apply entries_of_In in Hx. apply entries_of_In in I0.
  apply (Hu x x0); tauto.
Qed.

(** The loop raises at the first recognized id whose entries differ. *)
Lemma calc_config_loop_raises index : forall ids cfg,
  (forall id, In id ids -> exists e, In e index /\ ID e = id) ->
  (exists id, In id ids /\ recognized id = true /\ ~ uniform_for id index) ->
  exists id,
    In id ids /\ recognized id = true /\ ~ uniform_for id index /\
    (calc_config_loop index ids cfg = inl (Exception (config_msg id)) \/
     calc_config_loop index ids cfg = inl (Exception (beams_cy_msg id))).
Proof.
  induction ids as [|id ids IH]; intros cfg Hpres (bad & Hin & Hr & Hnu).
  - destruct Hin.
  - assert (Hpres' : forall i, In i ids -> exists e, In e index /\ ID e = i)
      by (intros i Hi; apply Hpres; right; exact Hi).
    assert (Hrest : forall cfg', bad <> id ->
      exists id0,
        In id0 (id :: ids) /\ recognized id0 = true /\
        ~ uniform_for id0 index /\
        (calc_config_loop index ids cfg' = inl (Exception (config_msg id0)) \/
         calc_config_loop index ids cfg'
           = inl (Exception (beams_cy_msg id0)))).
    { intros cfg' Hne.
      destruct (IH cfg' Hpres') as (id0 & H0 & H1 & H2 & H3).
      - exists bad. destruct Hin as [E | Hin]; [congruence | auto].
      - exists id0. repeat split; auto. right; exact H0. }
    destruct (recognized id) eqn:Hrid.
    + rewrite calc_config_loop_cons by assumption.
      destruct (Hpres id (or_introl eq_refl)) as (e & He & Hid).
      assert (Ie : In e (entries_of id index)) by (apply entries_of_In; auto).
      destruct (isuniform_nonempty config _ _ Ie) as [bc Hc].
      destruct (isuniform_nonempty beams_cy _ _ Ie) as [bb Hb].
      rewrite Hc. destruct bc.
      * rewrite Hb. destruct bb.
        -- apply Hrest. intros ->.
           apply Hnu. apply uniform_for_tests; assumption.
        -- exists id. repeat split; auto.
           ++ left; reflexivity.
           ++ apply not_uniform_for_beams_cy; assumption.
      * exists id. repeat split; auto.
        -- left; reflexivity.
        -- apply not_uniform_for_config; assumption.
    + rewrite calc_config_loop_skip by assumption.
      apply Hrest. intros ->. congruence.
Qed.

(** With uniform entries the loop completes, and stores for each
    recognized id the configuration decoded from its entries. *)
Lemma calc_config_loop_returns index : forall ids cfg,
  (forall id, In id ids -> exists e, In e index /\ ID e = id) ->
  (forall id, In id ids -> recognized id = true -> uniform_for id index) ->
  exists cfg',
    calc_config_loop index ids cfg = inr cfg' /\
    (forall e, In e index -> In (ID e) ids -> recognized (ID e) = true ->
       cfg' !! ID e = Some (decoded_config (config e) (beams_cy e))) /\
    (forall id, ~ (In id ids /\ recognized id = true) ->
       cfg' !! id = cfg !! id).
Proof.
  induction ids as [|id ids IH]; intros cfg Hpres Hu.
  - exists cfg. split; [reflexivity |]. split; [intros e _ [] | auto].
  - assert (Hpres' : forall i, In i ids -> exists e, In e index /\ ID e = i)
      by (intros i Hi; apply Hpres; right; exact Hi).
    assert (Hu' : forall i, In i ids -> recognized i = true ->
                            uniform_for i index)
      by (intros i Hi; apply Hu; right; exact Hi).
    destruct (recognized id) eqn:Hrid.
    + rewrite calc_config_loop_cons by assumption.
      destruct (Hpres id (or_introl eq_refl)) as (e0 & He0 & Hid0).
      assert (I0 : In e0 (entries_of id index)) by (apply entries_of_In; auto).
      pose proof (Hu id (or_introl eq_refl) Hrid) as Hun.
      destruct (isuniform_nonempty config _ _ I0) as [bc Hc].
      destruct (isuniform_nonempty beams_cy _ _ I0) as [bb Hb].
      rewrite Hc. destruct bc;
        [| exfalso; exact (not_uniform_for_config _ _ Hc Hun)].
      rewrite Hb. destruct bb;
        [| exfalso; exact (not_uniform_for_beams_cy _ _ Hb Hun)].
      destruct (entries_of id index) as [|x0 rest] eqn:El; [destruct I0 |].
      assert (Ix : In x0 index /\ ID x0 = id).
      { apply entries_of_In. rewrite El. left; reflexivity. }
      simpl nth.
      set (cfg1 := <[id := config_dict (config x0) (beams_cy x0) id]> cfg).
      destruct (IH cfg1 Hpres' Hu') as (cfg' & Hrun & Hin & Hout).
      exists cfg'. split; [exact Hrun |]. split.
      * intros e He Hide Hre.
        destruct (in_dec Z.eq_dec (ID e) ids) as [Hi | Hni].
        -- apply Hin; assumption.
        -- destruct Hide as [E | Hi]; [| contradiction].
           rewrite Hout by tauto. unfold cfg1. rewrite <- E.
           rewrite lookup_insert_eq.
           rewrite config_dict_decoded by (rewrite E; exact Hre).
           destruct (Hun e x0 He (proj1 Ix) (eq_sym E) (proj2 Ix)) as [-> ->].
           reflexivity.
      * intros i Hni. rewrite Hout by (intros [Hi Hri]; apply Hni; auto with datatypes).
        unfold cfg1. apply lookup_insert_ne.
        intros ->. apply Hni. split; [left; reflexivity | assumption].
    + rewrite calc_config_loop_skip by assumption.
      destruct (IH cfg Hpres' Hu') as (cfg' & Hrun & Hin & Hout).
      exists cfg'. split; [exact Hrun |]. split.
      * intros e He [E | Hi] Hre; [congruence | apply Hin; assumption].
      * intros i Hni. apply Hout. intros [Hi Hri]. apply Hni.
        split; [right; exact Hi | exact Hri].
Qed.

(** C4: when two entries of one recognized record id differ in their
    configuration bits or in their beams/coordinate-system bits,
    [calc_config] raises an exception whose message names, in hexadecimal,
    a recognized id whose entries are not uniform; when the entries of
    every recognized id are uniform it returns, for each recognized id
    present and for no other id, the configuration decoded from the
    common bits. *)
Theorem calc_config_uniformity (index : list index_entry) :
  (forall e1 e2,
     In e1 index -> In e2 index -> ID e1 = ID e2 ->
     recognized (ID e1) = true ->
     (config e1 <> config e2 \/ beams_cy e1 <> beams_cy e2) ->
     exists id,
       recognized id = true /\ ~ uniform_for id index /\
       (calc_config index = inl (Exception (config_msg id)) \/
        calc_config index = inl (Exception (beams_cy_msg id)))) /\
  ((forall id, recognized id = true -> uniform_for id index) ->
   exists cfg : gmap Z (gmap string pyval),
     calc_config index = inr cfg /\
     (forall e, In e index -> recognized (ID e) = true ->
        cfg !! ID e = Some (decoded_config (config e) (beams_cy e))) /\
     (forall id, is_Some (cfg !! id) ->
        recognized id = true /\ exists e, In e index /\ ID e = id)).
Proof.
  assert (Hpres : forall id, In id (np_unique (map ID index)) ->
                             exists e, In e index /\ ID e = id).
  { intros id Hid. apply np_unique_In, in_map_iff in Hid.
    destruct Hid as (e & E & He). eauto. }
  split.
  - intros e1 e2 H1 H2 Hid Hr Hdiff.
    destruct (calc_config_loop_raises index (np_unique (map ID index)) ∅ Hpres)
      as (id & _ & Hrid & Hnu & Hres).
    + exists (ID e1). split; [| split; [exact Hr |]].
      * apply np_unique_In, in_map. exact H1.
      * intros Hu. destruct (Hu e1 e2 H1 H2 eq_refl (eq_sym Hid)).
        destruct Hdiff; contradiction.
    + exists id. auto.
  - intros Hu.
    destruct (calc_config_loop_returns index (np_unique (map ID index)) ∅ Hpres)
      as (cfg & Hrun & Hin & Hout).
    + intros id _ Hr. apply Hu. exact Hr.
    + exists cfg. split; [exact Hrun |]. split.
      * intros e He Hr. apply Hin; auto.
        apply np_unique_In, in_map. exact He.
      * intros id [d Hd].
        destruct (recognized id) eqn:Hr.
        -- destruct (in_dec Z.eq_dec id (np_unique (map ID index))) as [Hi | Hni].
           ++ split; [reflexivity | apply Hpres; exact Hi].
           ++ rewrite Hout in Hd by tauto. rewrite lookup_empty in Hd.
              discriminate.
        -- rewrite Hout in Hd by (intros [_ ?]; congruence).
           rewrite lookup_empty in Hd. discriminate.
Qed.

(** An index whose two velocity entries differ in their configuration
    bits, and an index with one velocity and one altimeter entry. *)
Lemma calc_config_uniformity_witness :
  (exists id,
     recognized id = true /\
     ~ uniform_for id [mk_entry 0 0 21 7 4100 0 0 0 0 0 0 0 0;
                       mk_entry 0 86 21 8 4100 0 0 0 0 0 0 0 0] /\
     (calc_config [mk_entry 0 0 21 7 4100 0 0 0 0 0 0 0 0;
                   mk_entry 0 86 21 8 4100 0 0 0 0 0 0 0 0]
        = inl (Exception (config_msg id)) \/
      calc_config [mk_entry 0 0 21 7 4100 0 0 0 0 0 0 0 0;
                   mk_entry 0 86 21 8 4100 0 0 0 0 0 0 0 0]
        = inl (Exception (beams_cy_msg id)))) /\
  (exists cfg : gmap Z (gmap string pyval),
     calc_config [mk_entry 0 0 21 7 4100 0 0 0 0 0 0 0 0;
                  mk_entry 0 86 26 8 4100 0 0 0 0 0 0 0 0] = inr cfg /\
     (forall e,
        In e [mk_entry 0 0 21 7 4100 0 0 0 0 0 0 0 0;
              mk_entry 0 86 26 8 4100 0 0 0 0 0 0 0 0] ->
        recognized (ID e) = true ->
        cfg !! ID e = Some (decoded_config (config e) (beams_cy e))) /\
     (forall id, is_Some (cfg !! id) ->
        recognized id = true /\
        exists e,
          In e [mk_entry 0 0 21 7 4100 0 0 0 0 0 0 0 0;
                mk_entry 0 86 26 8 4100 0 0 0 0 0 0 0 0] /\ ID e = id)).
Proof.
  split.
  - apply (proj1 (calc_config_uniformity _)
             (mk_entry 0 0 21 7 4100 0 0 0 0 0 0 0 0)
             (mk_entry 0 86 21 8 4100 0 0 0 0 0 0 0 0)).
    + left; reflexivity.
    + right; left; reflexivity.
    + reflexivity.
    + reflexivity.
    + left. simpl. lia.
  - apply (proj2 (calc_config_uniformity _)).
    intros id _ e1 e2 [<- | [<- | []]] [<- | [<- | []]]; simpl;
      intros <- E; try discriminate E; split; reflexivity.
Defined.

(** The message of the exception for the velocity id, [0x15]. *)
Example calc_config_message :
  calc_config [mk_entry 0 0 21 7 4100 0 0 0 0 0 0 0 0;
               mk_entry 0 86 21 8 4100 0 0 0 0 0 0 0 0]
  = inl (Exception "config are not identical for id: 0x15.").
Proof. vm_compute. reflexivity. Qed.

(* ===================================================================== *)
(** * Part IV.  Properties of the rotations and of the motion correction  *)
(* ===================================================================== *)

Local Open Scope R_scope.

(** ** Running the operations on the data object *)

Lemma bind_run {A B} (m : rot A) (k : A -> rot B) st :
  (m ≫= k) st =
  match m st with
  | (inl e, st') => (inl e, st')
  | (inr a, st') => k a st'
  end.
Proof. reflexivity. Qed.

Lemma ret_run {A} (a : A) st : (mret a : rot A) st = (inr a, st).
Proof. reflexivity. Qed.

Lemma attr_run name d ws :
  attr name (d, ws) =
  match series d !! name with
  | Some a => (inr a, (d, ws))
  | None => (inl AttributeError, (d, ws))
  end.
Proof. unfold attr. rewrite bind_run. simpl. destruct (series d !! name); reflexivity. Qed.

Lemma attr3_run name d ws :
  attr3 name (d, ws) =
  match vectors d !! name with
  | Some a => (inr a, (d, ws))
  | None => (inl AttributeError, (d, ws))
  end.
Proof. unfold attr3. rewrite bind_run. simpl. destruct (vectors d !! name); reflexivity. Qed.

Lemma set_attr_run name a d ws :
  set_attr name a (d, ws)
  = (inr tt, (set_series (<[name := a]> (series d)) d, ws)).
Proof. reflexivity. Qed.

Lemma set_attr3_run name a d ws :
  set_attr3 name a (d, ws)
  = (inr tt, (set_vectors (<[name := a]> (vectors d)) d, ws)).
Proof. reflexivity. Qed.

Lemma prop_run k d ws :
  prop k (d, ws) =
  match props d !! k with
  | Some x => (inr x, (d, ws))
  | None => (inl KeyError, (d, ws))
  end.
Proof. unfold prop. rewrite bind_run. simpl. destruct (props d !! k); reflexivity. Qed.

Lemma prop_num_run k d ws :
  prop_num k (d, ws) =
  match props d !! k with
  | Some (VNum r) => (inr r, (d, ws))
  | Some _ => (inl TypeError, (d, ws))
  | None => (inl KeyError, (d, ws))
  end.
Proof.
  unfold prop_num. rewrite bind_run, prop_run.
  destruct (props d !! k) as [[]|]; reflexivity.
Qed.

Lemma prop_vec_run k d ws :
  prop_vec k (d, ws) =
  match props d !! k with
  | Some (VVec r) => (inr r, (d, ws))
  | Some _ => (inl TypeError, (d, ws))
  | None => (inl KeyError, (d, ws))
  end.
Proof.
  unfold prop_vec. rewrite bind_run, prop_run.
  destruct (props d !! k) as [[]|]; reflexivity.
Qed.

Lemma prop_mat_run k d ws :
  prop_mat k (d, ws) =
  match props d !! k with
  | Some (VMat r) => (inr r, (d, ws))
  | Some _ => (inl TypeError, (d, ws))
  | None => (inl KeyError, (d, ws))
  end.
Proof.
  unfold prop_mat. rewrite bind_run, prop_run.
  destruct (props d !! k) as [[]|]; reflexivity.
Qed.

Lemma set_prop_run k x d ws :
  set_prop k x (d, ws) = (inr tt, (set_props (<[k := x]> (props d)) d, ws)).
Proof. reflexivity. Qed.

Lemma has_key_run k d ws :
  has_key k (d, ws) = (inr (bool_decide (is_Some (props d !! k))), (d, ws)).
Proof. reflexivity. Qed.

Lemma prop_is_run k s d ws :
  prop_is k s (d, ws) =
  (inr match props d !! k with
       | Some (VStr s') => String.eqb s' s
       | _ => false
       end, (d, ws)).
Proof. reflexivity. Qed.

Lemma get_obj_run d ws : get_obj (d, ws) = (inr d, (d, ws)).
Proof. reflexivity. Qed.

Lemma warn_run msg d ws : warn msg (d, ws) = (inr tt, (d, ws ++ [msg])).
Proof. reflexivity. Qed.

Lemma lift_run {A} (r : exn + A) st : lift r st = (r, st).
Proof. reflexivity. Qed.

Lemma group_add_run g name d ws :
  group_add g name (d, ws) =
  match groups d !! g with
  | Some names =>
      (inr tt, (set_groups (<[g := {[name]} ∪ names]> (groups d)) d, ws))
  | None => (inl KeyError, (d, ws))
  end.
Proof.
  unfold group_add. rewrite bind_run, get_obj_run.
  destruct (groups d !! g); reflexivity.
Qed.

Lemma add_data_run name a g d ws :
  add_data name a g (d, ws) =
  (inr tt,
   (set_groups (<[g := {[name]} ∪ default ∅ (groups d !! g)]> (groups d))
      (set_series (<[name := a]> (series d)) d), ws)).
Proof. reflexivity. Qed.

(** ** [earth2principal] and [principal2earth], step by step *)

(** On arrays of one length [broadcast] is the elementwise operation. *)
Lemma broadcast_same {A B C} (f : A -> B -> C) a b :
  length a = length b -> broadcast f a b = inr (zip_with f a b).
Proof.
  intros H. unfold broadcast. rewrite H, Nat.eqb_refl. reflexivity.
Qed.

(** [broadcast] raises nothing but [ValueError], and only on arrays of
    different lengths none of which is 1. *)
Lemma broadcast_inl {A B C} (f : A -> B -> C) a b e :
  broadcast f a b = inl e ->
  e = ValueError /\ length a <> length b /\
  length a <> 1%nat /\ length b <> 1%nat.
Proof.
  unfold broadcast. destruct (Nat.eqb_spec (length a) (length b)) as [| Hne];
    [discriminate |].
  destruct a as [|x [|x' a]]; destruct b as [|y [|y' b]];
    try discriminate; intros H; injection H as <-;
    repeat split; simpl in *; congruence.
Qed.

Lemma U_rot_run angle d ws :
  U_rot angle (d, ws) =
  match series d !! "u", series d !! "v" with
  | Some u, Some v =>
      (broadcast (fun a b => (a * cos angle - b * sin angle,
                              a * sin angle + b * cos angle)) u v, (d, ws))
  | _, _ => (inl AttributeError, (d, ws))
  end.
Proof.
  unfold U_rot. rewrite bind_run, attr_run.
  destruct (series d !! "u"); [| reflexivity].
  rewrite bind_run, attr_run.
  destruct (series d !! "v"); reflexivity.
Qed.

Lemma principal2earth_run single d ws :
  principal2earth single (d, ws) =
  match series d !! "u", series d !! "v" with
  | Some u, Some v =>
      match broadcast (fun a b =>
                         (a * cos (principal_angle d)
                          - b * sin (principal_angle d),
                          a * sin (principal_angle d)
                          + b * cos (principal_angle d))) u v with
      | inr tmp => (inr tt, (store_rotated single tmp "earth" d, ws))
      | inl e => (inl e, (d, ws))
      end
  | _, _ => (inl AttributeError, (d, ws))
  end.
Proof.
  unfold principal2earth. rewrite bind_run, get_obj_run.
  rewrite bind_run, U_rot_run.
  destruct (series d !! "u"); [| reflexivity].
  destruct (series d !! "v"); [| reflexivity].
  destruct (broadcast _ _ _); reflexivity.
Qed.

Lemma earth2principal_run single d ws :
  earth2principal single (d, ws) =
  match props d !! "coord_sys" with
  | None => (inl KeyError, (d, ws))
  | Some cs =>
      if match cs with VStr s => String.eqb s "principal" | _ => false end
      then (inr tt, (d, ws))
      else
        match series d !! "u", series d !! "v" with
        | Some u, Some v =>
            match broadcast (fun a b =>
                               (a * cos (- principal_angle d)
                                - b * sin (- principal_angle d),
                                a * sin (- principal_angle d)
                                + b * cos (- principal_angle d))) u v with
            | inr tmp => (inr tt, (store_rotated single tmp "principal" d, ws))
            | inl e => (inl e, (d, ws))
            end
        | _, _ => (inl AttributeError, (d, ws))
        end
  end.
Proof.
  unfold earth2principal. rewrite bind_run, prop_run.
  destruct (props d !! "coord_sys") as [cs|]; [| reflexivity].
  destruct (match cs with VStr s => String.eqb s "principal" | _ => false end);
    [reflexivity |].
  rewrite bind_run, get_obj_run. rewrite bind_run, U_rot_run.
  destruct (series d !! "u"); [| reflexivity].
  destruct (series d !! "v"); [| reflexivity].
  destruct (broadcast _ _ _); reflexivity.
Qed.

(** The principal rotations on [u] and [v] of one length. *)
Lemma principal2earth_run_same single d ws u v :
  series d !! "u" = Some u -> series d !! "v" = Some v ->
  length u = length v ->
  principal2earth single (d, ws)
  = (inr tt,
     (store_rotated single (rotated (principal_angle d) u v) "earth" d, ws)).
Proof.
  intros Hu Hv Hl. rewrite principal2earth_run, Hu, Hv.
  rewrite broadcast_same by exact Hl. reflexivity.
Qed.

Lemma earth2principal_run_same single d ws cs u v :
  props d !! "coord_sys" = Some cs ->
  match cs with VStr s => String.eqb s "principal" | _ => false end = false ->
  series d !! "u" = Some u -> series d !! "v" = Some v ->
  length u = length v ->
  earth2principal single (d, ws)
  = (inr tt,
     (store_rotated single (rotated (- principal_angle d) u v)
                    "principal" d, ws)).
Proof.
  intros Hcs Hp Hu Hv Hl. rewrite earth2principal_run, Hcs, Hp, Hu, Hv.
  rewrite broadcast_same by exact Hl. reflexivity.
Qed.

(** ** What the principal rotations modify *)

Lemma same_but_uv_and_tag_refl d : same_but_uv_and_tag d d.
Proof. unfold same_but_uv_and_tag. repeat split; reflexivity. Qed.

Lemma store_rotated_frame single tmp tag d :
  same_but_uv_and_tag d (store_rotated single tmp tag d).
Proof.
  unfold same_but_uv_and_tag, store_rotated. simpl.
  repeat split; try reflexivity.
  - intros k Hu Hv.
    rewrite lookup_insert_ne by congruence.
    rewrite lookup_insert_ne by congruence. reflexivity.
  - intros k Hk. rewrite lookup_insert_ne by congruence. reflexivity.
Qed.

Lemma earth2principal_frame single d ws :
  same_but_uv_and_tag d (fst (snd (earth2principal single (d, ws)))) /\
  snd (snd (earth2principal single (d, ws))) = ws.
Proof.
  rewrite earth2principal_run.
  destruct (props d !! "coord_sys") as [cs|];
    [| split; [apply same_but_uv_and_tag_refl | reflexivity]].
  destruct (match cs with VStr s => String.eqb s "principal" | _ => false end);
    [split; [apply same_but_uv_and_tag_refl | reflexivity] |].
  destruct (series d !! "u");
    [| split; [apply same_but_uv_and_tag_refl | reflexivity]].
  destruct (series d !! "v");
    [| split; [apply same_but_uv_and_tag_refl | reflexivity]].
  destruct (broadcast _ _ _); simpl; split;
    auto using same_but_uv_and_tag_refl, store_rotated_frame.
Qed.

Lemma principal2earth_frame single d ws :
  same_but_uv_and_tag d (fst (snd (principal2earth single (d, ws)))) /\
  snd (snd (principal2earth single (d, ws))) = ws.
Proof.
  rewrite principal2earth_run.
  destruct (series d !! "u");
    [| split; [apply same_but_uv_and_tag_refl | reflexivity]].
  destruct (series d !! "v");
    [| split; [apply same_but_uv_and_tag_refl | reflexivity]].
  destruct (broadcast _ _ _); simpl; split;
    auto using same_but_uv_and_tag_refl, store_rotated_frame.
Qed.

(** C10: whatever the rounding to single precision, [earth2principal] and
    [principal2earth] change at most the series [u] and [v] and the
    [coord_sys] entry of [props]: the series [w], every other series, the
    [(3, N)] arrays, the orientation matrix, the remaining properties, the
    groups and the configuration are those of the input, and no warning is
    issued. *)
Theorem principal_rotations_modify_only_uv_and_tag
    (single : R -> R) (d : advo) (ws : list string) :
  (same_but_uv_and_tag d (fst (snd (earth2principal single (d, ws)))) /\
   series (fst (snd (earth2principal single (d, ws)))) !! "w"
     = series d !! "w" /\
   snd (snd (earth2principal single (d, ws))) = ws) /\
  (same_but_uv_and_tag d (fst (snd (principal2earth single (d, ws)))) /\
   series (fst (snd (principal2earth single (d, ws)))) !! "w"
     = series d !! "w" /\
   snd (snd (principal2earth single (d, ws))) = ws).
Proof.
  destruct (earth2principal_frame single d ws) as [He Hwe].
  destruct (principal2earth_frame single d ws) as [Hp Hwp].
  split.
  - split; [exact He |]. split; [| exact Hwe].
    apply (proj1 He); discriminate.
  - split; [exact Hp |]. split; [| exact Hwp].
    apply (proj1 Hp); discriminate.
Qed.

(** ** A rotation toward the frame the data already occupy *)

(** [earth2principal] returns at once on data tagged [principal]. *)
Lemma earth2principal_noop single d ws :
  props d !! "coord_sys" = Some (VStr "principal") ->
  earth2principal single (d, ws) = (inr tt, (d, ws)).
Proof. intros H. rewrite earth2principal_run, H. reflexivity. Qed.

(** C3, evaluated where it fails: [principal2earth] has no test of the
    tag.  On data already tagged [earth] (one sample, [u = 1], [v = 0],
    principal angle [PI]; rounding taken as the identity) it rotates
    again: [u] becomes [-1] while the tag stays [earth]. *)
Theorem principal2earth_rotates_earth_data :
  props d_earth !! "coord_sys" = Some (VStr "earth") /\
  series d_earth !! "u" = Some [1] /\
  series d_earth !! "v" = Some [0] /\
  fst (principal2earth (fun x => x) (d_earth, [])) = inr tt /\
  series (fst (snd (principal2earth (fun x => x) (d_earth, [])))) !! "u"
    = Some [-1] /\
  props (fst (snd (principal2earth (fun x => x) (d_earth, []))))
    !! "coord_sys" = Some (VStr "earth").
Proof.
  assert (Hu : series d_earth !! "u" = Some [1]) by reflexivity.
  assert (Hv : series d_earth !! "v" = Some [0]) by reflexivity.
  assert (E : principal2earth (fun x => x) (d_earth, []) =
              (inr tt, (store_rotated (fun x => x) (rotated PI [1] [0])
                                      "earth" d_earth, []))).
  { rewrite (principal2earth_run_same (fun x => x) d_earth [] [1] [0] Hu Hv
               eq_refl).
    reflexivity. }
  rewrite E. cbn [fst snd].
  split; [reflexivity |]. split; [exact Hu |]. split; [exact Hv |].
  split; [reflexivity |]. split.
  - unfold store_rotated. cbn [series set_series set_props].
    rewrite lookup_insert_ne by discriminate.
    rewrite lookup_insert_eq. unfold rotated. simpl.
    rewrite cos_PI, sin_PI. do 2 f_equal. lra.
  - unfold store_rotated. cbn [props set_series set_props].
    apply lookup_insert_eq.
Qed.

(** ** The round trip under the rounding to single precision *)

Lemma coord_sys_principal cs :
  match cs with VStr s => String.eqb s "principal" | _ => false end = true ->
  cs = VStr "principal".
Proof.
  destruct cs as [| s | | |]; try discriminate.
  intros H. apply String.eqb_eq in H. subst. reflexivity.
Qed.

Lemma store_rotated_tag single tmp tag d :
  props (store_rotated single tmp tag d) !! "coord_sys" = Some (VStr tag).
Proof.
  unfold store_rotated. cbn [props set_props set_series].
  apply lookup_insert_eq.
Qed.

Lemma store_rotated_uv single tmp tag d :
  series (store_rotated single tmp tag d) !! "u"
    = Some (map single (map fst tmp)) /\
  series (store_rotated single tmp tag d) !! "v"
    = Some (map single (map snd tmp)).
Proof.
  unfold store_rotated. cbn [series set_props set_series]. split.
  - rewrite lookup_insert_ne by discriminate. apply lookup_insert_eq.
  - apply lookup_insert_eq.
Qed.








(** ** [inst2earth] and the optional orientation inputs *)

Lemma inst2earth_parts single np_angle use_mean_rotation :
  inst2earth single np_angle use_mean_rotation =
  (roll ← attr "roll";
   pitch ← attr "pitch";
   heading ← attr "heading";
   let rr := fst (fst (first_angles np_angle use_mean_rotation
                                    roll pitch heading)) in
   let pp := snd (fst (first_angles np_angle use_mean_rotation
                                    roll pitch heading)) in
   let hh := snd (first_angles np_angle use_mean_rotation
                               roll pitch heading) in
   has ← has_key "declination";
   hh ← (if (has : bool) then
           x ← prop_num "declination";
           mret (nd_map (fun h => h + x * PI / 180) hh)
         else
           warn no_declination_msg;; mret hh);
   inst2earth_offset single rr pp hh).
Proof. reflexivity. Qed.

Lemma nd_map_add_zero hh : nd_map (fun h => h + 0 * PI / 180) hh = hh.
Proof.
  assert (E : forall h, h + 0 * PI / 180 = h) by (intros; lra).
  destruct hh as [x | l]; simpl.
  - rewrite E. reflexivity.
  - f_equal. induction l as [|a l IH]; simpl; [reflexivity |].
    rewrite E, IH. reflexivity.
Qed.

Section respects.

Variable k : string.
Variable x : R.

Lemma respects_ret {A} (a : A) : respects k x (mret a : rot A).
Proof. intros d ws ws0. repeat split. Qed.

Lemma respects_bind {A B} (m : rot A) (f : A -> rot B) :
  respects k x m -> (forall a, respects k x (f a)) -> respects k x (m ≫= f).
Proof.
  intros Hm Hf d ws ws0. rewrite !bind_run.
  destruct (Hm d ws ws0) as (H1 & H2 & H3 & H4).
  destruct (m (d, ws)) as [r [d1 ws1]].
  destruct (m (with_prop k x d, ws0)) as [r0 [d2 ws2]].
  simpl in *. subst.
  destruct r as [e | a]; [repeat split |].
  apply Hf.
Qed.

Lemma respects_attr name : respects k x (attr name).
Proof.
  intros d ws ws0. rewrite !attr_run. cbn [series with_prop set_props].
  destruct (series d !! name); repeat split.
Qed.

Lemma respects_add_data name a g : respects k x (add_data name a g).
Proof. intros d ws ws0. rewrite !add_data_run. repeat split. Qed.

Lemma respects_set_prop k' v :
  k' <> k -> respects k x (set_prop k' v).
Proof.
  intros Hne d ws ws0. rewrite !set_prop_run. cbn [fst snd].
  repeat split. unfold with_prop, set_props. simpl.
  rewrite insert_insert_ne by congruence. reflexivity.
Qed.

Lemma respects_has_key k' : k' <> k -> respects k x (has_key k').
Proof.
  intros Hne d ws ws0. rewrite !has_key_run. cbn [fst snd].
  assert (E : props (with_prop k x d) !! k' = props d !! k').
  { unfold with_prop. cbn [props set_props].
    apply lookup_insert_ne. congruence. }
  rewrite E. repeat split.
Qed.

Lemma respects_prop_num k' : k' <> k -> respects k x (prop_num k').
Proof.
  intros Hne d ws ws0. rewrite !prop_num_run.
  assert (E : props (with_prop k x d) !! k' = props d !! k').
  { unfold with_prop. cbn [props set_props].
    apply lookup_insert_ne. congruence. }
  rewrite E. destruct (props d !! k') as [[]|]; repeat split.
Qed.

Lemma respects_lift {A} (r : exn + A) : respects k x (lift r).
Proof. intros d ws ws0. rewrite !lift_run. repeat split. Qed.

(** After [d ← get_obj], a continuation that does not look at [props]. *)
Lemma respects_get_obj {B} (f : advo -> rot B) :
  (forall d, respects k x (f d)) ->
  (forall d, f (with_prop k x d) = f d) ->
  respects k x (get_obj ≫= f).
Proof.
  intros Hf Hsame d ws ws0. rewrite !bind_run, !get_obj_run.
  cbn beta iota. rewrite Hsame. apply Hf.
Qed.

Ltac respects_step :=
  cbv beta;
  lazymatch goal with
  | |- respects _ _ (attr _) => apply respects_attr
  | |- respects _ _ (add_data _ _ _) => apply respects_add_data
  | |- respects _ _ (set_prop _ _) => apply respects_set_prop; congruence
  | |- respects _ _ (mret _) => apply respects_ret
  | |- respects _ _ (lift _) => apply respects_lift
  | |- respects _ _ (_ ≫= _) => apply respects_bind; [| intros ?]
  end.

Lemma respects_apply single rr pp hh :
  k <> "coord_sys" -> respects k x (inst2earth_apply single rr pp hh).
Proof.
  intros Hk. unfold inst2earth_apply.
  apply respects_get_obj; [| reflexivity].
  intros d. cbv zeta.
  apply respects_bind.
  { destruct (_ && _); [| apply respects_ret]. repeat respects_step. }
  intros _. apply respects_get_obj; [| reflexivity].
  intros dm. cbv zeta. repeat respects_step.
Qed.

Lemma respects_offset single rr pp hh :
  k <> "coord_sys" -> k <> "heading_offset" ->
  respects k x (inst2earth_offset single rr pp hh).
Proof.
  intros Hk Hk'. unfold inst2earth_offset.
  apply respects_bind; [apply respects_has_key; congruence |].
  intros has. apply respects_bind.
  - destruct has; [| apply respects_ret].
    apply respects_bind; [apply respects_prop_num; congruence |].
    intros ?. apply respects_ret.
  - intros ?. apply respects_apply. exact Hk.
Qed.

End respects.

Lemma read_angles_run {B} (K : list R -> list R -> list R -> rot B) d ws :
  (roll ← attr "roll"; pitch ← attr "pitch"; heading ← attr "heading";
   K roll pitch heading) (d, ws) =
  match series d !! "roll", series d !! "pitch", series d !! "heading" with
  | Some roll, Some pitch, Some heading => K roll pitch heading (d, ws)
  | _, _, _ => (inl AttributeError, (d, ws))
  end.
Proof.
  rewrite bind_run, attr_run.
  destruct (series d !! "roll"); [| reflexivity].
  rewrite bind_run, attr_run.
  destruct (series d !! "pitch"); [| reflexivity].
  rewrite bind_run, attr_run.
  destruct (series d !! "heading"); reflexivity.
Qed.

Lemma declination_run {B} hh (K : nd -> rot B) d ws :
  (has ← has_key "declination";
   hh' ← (if (has : bool) then
            x ← prop_num "declination";
            mret (nd_map (fun h => h + x * PI / 180) hh)
          else
            warn no_declination_msg;; mret hh);
   K hh') (d, ws) =
  match props d !! "declination" with
  | None => K hh (d, ws ++ [no_declination_msg])
  | Some (VNum x) => K (nd_map (fun h => h + x * PI / 180) hh) (d, ws)
  | Some _ => (inl TypeError, (d, ws))
  end.
Proof.
  rewrite bind_run, has_key_run. cbn beta iota.
  rewrite bind_run.
  destruct (props d !! "declination") as [v|] eqn:E.
  - replace (bool_decide (is_Some (Some v))) with true by reflexivity.
    rewrite bind_run, prop_num_run, E. destruct v; reflexivity.
  - replace (bool_decide (is_Some (@None pval))) with false by reflexivity.
    rewrite bind_run, warn_run. reflexivity.
Qed.

Lemma heading_offset_run single rr pp hh d ws :
  inst2earth_offset single rr pp hh (d, ws) =
  match props d !! "heading_offset" with
  | None => inst2earth_apply single rr pp hh (d, ws)
  | Some (VNum x) =>
      inst2earth_apply single rr pp
        (nd_map (fun h => h + x * PI / 180) hh) (d, ws)
  | Some _ => (inl TypeError, (d, ws))
  end.
Proof.
  unfold inst2earth_offset.
  rewrite bind_run, has_key_run. cbn beta iota.
  rewrite bind_run.
  destruct (props d !! "heading_offset") as [v|] eqn:E.
  - replace (bool_decide (is_Some (Some v))) with true by reflexivity.
    rewrite bind_run, prop_num_run, E. destruct v; reflexivity.
  - replace (bool_decide (is_Some (@None pval))) with false by reflexivity.
    reflexivity.
Qed.

(** [inst2earth] in closed form up to the part that applies the
    rotation. *)
Lemma inst2earth_run single np_angle use_mean_rotation d ws :
  inst2earth single np_angle use_mean_rotation (d, ws) =
  match series d !! "roll", series d !! "pitch", series d !! "heading" with
  | Some roll, Some pitch, Some heading =>
      let rr := fst (fst (first_angles np_angle use_mean_rotation
                                       roll pitch heading)) in
      let pp := snd (fst (first_angles np_angle use_mean_rotation
                                       roll pitch heading)) in
      let hh := snd (first_angles np_angle use_mean_rotation
                                  roll pitch heading) in
      match props d !! "declination" with
      | None =>
          inst2earth_offset single rr pp hh (d, ws ++ [no_declination_msg])
      | Some (VNum x) =>
          inst2earth_offset single rr pp
            (nd_map (fun h => h + x * PI / 180) hh) (d, ws)
      | Some _ => (inl TypeError, (d, ws))
      end
  | _, _, _ => (inl AttributeError, (d, ws))
  end.
Proof.
  rewrite inst2earth_parts, read_angles_run.
  destruct (series d !! "roll"); [| reflexivity].
  destruct (series d !! "pitch"); [| reflexivity].
  destruct (series d !! "heading"); [| reflexivity].
  cbv zeta. apply declination_run.
Qed.

(** No warning is issued once the declination is there. *)
Lemma inst2earth_quiet single np_angle use_mean_rotation d ws v :
  props d !! "declination" = Some v ->
  snd (snd (inst2earth single np_angle use_mean_rotation (d, ws))) = ws.
Proof.
  intros Hd. rewrite inst2earth_run, Hd.
  destruct (series d !! "roll"); [| reflexivity].
  destruct (series d !! "pitch"); [| reflexivity].
  destruct (series d !! "heading"); [| reflexivity].
  cbv zeta. destruct v; try reflexivity.
  rewrite heading_offset_run.
  destruct (props d !! "heading_offset") as [[]|]; try reflexivity.
  - match goal with
    | |- snd (snd (inst2earth_apply _ ?rr ?pp ?hh _)) = _ =>
        destruct (respects_apply "heading_offset" 0 single rr pp hh
                    ltac:(discriminate) d ws ws) as (_ & _ & H3 & _)
    end.
    exact H3.
  - match goal with
    | |- snd (snd (inst2earth_apply _ ?rr ?pp ?hh _)) = _ =>
        destruct (respects_apply "heading_offset" 0 single rr pp hh
                    ltac:(discriminate) d ws ws) as (_ & _ & H3 & _)
    end.
    exact H3.
Qed.

(** X28: What the code does with the optional inputs.  Without a
    declination, [inst2earth] ends as it does with a declination of 0 and
    leaves the same data object (but for the [declination] entry itself),
    and it issues its warning once the three angles have been read;
    without a heading offset it ends as it does with a heading offset of
    0, leaves the same data object (but for the [heading_offset] entry)
    and the same warnings: none is issued for the missing offset.  In
    neither case does the absence change whether the operation fails. *)
Theorem inst2earth_missing_inputs
    (single : R -> R) (np_angle : R -> R -> R) (use_mean_rotation : bool)
    (d : advo) (ws : list string) :
  (props d !! "declination" = None ->
   fst (inst2earth single np_angle use_mean_rotation
          (with_prop "declination" 0 d, ws))
     = fst (inst2earth single np_angle use_mean_rotation (d, ws)) /\
   fst (snd (inst2earth single np_angle use_mean_rotation
               (with_prop "declination" 0 d, ws)))
     = with_prop "declination" 0
         (fst (snd (inst2earth single np_angle use_mean_rotation (d, ws)))) /\
   snd (snd (inst2earth single np_angle use_mean_rotation
               (with_prop "declination" 0 d, ws))) = ws /\
   (is_Some (series d !! "roll") -> is_Some (series d !! "pitch") ->
    is_Some (series d !! "heading") ->
    snd (snd (inst2earth single np_angle use_mean_rotation (d, ws)))
      = ws ++ [no_declination_msg])) /\
  (props d !! "heading_offset" = None ->
   fst (inst2earth single np_angle use_mean_rotation
          (with_prop "heading_offset" 0 d, ws))
     = fst (inst2earth single np_angle use_mean_rotation (d, ws)) /\
   fst (snd (inst2earth single np_angle use_mean_rotation
               (with_prop "heading_offset" 0 d, ws)))
     = with_prop "heading_offset" 0
         (fst (snd (inst2earth single np_angle use_mean_rotation (d, ws)))) /\
   snd (snd (inst2earth single np_angle use_mean_rotation
               (with_prop "heading_offset" 0 d, ws)))
     = snd (snd (inst2earth single np_angle use_mean_rotation (d, ws)))).
Proof.
  split; intros Hnone; rewrite !inst2earth_run.
  - cbn [series with_prop set_props props].
    rewrite Hnone, lookup_insert_eq.
    destruct (series d !! "roll") as [roll|];
      [| repeat split; intros [? ?]; discriminate].
    destruct (series d !! "pitch") as [pitch|];
      [| repeat split; intros _ [? ?]; discriminate].
    destruct (series d !! "heading") as [heading|];
      [| repeat split; intros _ _ [? ?]; discriminate].
    cbv zeta. rewrite nd_map_add_zero.
    destruct (respects_offset "declination" 0 single
                (fst (fst (first_angles np_angle use_mean_rotation
                                        roll pitch heading)))
                (snd (fst (first_angles np_angle use_mean_rotation
                                        roll pitch heading)))
                (snd (first_angles np_angle use_mean_rotation
                                   roll pitch heading))
                ltac:(discriminate) ltac:(discriminate)
                d (ws ++ [no_declination_msg]) ws)
      as (H1 & H2 & H3 & H4).
    split; [exact H1 |]. split; [exact H2 |]. split; [exact H4 |].
    intros _ _ _. exact H3.
  - cbn [series with_prop set_props props].
    rewrite (lookup_insert_ne (props d) "heading_offset" "declination")
      by discriminate.
    destruct (series d !! "roll") as [roll|]; [| repeat split].
    destruct (series d !! "pitch") as [pitch|]; [| repeat split].
    destruct (series d !! "heading") as [heading|]; [| repeat split].
    cbv zeta.
    assert (Hstep : forall rr pp hh ws1,
      fst (inst2earth_offset single rr pp hh
             (with_prop "heading_offset" 0 d, ws1))
        = fst (inst2earth_offset single rr pp hh (d, ws1)) /\
      fst (snd (inst2earth_offset single rr pp hh
                  (with_prop "heading_offset" 0 d, ws1)))
        = with_prop "heading_offset" 0
            (fst (snd (inst2earth_offset single rr pp hh (d, ws1)))) /\
      snd (snd (inst2earth_offset single rr pp hh
                  (with_prop "heading_offset" 0 d, ws1)))
        = snd (snd (inst2earth_offset single rr pp hh (d, ws1)))).
    { intros rr pp hh ws1. rewrite !heading_offset_run.
      assert (E : props (with_prop "heading_offset" 0 d) !! "heading_offset"
                  = Some (VNum 0)).
      { unfold with_prop. cbn [props set_props]. apply lookup_insert_eq. }
      rewrite !E, Hnone, nd_map_add_zero.
      destruct (respects_apply "heading_offset" 0 single rr pp hh
                  ltac:(discriminate) d ws1 ws1) as (H1 & H2 & H3 & H4).
      repeat split; [assumption | assumption | congruence]. }
    destruct (props d !! "declination") as [[]|]; try (repeat split);
      apply Hstep.
Qed.

(** On a data object with neither input, the rounding taken as the
    identity. *)
Lemma inst2earth_missing_inputs_witness :
  snd (snd (inst2earth (fun x => x) (fun _ _ => 0) false (d_no_inputs, [])))
    = [no_declination_msg] /\
  fst (inst2earth (fun x => x) (fun _ _ => 0) false
         (with_prop "heading_offset" 0 d_no_inputs, []))
    = fst (inst2earth (fun x => x) (fun _ _ => 0) false (d_no_inputs, [])).
Proof.
  split.
  - apply (proj1 (inst2earth_missing_inputs (fun x => x) (fun _ _ => 0) false
                    d_no_inputs [])).
    + reflexivity.
    + exists [0]. reflexivity.
    + exists [0]. reflexivity.
    + exists [0]. reflexivity.
  - apply (proj2 (inst2earth_missing_inputs (fun x => x) (fun _ _ => 0) false
                    d_no_inputs [])).
    reflexivity.
Defined.

(** C9, evaluated where it fails: a data object with a declination and no
    heading offset.  The test of [declination] has an [else] branch that
    warns; the test of [heading_offset] beside it has none, so that
    [inst2earth] ends normally and issues no warning for the missing
    offset. *)
Lemma missing_heading_offset_is_silent :
  props d_no_offset !! "heading_offset" = None /\
  fst (inst2earth (fun x => x) (fun _ _ => 0) false (d_no_offset, []))
    = inr tt /\
  snd (snd (inst2earth (fun x => x) (fun _ _ => 0) false (d_no_offset, [])))
    = [].
Proof.
  split; [reflexivity |]. split.
  - vm_compute. reflexivity.
  - apply (inst2earth_quiet _ _ _ _ _ (VNum 0)). reflexivity.
Qed.

(** ** Motion correction of an instrument at rest *)

(** *** Arrays of zeros *)








Lemma length_zeros n : length (zeros n) = n.
Proof. apply repeat_length. Qed.




Lemma length_aadd a b : length (aadd a b) = Nat.min (length a) (length b).
Proof.
  unfold aadd. revert b.
  induction a as [|x a IH]; intros [|y b]; simpl; try reflexivity.
  rewrite IH. reflexivity.
Qed.

Lemma length_ascale c a : length (ascale c a) = length a.
Proof. apply length_map. Qed.

Lemma dot_arrays_rows m n a :
  rows_of_length n a -> rows_of_length n (dot_arrays m a).
Proof.
  intros (H0 & H1 & H2). unfold rows_of_length, dot_arrays, tab3, asum3.
  simpl. rewrite !length_aadd, !length_ascale, H0, H1, H2.
  repeat split; lia.
Qed.

(** *** Inverting a run that ends normally *)

Lemma bind_inr {A B} (m : rot A) (k : A -> rot B) st b st2 :
  (m ≫= k) st = (inr b, st2) ->
  exists a st1, m st = (inr a, st1) /\ k a st1 = (inr b, st2).
Proof.
  rewrite bind_run. destruct (m st) as [[e | a] st1]; [discriminate |].
  eauto.
Qed.

(** *** The induced velocities of an instrument at rest *)




Lemma nth_repeat_zeros n a k :
  (k < a)%nat -> nth k (repeat (zeros n) a) [] = zeros n.
Proof.
  revert k. induction a as [|a IH]; intros [|k] H; simpl; try lia.
  - reflexivity.
  - apply IH. lia.
Qed.

Section at_rest.

Variable butter : nat -> R -> exn + (list R * list R).
Variable filtfilt : list R -> list R -> list R -> exn + list R.
Variable inv : v3 (v3 R) -> exn + v3 (v3 R).

(** The zero-phase filter is linear: when it returns on a signal that is
    identically zero, it returns that signal. *)
Hypothesis filtfilt_zero :
  forall b a n r, filtfilt b a (zeros n) = inr r -> r = zeros n.



(** *** The steps of [correct_motion.__call__] *)

Lemma attr3_inr name d ws a st :
  attr3 name (d, ws) = (inr a, st) ->
  vectors d !! name = Some a /\ st = (d, ws).
Proof.
  rewrite attr3_run. destruct (vectors d !! name); [| discriminate].
  intros E. injection E as <- <-. split; reflexivity.
Qed.

Lemma prop_mat_inr key d ws m st :
  prop_mat key (d, ws) = (inr m, st) ->
  props d !! key = Some (VMat m) /\ st = (d, ws).
Proof.
  rewrite prop_mat_run. destruct (props d !! key) as [[]|]; try discriminate.
  intros E. injection E as <- <-. split; reflexivity.
Qed.

Lemma prop_vec_inr key d ws v st :
  prop_vec key (d, ws) = (inr v, st) ->
  props d !! key = Some (VVec v) /\ st = (d, ws).
Proof.
  rewrite prop_vec_run. destruct (props d !! key) as [[]|]; try discriminate.
  intros E. injection E as <- <-. split; reflexivity.
Qed.


Lemma lift_inr {A} (r : exn + A) st v st' :
  lift r st = (inr v, st') -> r = inr v /\ st' = st.
Proof. unfold lift. intros E. injection E as -> ->. split; reflexivity. Qed.

Tactic Notation "inv_bind" hyp(H) "as" ident(a) ident(st) ident(H1) :=
  apply bind_inr in H; destruct H as (a & st & H1 & H).

Lemma _calcProbePos_inr self d ws pos st :
  _calcProbePos self (d, ws) = (inr pos, st) ->
  st = (d, ws) /\ rectangular pos.
Proof.
  unfold _calcProbePos. intros H.
  inv_bind H as nortek s1 E1. rewrite prop_is_run in E1.
  injection E1 as <- <-.
  inv_bind H as vector s2 E2. rewrite prop_is_run in E2.
  injection E2 as <- <-.
  destruct (_ && _ && _).
  - inv_bind H as m s3 E3. apply prop_mat_inr in E3. destruct E3 as [_ ->].
    inv_bind H as b s4 E4. apply prop_vec_inr in E4. destruct E4 as [_ ->].
    rewrite ret_run in H. injection H as <- <-.
    split; [reflexivity |]. exists 3%nat. split; [lia |].
    assert (Hd : rows_of_length 3
              (dot_cols (transpose m)
                 (V3 (map (fun t => 0.076 * cos t)
                        (map (fun t => t * PI / 180) [0; 120; 240]))
                     (map (fun t => 0.076 * sin t)
                        (map (fun t => t * PI / 180) [0; 120; 240]))
                     (map (fun _ => 0.076 * tan (- 30 * PI / 180) * 1)
                        (map (fun t => t * PI / 180) [0; 120; 240]))))).
    { apply dot_arrays_rows. repeat split. }
    destruct Hd as (H0 & H1 & H2).
    unfold rows_of_length, zip3. cbn [c0 c1 c2].
    rewrite !length_map. repeat split; assumption.
  - inv_bind H as b s3 E3. apply prop_vec_inr in E3. destruct E3 as [_ ->].
    rewrite ret_run in H. injection H as <- <-.
    split; [reflexivity | exact I].
Qed.









(** *** The run returns *)









End at_rest.



(* ===================================================================== *)
(** * Part V.  Further properties of the index builder                    *)
(* ===================================================================== *)

Local Open Scope Z_scope.

Lemma byte_val_range b : 0 <= byte_val b < 256.
Proof.
  unfold byte_val. pose proof (Byte.to_N_bounded b). lia.
Qed.

Lemma le_uint_range bs : 0 <= le_uint bs < 256 ^ Z.of_nat (length bs).
Proof.
  induction bs as [|b bs IH]; simpl le_uint; simpl length.
  - simpl. lia.
  - rewrite Nat2Z.inj_succ, Z.pow_succ_r by lia.
    pose proof (byte_val_range b). lia.
Qed.

Lemma byte_val_byte_of z : byte_val (byte_of z) = z mod 256.
Proof.
  unfold byte_of, byte_val.
  assert (H : 0 <= z mod 256 < 256) by (apply Z.mod_pos_bound; lia).
  destruct (Byte.of_N (Z.to_N (z mod 256))) as [b|] eqn:E.
  - apply Byte.to_of_N in E. rewrite E. lia.
  - apply Byte.of_N_None_iff in E. lia.
Qed.

Lemma le_bytes_S n z :
  le_bytes (S n) z = byte_of z :: le_bytes n (z / 256).
Proof.
  unfold le_bytes. simpl seq. simpl map. rewrite Z.div_1_r. f_equal.
  rewrite <- seq_shift, map_map. apply map_ext. intros i.
  f_equal. rewrite Nat2Z.inj_succ, Z.pow_succ_r by lia.
  rewrite Z.div_div by lia. reflexivity.
Qed.

Lemma length_le_bytes n z : length (le_bytes n z) = n.
Proof. unfold le_bytes. rewrite length_map, length_seq. reflexivity. Qed.

Lemma le_uint_le_bytes n : forall z,
  0 <= z < 256 ^ Z.of_nat n -> le_uint (le_bytes n z) = z.
Proof.
  induction n as [|n IH]; intros z Hz.
  - simpl in *. lia.
  - rewrite le_bytes_S. simpl le_uint. rewrite byte_val_byte_of.
    rewrite Nat2Z.inj_succ, Z.pow_succ_r in Hz by lia.
    rewrite IH.
    + pose proof (Z.div_mod z 256). lia.
    + split; [apply Z.div_pos; lia |].
      apply Z.div_lt_upper_bound; lia.
Qed.

Lemma pack_uint_Some n z :
  0 <= z < 256 ^ Z.of_nat n -> pack_uint n z = Some (le_bytes n z).
Proof.
  intros Hz. unfold pack_uint.
  destruct (Z.leb_spec 0 z); [| lia].
  destruct (Z.ltb_spec z (256 ^ Z.of_nat n)); [reflexivity | lia].
Qed.

Lemma struct_pack_take widths : forall vals tail,
  Forall2 (fun n z => 0 <= z < 256 ^ Z.of_nat n) widths vals ->
  exists bs,
    struct_pack widths vals = Some bs /\
    length bs = fold_right Nat.add 0%nat widths /\
    take_fields widths (bs ++ tail) = vals.
Proof.
  induction widths as [|n widths IH]; intros vals tail H.
  - inversion H; subst. exists []. repeat split.
  - inversion H as [|? z ? vals' Hz Hrest]; subst.
    destruct (IH vals' tail Hrest) as (bs & E & L & T).
    exists (le_bytes n z ++ bs). simpl struct_pack.
    rewrite pack_uint_Some by assumption. rewrite E.
    split; [reflexivity |]. split.
    + rewrite length_app, length_le_bytes, L. reflexivity.
    + simpl take_fields. rewrite <- app_assoc.
      rewrite firstn_app, length_le_bytes, Nat.sub_diag. simpl firstn.
      rewrite app_nil_r.
      rewrite firstn_all2 by (rewrite length_le_bytes; lia).
      rewrite le_uint_le_bytes by assumption.
      rewrite skipn_app, length_le_bytes, Nat.sub_diag. simpl skipn.
      rewrite skipn_all2 by (rewrite length_le_bytes; lia).
      rewrite ?skipn_O. simpl. rewrite T. reflexivity.
Qed.

Lemma entry_of_entry_values e : entry_of_values (entry_values e) = e.
Proof. destruct e. reflexivity. Qed.

Lemma pack_entry_unpack e :
  in_dtype_range e ->
  exists bs,
    pack_entry e = Some bs /\ length bs = itemsize /\ unpack_entry bs = e.
Proof.
  intros H. destruct (struct_pack_take _ _ [] H) as (bs & E & L & T).
  exists bs. split; [exact E |]. split; [exact L |].
  unfold unpack_entry. rewrite app_nil_r in T. rewrite T.
  apply entry_of_entry_values.
Qed.

Lemma fromfile_items_app bs e : forall n tail,
  length bs = itemsize ->
  unpack_entry bs = e ->
  fromfile_items (S n) (bs ++ tail) = e :: fromfile_items n tail.
Proof.
  intros n tail L U. simpl fromfile_items.
  rewrite firstn_app, L, Nat.sub_diag. simpl firstn. rewrite app_nil_r.
  rewrite firstn_all2 by lia. rewrite U.
  rewrite skipn_app, L, Nat.sub_diag. simpl skipn.
  rewrite skipn_all2 by lia. rewrite ?skipn_O. reflexivity.
Qed.

Lemma index_file_fromfile index :
  Forall in_dtype_range index ->
  exists bs,
    index_file index = Some bs /\
    length bs = (itemsize * length index)%nat /\
    np_fromfile bs = index.
Proof.
  induction 1 as [|e rest He Hrest IH].
  - exists []. repeat split.
  - destruct IH as (bs & E & L & F).
    destruct (pack_entry_unpack e He) as (b & Eb & Lb & Ub).
    exists (b ++ bs). simpl index_file. rewrite Eb, E.
    split; [reflexivity |].
    assert (Len : length (b ++ bs) = (itemsize * length (e :: rest))%nat).
    { rewrite length_app, Lb, L. simpl length. lia. }
    split; [exact Len |].
    unfold np_fromfile. rewrite Len.
    replace (itemsize * length (e :: rest) / itemsize)%nat
      with (S (length rest)).
    2: { rewrite Nat.mul_comm, Nat.div_mul by discriminate. reflexivity. }
    rewrite (fromfile_items_app b e) by assumption. f_equal.
    unfold np_fromfile in F. rewrite L in F.
    rewrite Nat.mul_comm, Nat.div_mul in F by discriminate. exact F.
Qed.

Lemma struct_unpack_range fmt : forall bs vs,
  struct_unpack fmt bs = Some vs -> Forall2 fmt_range fmt vs.
Proof.
  induction fmt as [|c fmt IH]; intros bs vs H; simpl in H.
  - destruct bs; [| discriminate]. injection H as <-. constructor.
  - destruct (Nat.ltb_spec (length bs) (fmt_size c)) as [| Hlen];
      [discriminate |].
    destruct (struct_unpack fmt (skipn (fmt_size c) bs)) as [vs'|] eqn:E;
      [| discriminate].
    injection H as <-. constructor; [| eapply IH; exact E].
    pose proof (le_uint_range (firstn (fmt_size c) bs)) as R.
    rewrite length_firstn, Nat.min_l in R by exact Hlen.
    destruct c; unfold fmt_decode, fmt_range; simpl fmt_size in R;
      try (change (256 ^ Z.of_nat 1) with (2 ^ 8) in R);
      try (change (256 ^ Z.of_nat 2) with (2 ^ 16) in R);
      try (change (256 ^ Z.of_nat 4) with (2 ^ 32) in R);
      try exact R.
    cbv zeta. change (2 ^ 16) with 65536 in R.
    change (2 ^ 15) with 32768. change (fmt_size fh) with 2%nat.
    destruct (Z.ltb_spec (le_uint (firstn 2 bs)) 32768); lia.
Qed.

Lemma hdr_at_fits fin cur dat :
  0 <= cur -> hdr_at fin cur = Some dat ->
  cur + 10 <= Z.of_nat (length fin).
Proof.
  intros Hcur H.
  pose proof (field_at_fits hdr 10 fin cur dat H eq_refl ltac:(lia)). lia.
Qed.

Lemma hdr_at_short fin cur :
  0 <= cur -> Z.of_nat (length fin) < cur + 10 -> hdr_at fin cur = None.
Proof.
  intros Hcur Hlen. destruct (hdr_at fin cur) as [dat|] eqn:E;
    [| reflexivity].
  apply hdr_at_fits in E; [lia | exact Hcur].
Qed.

(** An invariant of the loop variables that every indexed record keeps
    holds of the variables the run ends with. *)
Lemma index_loop_invariant (I : loop_vars -> Prop) fin N_ens :
  (forall vs cur dat c t b e,
     0 <= cur -> I vs -> v_N vs < N_ens ->
     hdr_at fin cur = Some dat -> recognized (item dat 2) = true ->
     field_at [fH] 2 fin (cur + 12) = Some c ->
     field_at [fB; fB; fB; fB; fB; fB; fH] 8 fin (cur + 18) = Some t ->
     field_at [fH] 2 fin (cur + 40) = Some b ->
     field_at [fI] 4 fin (cur + 82) = Some e ->
     I (mk_vars (ens (written vs cur dat c t b e)) (item e 0)
                (v_fout vs ++ [written vs cur dat c t b e]))) ->
  forall fuel vs cur, 0 <= cur -> I vs ->
    exists vs', I vs' /\ snd (index_loop fuel fin N_ens vs cur) = v_fout vs'.
Proof.
  intros Hstep. induction fuel as [|fuel IH]; intros vs cur Hcur HI; simpl.
  - exists vs. auto.
  - destruct (Z.ltb_spec (v_N vs) N_ens) as [HN |]; [| exists vs; auto].
    rewrite loop_body_eq by assumption.
    destruct (hdr_at fin cur) as [dat|] eqn:Eh; [| exists vs; auto].
    destruct (recognized (item dat 2)) eqn:Er.
    + destruct (field_at [fH] 2 fin (cur + 12)) as [c|] eqn:Ec;
        [| exists vs; auto].
      destruct (field_at _ 8 fin (cur + 18)) as [t|] eqn:Et;
        [| exists vs; auto].
      destruct (field_at [fH] 2 fin (cur + 40)) as [b|] eqn:Eb;
        [| exists vs; auto].
      destruct (field_at [fI] 4 fin (cur + 82)) as [e|] eqn:Ee;
        [| exists vs; auto].
      cbv zeta.
      destruct (Z.ltb_spec (cur + 10 + item dat 4) 0).
      * exists (mk_vars (ens (written vs cur dat c t b e)) (item e 0)
                        (v_fout vs ++ [written vs cur dat c t b e])).
        split; [eapply Hstep; eauto | reflexivity].
      * apply IH; [lia |].
        eapply Hstep; eauto.
    + destruct (Z.ltb_spec (cur + 10 + item dat 4) 0);
        [exists vs; auto |].
      apply IH; [lia | exact HI].
Qed.

Lemma unpack_one c bs t :
  struct_unpack [c] bs = Some t -> t = [item t 0].
Proof.
  simpl. destruct (_ <? _)%nat; [discriminate |].
  destruct (skipn (fmt_size c) bs); [| discriminate].
  intros H. injection H as <-. reflexivity.
Qed.

Lemma unpack_time bs t :
  struct_unpack [fB; fB; fB; fB; fB; fB; fH] bs = Some t ->
  t = [item t 0; item t 1; item t 2; item t 3; item t 4; item t 5; item t 6].
Proof.
  intros H. pose proof (struct_unpack_range _ _ _ H) as R.
  repeat (inversion R as [| ? ? ? ? _ R']; subst; clear R; rename R' into R).
  inversion R; subst. reflexivity.
Qed.

Lemma written_describes fin vs cur dat c t b e :
  0 <= cur ->
  hdr_at fin cur = Some dat -> recognized (item dat 2) = true ->
  field_at [fH] 2 fin (cur + 12) = Some c ->
  field_at [fB; fB; fB; fB; fB; fB; fH] 8 fin (cur + 18) = Some t ->
  field_at [fH] 2 fin (cur + 40) = Some b ->
  field_at [fI] 4 fin (cur + 82) = Some e ->
  describes_record fin (written vs cur dat c t b e).
Proof.
  intros Hcur Eh Er Ec Et Eb Ee. unfold describes_record, written.
  cbn [pos ID config beams_cy _blank year month day hour minute second
       usec100].
  split; [exact Hcur |]. split.
  { pose proof (field_at_fits _ _ _ _ _ Ee eq_refl ltac:(lia)). lia. }
  split; [exact Er |]. split; [exists dat; auto |].
  split; [rewrite Ec; f_equal; apply (unpack_one fH _ _ Ec) |].
  split; [rewrite Et; f_equal; apply (unpack_time _ _ Et) |].
  split; [rewrite Eb; f_equal; apply (unpack_one fH _ _ Eb) | reflexivity].
Qed.

Lemma index_loop_describes fuel fin N_ens vs cur :
  0 <= cur -> Forall (describes_record fin) (v_fout vs) ->
  Forall (describes_record fin) (snd (index_loop fuel fin N_ens vs cur)).
Proof.
  intros Hcur H.
  destruct (index_loop_invariant
              (fun vs => Forall (describes_record fin) (v_fout vs))
              fin N_ens) with (fuel := fuel) (vs := vs) (cur := cur)
    as (vs' & HI & ->); auto.
  intros vs0 cur0 dat c t b e Hc0 H0 _ Eh Er Ec Et Eb Ee. simpl.
  apply Forall_app. split; [exact H0 |].
  constructor; [| constructor]. eapply written_describes; eauto.
Qed.

Lemma written_ens vs cur dat c t b e :
  ens (written vs cur dat c t b e) = v_N vs \/
  ens (written vs cur dat c t b e) = v_N vs + 1.
Proof. unfold written. simpl. destruct (_ && _); auto. Qed.

Lemma index_loop_ens_bounds fuel fin N_ens vs cur :
  0 <= cur -> 0 <= v_N vs ->
  Forall (fun e => 0 <= ens e <= v_N vs /\ ens e <= N_ens) (v_fout vs) ->
  (forall l e, v_fout vs = l ++ [e] -> Forall (fun e' => ens e' < N_ens) l) ->
  Forall (fun e => 0 <= ens e <= N_ens)
         (snd (index_loop fuel fin N_ens vs cur)) /\
  (forall l e, snd (index_loop fuel fin N_ens vs cur) = l ++ [e] ->
     Forall (fun e' => ens e' < N_ens) l).
Proof.
  intros Hcur HN H Hl.
  destruct (index_loop_invariant
              (fun vs =>
                 0 <= v_N vs /\
                 Forall (fun e => 0 <= ens e <= v_N vs /\ ens e <= N_ens)
                        (v_fout vs) /\
                 (forall l e, v_fout vs = l ++ [e] ->
                    Forall (fun e' => ens e' < N_ens) l))
              fin N_ens) with (fuel := fuel) (vs := vs) (cur := cur)
    as (vs' & (HN' & H' & Hl') & ->); auto.
  - intros vs0 cur0 dat c t b e _ (H0 & H1 & H2) Hlt _ _ _ _ _ _.
    cbn [v_N v_fout].
    pose proof (written_ens vs0 cur0 dat c t b e) as He.
    split; [lia |]. split.
    + apply Forall_app. split.
      * eapply Forall_impl; [exact H1 |]. cbv beta. intros; lia.
      * constructor; [lia | constructor].
    + intros l e' E. apply app_inj_tail in E. destruct E as [<- _].
      eapply Forall_impl; [exact H1 |]. cbv beta. intros; lia.
  - split; [| exact Hl'].
    eapply Forall_impl; [exact H' |]. cbv beta. intros; lia.
Qed.

Lemma last_nonempty {A} (l : list A) : forall x d d',
  List.last (x :: l) d = List.last (x :: l) d'.
Proof.
  induction l as [|y l IH]; intros x d d'; [reflexivity |].
  change (List.last (y :: l) d = List.last (y :: l) d'). apply IH.
Qed.

Lemma steps_from_snoc l : forall prev x,
  steps_from prev l ->
  (x = List.last l prev \/ x = List.last l prev + 1) ->
  steps_from prev (l ++ [x]).
Proof.
  induction l as [|y l IH]; intros prev x Hs Hx; simpl in *.
  - auto.
  - destruct Hs as [Hy Hs]. split; [exact Hy |]. apply IH; [exact Hs |].
    destruct l as [|z l]; [exact Hx |].
    rewrite (last_nonempty l z y prev). exact Hx.
Qed.

Lemma index_loop_counts fuel fin N_ens vs cur :
  0 <= cur ->
  counts_from_zero (map ens (v_fout vs)) ->
  (v_fout vs = [] /\ v_N vs = 0 /\ v_last_ens vs <= 0 \/
   v_fout vs <> [] /\ List.last (map ens (v_fout vs)) 0 = v_N vs) ->
  counts_from_zero (map ens (snd (index_loop fuel fin N_ens vs cur))).
Proof.
  intros Hcur H Hl.
  destruct (index_loop_invariant
              (fun vs =>
                 counts_from_zero (map ens (v_fout vs)) /\
                 (v_fout vs = [] /\ v_N vs = 0 /\ v_last_ens vs <= 0 \/
                  v_fout vs <> [] /\ List.last (map ens (v_fout vs)) 0 = v_N vs))
              fin N_ens) with (fuel := fuel) (vs := vs) (cur := cur)
    as (vs' & (H' & _) & ->); auto.
  intros vs0 cur0 dat c t b e _ (H0 & H1) _ _ _ _ _ _ _.
  cbn [v_N v_fout v_last_ens]. split.
  - destruct H1 as [(E & EN & EL) | (NE & EL)].
    + rewrite E. simpl. split; [| exact I].
      destruct (Z.ltb_spec 0 (v_last_ens vs0)); simpl; [lia | exact EN].
    + destruct (v_fout vs0) as [|e0 rest] eqn:E; [congruence |].
      rewrite map_app. simpl in *. destruct H0 as [H00 Hs].
      split; [exact H00 |]. apply steps_from_snoc; [exact Hs |].
      assert (EL' : List.last (map ens rest) (ens e0) = v_N vs0).
      { rewrite <- EL. destruct (map ens rest) as [|x xs]; [reflexivity |].
        change (List.last (x :: xs) (ens e0) = List.last (x :: xs) 0).
        apply last_nonempty. }
      rewrite EL'.
      destruct (_ && _); auto.
  - right. split; [destruct (v_fout vs0); discriminate |].
    rewrite map_app. simpl. rewrite last_last. reflexivity.
Qed.

Lemma index_loop_ends fuel fin N_ens : forall vs cur,
  0 <= cur ->
  Forall (fun size => 0 < hdr_size + size)
         (scanned_sizes fuel fin N_ens vs cur) ->
  (Z.to_nat (Z.of_nat (length fin) - cur) < fuel)%nat ->
  fst (index_loop fuel fin N_ens vs cur) <> Running.
Proof.
  unfold hdr_size.
  induction fuel as [|fuel IH]; intros vs cur Hcur Hsz Hfuel; [lia |].
  simpl in *.
  destruct (v_N vs <? N_ens); [| discriminate].
  rewrite loop_body_eq in * by assumption.
  destruct (hdr_at fin cur) as [dat|] eqn:Eh; [| discriminate].
  pose proof (hdr_at_fits fin cur dat Hcur Eh) as Hfit.
  inversion Hsz as [|? ? Hpos Hrest]; subst. clear Hsz.
  destruct (recognized (item dat 2)).
  - destruct (field_at [fH] 2 fin (cur + 12)); [| discriminate].
    destruct (field_at _ 8 fin (cur + 18)); [| discriminate].
    destruct (field_at [fH] 2 fin (cur + 40)); [| discriminate].
    destruct (field_at [fI] 4 fin (cur + 82)); [| discriminate].
    destruct (Z.ltb_spec (cur + 10 + item dat 4) 0); [discriminate |].
    cbv zeta in *. apply IH; [lia | exact Hrest | lia].
  - destruct (Z.ltb_spec (cur + 10 + item dat 4) 0); [discriminate |].
    apply IH; [lia | exact Hrest | lia].
Qed.

Lemma index_loop_more fuel fin N_ens more : forall vs cur,
  fst (index_loop fuel fin N_ens vs cur) <> Running ->
  index_loop (fuel + more) fin N_ens vs cur
  = index_loop fuel fin N_ens vs cur.
Proof.
  induction fuel as [|fuel IH]; intros vs cur H; simpl in *.
  - contradiction.
  - destruct (v_N vs <? N_ens); [| reflexivity].
    destruct (loop_body fin vs cur) as [e | [[vs'|vs'|e' vs'] cur']];
      [reflexivity | apply IH; exact H | reflexivity | reflexivity].
Qed.

Lemma index_loop_extends fuel fin N_ens : forall vs cur,
  0 <= cur ->
  exists tail, snd (index_loop fuel fin N_ens vs cur) = v_fout vs ++ tail.
Proof.
  induction fuel as [|fuel IH]; intros vs cur Hcur; simpl.
  - exists []. rewrite app_nil_r. reflexivity.
  - destruct (v_N vs <? N_ens);
      [| exists []; rewrite app_nil_r; reflexivity].
    pose proof (loop_body_spec fin vs cur Hcur) as P.
    destruct (loop_body fin vs cur) as [e | [[vs'|vs'|e' vs'] cur']];
      inversion P; subst; simpl;
      try (exists []; rewrite app_nil_r; reflexivity).
    + apply IH. lia.
    + match goal with
      | |- context [index_loop fuel fin N_ens ?v ?c] =>
          destruct (IH v c ltac:(lia)) as [tail E]
      end.
      rewrite E. simpl. rewrite <- app_assoc. eauto.
    + eauto.
Qed.

Lemma index_loop_prefix fuel fin N1 N2 :
  N1 <= N2 ->
  forall vs cur, 0 <= cur ->
  exists tail,
    snd (index_loop fuel fin N2 vs cur)
    = snd (index_loop fuel fin N1 vs cur) ++ tail.
Proof.
  intros HN. induction fuel as [|fuel IH]; intros vs cur Hcur.
  - exists []. simpl. rewrite app_nil_r. reflexivity.
  - destruct (Z.ltb_spec (v_N vs) N1) as [H1 | H1].
    + simpl. destruct (Z.ltb_spec (v_N vs) N1); [| lia].
      destruct (Z.ltb_spec (v_N vs) N2); [| lia].
      pose proof (loop_body_spec fin vs cur Hcur) as P.
      destruct (loop_body fin vs cur) as [e | [[vs'|vs'|e' vs'] cur']];
        inversion P; subst; simpl;
        try (exists []; rewrite app_nil_r; reflexivity);
        apply IH; lia.
    + destruct (index_loop_extends (S fuel) fin N2 vs cur Hcur) as [tail E].
      exists tail. rewrite E. simpl.
      destruct (Z.ltb_spec (v_N vs) N1); [lia | reflexivity].
Qed.

Lemma index_loop_short fuel fin N_ens vs cur :
  0 <= cur -> Z.of_nat (length fin) < cur + 10 ->
  index_loop (S fuel) fin N_ens vs cur = (Finished, v_fout vs).
Proof.
  intros Hcur Hlen. simpl.
  destruct (v_N vs <? N_ens); [| reflexivity].
  rewrite loop_body_eq by assumption.
  rewrite hdr_at_short by assumption. reflexivity.
Qed.

Lemma keep_changes_nth rest : forall prev k e1,
  steps_from prev (map ens rest) -> prev < k ->
  find (fun e => ens e =? k) rest = Some e1 ->
  nth_error (keep_changes prev rest) (Z.to_nat (k - prev - 1))
  = Some (pos e1).
Proof.
  induction rest as [|e rest IH]; intros prev k e1 Hs Hk Hf; simpl in *.
  - discriminate.
  - destruct Hs as [[E | E] Hs].
    + rewrite E, Z.sub_diag. simpl.
      destruct (Z.eqb_spec (ens e) k); [lia |].
      rewrite <- E. apply IH; [exact Hs | lia | exact Hf].
    + replace (ens e - prev) with 1 by lia. simpl.
      destruct (Z.eqb_spec (ens e) k) as [Ek | NE].
      * injection Hf as <-. replace (k - prev - 1) with 0 by lia.
        reflexivity.
      * replace (Z.to_nat (k - prev - 1))
          with (S (Z.to_nat (k - ens e - 1))) by lia.
        simpl. apply IH; [exact Hs | lia | exact Hf].
Qed.

(** X1: Every entry of the index describes a record of the raw file: its
    offset is that of a header with a recognized id, the 86 bytes the
    indexer reads from there lie within the file, and the entry carries the
    id of that header, the [uint16] found 12 bytes in as configuration, the
    seven time fields found 18 bytes in, the [uint16] found 40 bytes in as
    beams/coordinate-system field, and 0 in the blank column. *)
Theorem index_entries_describe_records fuel infile N_ens :
  Forall (describes_record infile) (snd (create_index_slow fuel infile N_ens)).
Proof.
  unfold create_index_slow. apply index_loop_describes; simpl;
    [lia | constructor].
Qed.

(** X2: The ensemble numbers of the index start at 0 and grow by at most one
    from an entry to the next; none exceeds [N_ens], and only the last
    entry can reach it: the loop test [N < N_ens] is made before a record
    is read, the increment after. *)
Theorem ensemble_numbers_count_up fuel infile N_ens :
  counts_from_zero (map ens (snd (create_index_slow fuel infile N_ens))) /\
  Forall (fun e => 0 <= ens e <= N_ens)
         (snd (create_index_slow fuel infile N_ens)) /\
  Forall (fun e => ens e < N_ens)
         (removelast (snd (create_index_slow fuel infile N_ens))).
Proof.
  unfold create_index_slow.
  split; [apply index_loop_counts; simpl; [lia | exact I | left; repeat split; lia] |].
  destruct (index_loop_ens_bounds fuel infile N_ens (mk_vars 0 (-1) []) 0
              ltac:(lia) ltac:(simpl; lia) ltac:(constructor)
              ltac:(intros l e E; destruct l; discriminate))
    as [Hb Hl].
  split; [exact Hb |].
  destruct (snd (index_loop fuel infile N_ens (mk_vars 0 (-1) []) 0))
    as [|e0 rest] eqn:E; [constructor |].
  apply (Hl _ (List.last (e0 :: rest) e0)).
  apply app_removelast_last. discriminate.
Qed.

(** X3: [struct.pack('<QQ4H6BH', ...)] and [index_dtype] agree: an entry whose
    values lie in the ranges of the columns is packed into [itemsize]
    bytes from which [np.fromfile] reads the entry back. *)
Theorem pack_entry_round_trip e :
  in_dtype_range e ->
  exists bs,
    pack_entry e = Some bs /\ length bs = itemsize /\ np_fromfile bs = [e].
Proof.
  intros H. destruct (pack_entry_unpack e H) as (bs & E & L & U).
  exists bs. split; [exact E |]. split; [exact L |].
  unfold np_fromfile. rewrite L. change (itemsize / itemsize)%nat with 1%nat.
  simpl fromfile_items. rewrite firstn_all2 by lia. rewrite U. reflexivity.
Qed.

Lemma pack_entry_round_trip_witness :
  exists bs,
    pack_entry (mk_entry 3 86 21 7 4100 0 12 5 30 23 59 58 9999) = Some bs /\
    length bs = itemsize /\
    np_fromfile bs = [mk_entry 3 86 21 7 4100 0 12 5 30 23 59 58 9999].
Proof.
  apply (pack_entry_round_trip
           (mk_entry 3 86 21 7 4100 0 12 5 30 23 59 58 9999)).
  unfold in_dtype_range, index_widths, entry_values. simpl.
  repeat constructor; vm_compute; congruence.
Defined.

Lemma describes_in_range fin N_ens e :
  Z.of_nat (length fin) < 2 ^ 64 -> N_ens < 2 ^ 64 ->
  describes_record fin e -> 0 <= ens e <= N_ens ->
  in_dtype_range e.
Proof.
  intros Hlen HN (Hp0 & Hp1 & Hr & _ & Hc & Ht & Hb & Hz) He.
  apply struct_unpack_range in Hc, Ht, Hb.
  inversion Hc as [| ? ? ? ? Rc _]; subst.
  inversion Hb as [| ? ? ? ? Rb _]; subst.
  inversion Ht as [| ? ? ? ? R0 Ht1]; subst.
  inversion Ht1 as [| ? ? ? ? R1 Ht2]; subst.
  inversion Ht2 as [| ? ? ? ? R2 Ht3]; subst.
  inversion Ht3 as [| ? ? ? ? R3 Ht4]; subst.
  inversion Ht4 as [| ? ? ? ? R4 Ht5]; subst.
  inversion Ht5 as [| ? ? ? ? R5 Ht6]; subst.
  inversion Ht6 as [| ? ? ? ? R6 _]; subst.
  unfold fmt_range in *.
  assert (Hid : 0 <= ID e < 2 ^ 16).
  { unfold recognized in Hr.
    destruct (Z.eqb_spec (ID e) 21) as [-> |]; [lia |].
    destruct (Z.eqb_spec (ID e) 24) as [-> |]; [lia |].
    destruct (Z.eqb_spec (ID e) 26) as [-> |]; [lia | discriminate]. }
  unfold in_dtype_range, index_widths, entry_values.
  change (256 ^ Z.of_nat 8) with (2 ^ 64).
  change (256 ^ Z.of_nat 2) with (2 ^ 16).
  change (256 ^ Z.of_nat 1) with (2 ^ 8).
  rewrite Hz.
  repeat (constructor; [lia |]). constructor.
Qed.

Lemma create_index_file_fromfile fuel infile N_ens :
  Z.of_nat (length infile) < 2 ^ 64 -> N_ens < 2 ^ 64 ->
  exists bs,
    index_file (snd (create_index_slow fuel infile N_ens)) = Some bs /\
    length bs
    = (itemsize * length (snd (create_index_slow fuel infile N_ens)))%nat /\
    np_fromfile bs = snd (create_index_slow fuel infile N_ens).
Proof.
  intros Hlen HN. apply index_file_fromfile.
  unfold create_index_slow.
  pose proof (index_loop_describes fuel infile N_ens (mk_vars 0 (-1) []) 0
                ltac:(lia) ltac:(constructor)) as Hd.
  destruct (index_loop_ens_bounds fuel infile N_ens (mk_vars 0 (-1) []) 0
              ltac:(lia) ltac:(simpl; lia) ltac:(constructor)
              ltac:(intros l e E; destruct l; discriminate))
    as [Hb _].
  induction Hd as [|e rest He Hrest IH]; [constructor |].
  inversion Hb; subst.
  constructor; [eapply describes_in_range; eauto | apply IH; assumption].
Qed.

(** X4: What [create_index_slow] writes, [np.fromfile] reads back: for a raw
    file shorter than [2^64] bytes and a bound [N_ens] below [2^64], no
    [struct.pack] of the run raises, the index file holds [itemsize] bytes
    per entry written (the entry written before a failing last seek
    included), and reading it with [index_dtype] gives the entries
    written. *)
Theorem index_file_round_trip fuel infile N_ens :
  Z.of_nat (length infile) < 2 ^ 64 -> N_ens < 2 ^ 64 ->
  exists bs,
    index_file (snd (create_index_slow fuel infile N_ens)) = Some bs /\
    length bs
    = (itemsize * length (snd (create_index_slow fuel infile N_ens)))%nat /\
    np_fromfile bs = snd (create_index_slow fuel infile N_ens).
Proof. apply create_index_file_fromfile. Qed.

Lemma index_file_round_trip_witness :
  exists bs,
    index_file (snd (create_index_slow 3 stream_B (2 ^ 32))) = Some bs /\
    length bs
    = (itemsize * length (snd (create_index_slow 3 stream_B (2 ^ 32))))%nat /\
    np_fromfile bs = snd (create_index_slow 3 stream_B (2 ^ 32)).
Proof.
  apply (index_file_round_trip 3 stream_B (2 ^ 32)).
  - vm_compute. reflexivity.
  - vm_compute. reflexivity.
Defined.

(** X5: The build ends: when every header the scan decodes declares a positive
    extent [hdr_size + size], the cursor moves forward at each pass, and
    more passes than the file has bytes are never needed; the loop ends
    normally or by an exception, and the result is the same whatever
    further passes are allowed. *)
Theorem index_build_terminates fuel infile N_ens :
  (length infile < fuel)%nat ->
  Forall (fun size => 0 < hdr_size + size)
         (create_index_sizes fuel infile N_ens) ->
  (fst (create_index_slow fuel infile N_ens) = Finished \/
   exists e, fst (create_index_slow fuel infile N_ens) = Raised e) /\
  forall more,
    create_index_slow (fuel + more) infile N_ens
    = create_index_slow fuel infile N_ens.
Proof.
  intros Hfuel Hsz. unfold create_index_slow, create_index_sizes in *.
  assert (H : fst (index_loop fuel infile N_ens (mk_vars 0 (-1) []) 0)
              <> Running).
  { apply index_loop_ends; [lia | exact Hsz | lia]. }
  split.
  - destruct (fst (index_loop fuel infile N_ens (mk_vars 0 (-1) []) 0));
      [left; reflexivity | right; eauto | contradiction].
  - intros more. apply index_loop_more. exact H.
Qed.

Lemma index_build_terminates_witness :
  (fst (create_index_slow 87 stream_size0 (2 ^ 32)) = Finished \/
   exists e, fst (create_index_slow 87 stream_size0 (2 ^ 32)) = Raised e) /\
  forall more,
    create_index_slow (87 + more) stream_size0 (2 ^ 32)
    = create_index_slow 87 stream_size0 (2 ^ 32).
Proof.
  apply (index_build_terminates 87 stream_size0 (2 ^ 32)).
  - vm_compute. lia.
  - assert (E : create_index_sizes 87 stream_size0 (2 ^ 32)
                = [0; 0; 0; 0; 0; 0; 0; 0])
      by (vm_compute; reflexivity).
    rewrite E. unfold hdr_size. repeat constructor.
Defined.

(** X6: A smaller bound [N_ens] gives a prefix of the index a larger bound
    gives: the bound only decides where the scan stops. *)
Theorem smaller_bound_gives_prefix fuel infile N1 N2 :
  N1 <= N2 ->
  exists tail,
    snd (create_index_slow fuel infile N2)
    = snd (create_index_slow fuel infile N1) ++ tail.
Proof.
  intros HN. unfold create_index_slow.
  apply index_loop_prefix; [exact HN | lia].
Qed.

Lemma smaller_bound_gives_prefix_witness :
  exists tail,
    snd (create_index_slow 4 stream_back 2)
    = snd (create_index_slow 4 stream_back 1) ++ tail.
Proof.
  apply (smaller_bound_gives_prefix 4 stream_back 1 2). lia.
Defined.

(** X7: A raw file shorter than one header (the empty file included) gives the
    empty index, and so does a bound [N_ens] of 0 or less; no exception is
    raised: the [except] clause around the header's [unpack] ends the
    loop. *)
Theorem short_file_gives_empty_index fuel infile N_ens :
  (length infile < 10)%nat \/ N_ens <= 0 ->
  create_index_slow (S fuel) infile N_ens = (Finished, []).
Proof.
  intros [Hlen | HN]; unfold create_index_slow.
  - apply index_loop_short; lia.
  - simpl. destruct (Z.ltb_spec 0 N_ens); [lia | reflexivity].
Qed.

Lemma short_file_gives_empty_index_witness :
  create_index_slow 1 (blank 9) (2 ^ 32) = (Finished, []).
Proof.
  apply (short_file_gives_empty_index 0 (blank 9) (2 ^ 32)).
  left. simpl. lia.
Defined.

(** X8: A file that ends within the first 86 bytes of a record with a
    recognized id makes the build raise [struct.error]: only the
    [unpack] of the header stands in the [try], the [unpack] of the fields
    does not.  The entries written before stay written. *)
Theorem truncated_record_raises fuel fin N_ens vs cur dat :
  0 <= cur -> v_N vs < N_ens ->
  hdr_at fin cur = Some dat -> recognized (item dat 2) = true ->
  Z.of_nat (length fin) < cur + 86 ->
  index_loop (S fuel) fin N_ens vs cur = (Raised struct_error, v_fout vs).
Proof.
  intros Hcur HN Eh Er Hlen. simpl.
  destruct (Z.ltb_spec (v_N vs) N_ens); [| lia].
  rewrite loop_body_eq by assumption. rewrite Eh, Er.
  destruct (field_at [fI] 4 fin (cur + 82)) as [e|] eqn:Ee.
  - pose proof (field_at_fits _ _ _ _ _ Ee eq_refl ltac:(lia)). lia.
  - destruct (field_at [fH] 2 fin (cur + 12)); [| reflexivity].
    destruct (field_at _ 8 fin (cur + 18)); [| reflexivity].
    destruct (field_at [fH] 2 fin (cur + 40)); reflexivity.
Qed.

Lemma truncated_record_raises_witness :
  create_index_slow 1 stream_cut (2 ^ 32) = (Raised struct_error, []).
Proof.
  apply (truncated_record_raises 0 stream_cut (2 ^ 32) (mk_vars 0 (-1) []) 0
           [165; 10; 21; 16; 76; 0; 0]).
  - lia.
  - simpl. lia.
  - vm_compute. reflexivity.
  - reflexivity.
  - vm_compute. reflexivity.
Defined.

(** X29: [fout.write] comes before the last [seek] of a pass.  When the
    size field of a recognized record, all of whose fields can be read,
    sends that seek to a negative offset, the build raises [OSError] and
    the entry of the record has been written after the earlier ones. *)
Theorem failing_seek_keeps_entry fuel fin N_ens vs cur dat c t b e :
  0 <= cur -> v_N vs < N_ens ->
  hdr_at fin cur = Some dat -> recognized (item dat 2) = true ->
  field_at [fH] 2 fin (cur + 12) = Some c ->
  field_at [fB; fB; fB; fB; fB; fB; fH] 8 fin (cur + 18) = Some t ->
  field_at [fH] 2 fin (cur + 40) = Some b ->
  field_at [fI] 4 fin (cur + 82) = Some e ->
  cur + hdr_size + item dat 4 < 0 ->
  index_loop (S fuel) fin N_ens vs cur
  = (Raised OSError, v_fout vs ++ [written vs cur dat c t b e]).
Proof.
  intros Hcur HN Eh Er Ec Et Eb Ee Hneg. unfold hdr_size in Hneg. simpl.
  destruct (Z.ltb_spec (v_N vs) N_ens); [| lia].
  rewrite loop_body_eq by assumption. rewrite Eh, Er, Ec, Et, Eb, Ee.
  cbv zeta.
  destruct (Z.ltb_spec (cur + 10 + item dat 4) 0); [reflexivity | lia].
Qed.

Lemma failing_seek_keeps_entry_witness :
  create_index_slow 1 stream_seek_back (2 ^ 32)
  = (Raised OSError, [mk_entry 0 0 21 7 4100 0 0 0 0 0 0 0 0]).
Proof.
  apply (failing_seek_keeps_entry 0 stream_seek_back (2 ^ 32)
           (mk_vars 0 (-1) []) 0 [165; 10; 21; 16; -11; 0; 0]
           [7] [0; 0; 0; 0; 0; 0; 0] [4100] [1]).
  - lia.
  - simpl. lia.
  - vm_compute. reflexivity.
  - reflexivity.
  - vm_compute. reflexivity.
  - vm_compute. reflexivity.
  - vm_compute. reflexivity.
  - vm_compute. reflexivity.
  - vm_compute. reflexivity.
Defined.

(** X9: [index2ens_pos] on the index of [create_index_slow]: "the ens number is
    the array index".  The offset stored at array index [k] is the offset
    of the first entry whose ensemble number is [k]. *)
Theorem ensemble_number_is_array_index fuel infile N_ens k e1 :
  find (fun e => ens e =? k) (snd (create_index_slow fuel infile N_ens))
    = Some e1 ->
  nth_error (index2ens_pos (snd (create_index_slow fuel infile N_ens)))
            (Z.to_nat k)
    = Some (pos e1).
Proof.
  intros Hf.
  assert (Hc : counts_from_zero
                 (map ens (snd (create_index_slow fuel infile N_ens)))).
  { unfold create_index_slow.
    apply index_loop_counts; simpl; [lia | exact I | left; repeat split; lia]. }
  destruct (snd (create_index_slow fuel infile N_ens)) as [|e0 rest];
    [discriminate |].
  rewrite index2ens_pos_cons. simpl in Hc, Hf. destruct Hc as [E0 Hs].
  destruct (Z.eqb_spec (ens e0) k) as [Ek | NE].
  - injection Hf as <-. rewrite <- Ek, E0. reflexivity.
  - assert (Hk : ens e0 < k).
    { apply find_some in Hf. destruct Hf as [Hin Hk].
      apply Z.eqb_eq in Hk.
      assert (Hge : forall l p, steps_from p (map ens l) ->
                forall e, In e l -> p <= ens e).
      { clear. induction l as [|x l IH]; intros p Hs e []; simpl in Hs.
        - subst. lia.
        - destruct Hs as [Hx Hs]. specialize (IH _ Hs _ H). lia. }
      specialize (Hge rest (ens e0) Hs e1 Hin). lia. }
    replace (Z.to_nat k) with (S (Z.to_nat (k - ens e0 - 1))) by lia.
    simpl. apply keep_changes_nth; assumption.
Qed.

Lemma ensemble_number_is_array_index_witness :
  find (fun e => ens e =? 1) (snd (create_index_slow 3 stream_B (2 ^ 32)))
    = Some (mk_entry 1 40 21 7 4100 0 0 0 0 0 0 0 0) /\
  nth_error (index2ens_pos (snd (create_index_slow 3 stream_B (2 ^ 32))))
            (Z.to_nat 1)
    = Some 40.
Proof.
  assert (H : find (fun e => ens e =? 1)
                (snd (create_index_slow 3 stream_B (2 ^ 32)))
              = Some (mk_entry 1 40 21 7 4100 0 0 0 0 0 0 0 0))
    by (vm_compute; reflexivity).
  split; [exact H |].
  exact (ensemble_number_is_array_index 3 stream_B (2 ^ 32) 1 _ H).
Defined.

Lemma forallb_false {A} (f : A -> bool) l :
  forallb f l = false -> exists x, In x l /\ f x = false.
Proof.
  induction l as [|a l IH]; simpl; [discriminate |].
  destruct (f a) eqn:E; simpl.
  - intros H. destruct (IH H) as (x & Hx & Fx). eauto.
  - intros _. eauto.
Qed.

(** X10: [collapse]: the empty vector raises [IndexError]; a scalar comes back,
    with no warning, exactly when the vector is not empty and all its
    elements are that scalar; otherwise the vector comes back as it is,
    with one warning that names the variable ([**unkown**] when no name is
    given), and two of its elements differ. *)
Theorem collapse_result vec name :
  (vec = [] -> collapse vec name = inl IndexError) /\
  (forall x, collapse vec name = inr (inr x, [])
             <-> vec <> [] /\ Forall (eq x) vec) /\
  (forall v ws, collapse vec name = inr (inl v, ws) ->
     v = vec /\
     ws = [collapse_msg match name with
                        | None => "**unkown**"%string
                        | Some n => n
                        end] /\
     exists a b, In a vec /\ In b vec /\ a <> b).
Proof.
  destruct vec as [|v0 rest].
  - split; [reflexivity |]. split.
    + intros x. split; [discriminate | intros [H _]; contradiction].
    + discriminate.
  - unfold collapse, isuniform. simpl forallb. rewrite Z.eqb_refl.
    simpl andb. split; [discriminate |].
    destruct (forallb (fun x => x =? v0) rest) eqn:Eu.
    + split; [| discriminate]. intros x. simpl nth. split.
      * intros H. injection H as <-. split; [discriminate |].
        constructor; [reflexivity |].
        apply List.Forall_forall. intros y Hy.
        rewrite forallb_forall in Eu. symmetry. apply Z.eqb_eq, Eu, Hy.
      * intros [_ H]. inversion H; subst. reflexivity.
    + split.
      * intros x. split; [discriminate |]. intros [_ H].
        inversion H as [|? ? E0 Hrest]; subst.
        apply forallb_false in Eu. destruct Eu as (y & Hy & Fy).
        rewrite List.Forall_forall in Hrest. specialize (Hrest y Hy).
        apply Z.eqb_neq in Fy. congruence.
      * intros v ws H. injection H as <- <-.
        split; [reflexivity |]. split; [reflexivity |].
        apply forallb_false in Eu. destruct Eu as (y & Hy & Fy).
        apply Z.eqb_neq in Fy.
        exists y, v0. split; [right; exact Hy |].
        split; [left; reflexivity | exact Fy].
Qed.

Lemma collapse_result_witness : collapse [3; 3] None = inr (inr 3, []).
Proof.
  apply (proj2 (proj1 (proj2 (collapse_result [3; 3] None)) 3)).
  split; [discriminate | repeat constructor].
Defined.

Lemma insert_unique_sorted x l :
  StronglySorted Z.lt l -> StronglySorted Z.lt (insert_unique x l).
Proof.
  induction 1 as [|y r Hs IH Hall]; simpl.
  - repeat constructor.
  - destruct (Z.ltb_spec x y) as [Hlt | Hge].
    + constructor; [constructor; assumption |].
      constructor; [exact Hlt |].
      eapply List.Forall_impl; [| exact Hall]. simpl. intros; lia.
    + destruct (Z.eqb_spec x y) as [-> | Hne];
        [constructor; assumption |].
      constructor; [exact IH |].
      apply List.Forall_forall. intros z Hz.
      apply insert_unique_In in Hz. destruct Hz as [-> | Hz]; [lia |].
      rewrite List.Forall_forall in Hall. apply Hall, Hz.
Qed.

Lemma np_unique_sorted v : StronglySorted Z.lt (np_unique v).
Proof.
  induction v as [|x v IH]; simpl; [constructor |].
  apply insert_unique_sorted, IH.
Qed.

Lemma same_config_tests id index b :
  isuniform (map config (entries_of id index)) = inr b ->
  (b = true <-> same_config id index).
Proof.
  intros Hc. apply isuniform_map in Hc.
  destruct Hc as (x0 & rest & El & Hc). rewrite Hc.
  assert (I0 : In x0 (entries_of id index)) by (rewrite El; left; reflexivity).
  apply entries_of_In in I0. split.
  - intros H e1 e2 H1 H2 E1 E2.
    rewrite (H e1), (H e2); [reflexivity | |]; apply entries_of_In; auto.
  - intros H x Hx. apply entries_of_In in Hx. apply (H x x0); tauto.
Qed.

Lemma same_beams_cy_tests id index b :
  isuniform (map beams_cy (entries_of id index)) = inr b ->
  (b = true <-> same_beams_cy id index).
Proof.
  intros Hc. apply isuniform_map in Hc.
  destruct Hc as (x0 & rest & El & Hc). rewrite Hc.
  assert (I0 : In x0 (entries_of id index)) by (rewrite El; left; reflexivity).
  apply entries_of_In in I0. split.
  - intros H e1 e2 H1 H2 E1 E2.
    rewrite (H e1), (H e2); [reflexivity | |]; apply entries_of_In; auto.
  - intros H x Hx. apply entries_of_In in Hx. apply (H x x0); tauto.
Qed.

Lemma calc_config_loop_first index : forall ids cfg e,
  StronglySorted Z.lt ids ->
  (forall id, In id ids -> exists e, In e index /\ ID e = id) ->
  calc_config_loop index ids cfg = inl e ->
  exists id,
    In id ids /\ recognized id = true /\
    (e = Exception (config_msg id) /\ ~ same_config id index \/
     e = Exception (beams_cy_msg id) /\ same_config id index /\
       ~ same_beams_cy id index) /\
    forall id', In id' ids -> recognized id' = true -> id' < id ->
                uniform_for id' index.
Proof.
  induction ids as [|id ids IH]; intros cfg e Hs Hpres H.
  - discriminate.
  - inversion Hs as [|? ? Hs' Hall]; subst.
    rewrite List.Forall_forall in Hall.
    assert (Hpres' : forall i, In i ids -> exists e, In e index /\ ID e = i)
      by (intros i Hi; apply Hpres; right; exact Hi).
    destruct (recognized id) eqn:Hr.
    + rewrite calc_config_loop_cons in H by exact Hr.
      destruct (Hpres id (or_introl eq_refl)) as (e0 & He0 & Eid).
      assert (I0 : In e0 (entries_of id index))
        by (apply entries_of_In; auto).
      destruct (isuniform_nonempty config _ _ I0) as [bc Ec].
      destruct (isuniform_nonempty beams_cy _ _ I0) as [bb Eb].
      rewrite Ec in H.
      pose proof (same_config_tests id index bc Ec) as Tc.
      pose proof (same_beams_cy_tests id index bb Eb) as Tb.
      assert (Hfirst : forall id', In id' (id :: ids) ->
                recognized id' = true -> id' < id -> uniform_for id' index).
      { intros id' [<- | Hi] _ Hlt; [lia |]. apply Hall in Hi. lia. }
      destruct bc.
      * rewrite Eb in H. destruct bb.
        -- destruct (IH _ _ Hs' Hpres' H) as (i & Hi & Hri & Hwhich & Hbefore).
           exists i. split; [right; exact Hi |]. split; [exact Hri |].
           split; [exact Hwhich |].
           intros id' [<- | Hi'] Hr' Hlt;
             [apply uniform_for_tests; assumption | auto].
        -- injection H as <-. exists id.
           split; [left; reflexivity |]. split; [exact Hr |].
           split; [| exact Hfirst].
           right. split; [reflexivity |].
           split; [apply Tc; reflexivity |].
           intros Hb. apply Tb in Hb. discriminate.
      * injection H as <-. exists id.
        split; [left; reflexivity |]. split; [exact Hr |].
        split; [| exact Hfirst].
        left. split; [reflexivity |].
        intros Hc. apply Tc in Hc. discriminate.
    + rewrite calc_config_loop_skip in H by exact Hr.
      destruct (IH _ _ Hs' Hpres' H) as (i & Hi & Hri & Hwhich & Hbefore).
      exists i. split; [right; exact Hi |]. split; [exact Hri |].
      split; [exact Hwhich |].
      intros id' [<- | Hi'] Hr' Hlt; [congruence | auto].
Qed.

(** X11: When [calc_config] raises, the exception names the smallest recognized
    id whose entries are not uniform ([np.unique] hands the ids over in
    ascending order), and it is the exception for the configuration field
    when that field differs among the entries of the id, the exception for
    the beams/coordinate-system field only when the configuration field is
    the same and this one differs.  No other exception is raised. *)
Theorem calc_config_names_first_offender index e :
  calc_config index = inl e ->
  exists id,
    recognized id = true /\
    (e = Exception (config_msg id) /\ ~ same_config id index \/
     e = Exception (beams_cy_msg id) /\ same_config id index /\
       ~ same_beams_cy id index) /\
    forall id', recognized id' = true -> id' < id -> uniform_for id' index.
Proof.
  intros H. unfold calc_config in H.
  assert (Hpres : forall id, In id (np_unique (map ID index)) ->
                             exists x, In x index /\ ID x = id).
  { intros id Hid. apply np_unique_In, in_map_iff in Hid.
    destruct Hid as (x & E & Hx). eauto. }
  destruct (calc_config_loop_first index _ _ _ (np_unique_sorted _) Hpres H)
    as (id & Hin & Hr & Hwhich & Hbefore).
  exists id. split; [exact Hr |]. split; [exact Hwhich |].
  intros id' Hr' Hlt.
  destruct (in_dec Z.eq_dec id' (np_unique (map ID index))) as [Hi | Hni].
  - apply Hbefore; assumption.
  - intros e1 e2 H1 H2 E1 E2. exfalso. apply Hni.
    apply np_unique_In, in_map_iff. eauto.
Qed.

(** On [index_two_offenders] the exception names [0x15], the smaller id,
    and the beams field. *)
Lemma calc_config_names_first_offender_witness :
  exists id,
    recognized id = true /\
    (Exception (beams_cy_msg 21) = Exception (config_msg id) /\
       ~ same_config id index_two_offenders \/
     Exception (beams_cy_msg 21) = Exception (beams_cy_msg id) /\
       same_config id index_two_offenders /\
       ~ same_beams_cy id index_two_offenders) /\
    forall id', recognized id' = true -> id' < id ->
      uniform_for id' index_two_offenders.
Proof.
  apply (calc_config_names_first_offender index_two_offenders).
  vm_compute. reflexivity.
Defined.

Lemma flags_lookup (p0 p1 p2 p3 p5 p6 p7 p8 p9 p10 p11 p12 p13 p14 : pyval) :
  let d : gmap string pyval :=
    list_to_map
      [ ("press_valid", p0); ("temp_valid", p1); ("compass_valid", p2);
        ("tilt_valid", p3); ("vel", p5); ("amp", p6); ("corr", p7);
        ("alt", p8); ("alt_raw", p9); ("ast", p10); ("echo", p11);
        ("ahrs", p12); ("p_gd", p13); ("std", p14) ]%string in
  d !! "press_valid" = Some p0 /\ d !! "temp_valid" = Some p1 /\
  d !! "compass_valid" = Some p2 /\ d !! "tilt_valid" = Some p3 /\
  d !! "vel" = Some p5 /\ d !! "amp" = Some p6 /\ d !! "corr" = Some p7 /\
  d !! "alt" = Some p8 /\ d !! "alt_raw" = Some p9 /\ d !! "ast" = Some p10 /\
  d !! "echo" = Some p11 /\ d !! "ahrs" = Some p12 /\ d !! "p_gd" = Some p13 /\
  d !! "std" = Some p14.
Proof. cbv zeta. repeat split; reflexivity. Qed.

(** X12: [headconfig_int2dict] reads bits 0 to 3 and 5 to 14 and nothing else:
    two configuration fields decode to the same dict exactly when they
    agree on these bits.  Bit 4 and the bits from 15 up play no part. *)
Theorem headconfig_reads_used_bits v v' :
  headconfig_int2dict v = headconfig_int2dict v' <->
  Forall (fun n => Z.testbit v n = Z.testbit v' n) used_bits.
Proof.
  unfold headconfig_int2dict, used_bits. split.
  - intros H.
    pose proof (flags_lookup
                  (PBool (getbit v 0)) (PBool (getbit v 1))
                  (PBool (getbit v 2)) (PBool (getbit v 3))
                  (PBool (getbit v 5)) (PBool (getbit v 6))
                  (PBool (getbit v 7)) (PBool (getbit v 8))
                  (PBool (getbit v 9)) (PBool (getbit v 10))
                  (PBool (getbit v 11)) (PBool (getbit v 12))
                  (PBool (getbit v 13)) (PBool (getbit v 14))) as L.
    pose proof (flags_lookup
                  (PBool (getbit v' 0)) (PBool (getbit v' 1))
                  (PBool (getbit v' 2)) (PBool (getbit v' 3))
                  (PBool (getbit v' 5)) (PBool (getbit v' 6))
                  (PBool (getbit v' 7)) (PBool (getbit v' 8))
                  (PBool (getbit v' 9)) (PBool (getbit v' 10))
                  (PBool (getbit v' 11)) (PBool (getbit v' 12))
                  (PBool (getbit v' 13)) (PBool (getbit v' 14))) as L'.
    cbv zeta in L, L'. rewrite H in L.
    destruct L as (A0 & A1 & A2 & A3 & A5 & A6 & A7 & A8 & A9 & A10 & A11
                   & A12 & A13 & A14).
    destruct L' as (B0 & B1 & B2 & B3 & B5 & B6 & B7 & B8 & B9 & B10 & B11
                    & B12 & B13 & B14).
    repeat (constructor; [rewrite <- !getbit_testbit by lia; congruence |]).
    constructor.
  - intros H.
    repeat match goal with
           | H : Forall _ (_ :: _) |- _ =>
               let E := fresh "E" in
               let R := fresh "R" in
               inversion H as [| ? ? E R]; subst; clear H;
               rewrite <- !getbit_testbit in E by lia
           end.
    congruence.
Qed.

(** Bit 4 set or clear, the dict is the same. *)
Lemma headconfig_reads_used_bits_witness :
  headconfig_int2dict 23 = headconfig_int2dict 7.
Proof.
  apply (proj2 (headconfig_reads_used_bits 23 7)).
  unfold used_bits. repeat constructor.
Defined.

Lemma cy_names_distinct i j :
  (i < 4)%nat -> (j < 4)%nat ->
  nth i [PStr "ENU"; PStr "XYZ"; PStr "BEAM"; PNone] PNone
  = nth j [PStr "ENU"; PStr "XYZ"; PStr "BEAM"; PNone] PNone ->
  i = j.
Proof.
  intros Hi Hj.
  destruct i as [|[|[|[|i]]]]; try lia;
    destruct j as [|[|[|[|j]]]]; try lia; simpl; intros H;
    try reflexivity; discriminate H.
Qed.

Lemma fields_lookup (a b c : pyval) :
  let d : gmap string pyval :=
    list_to_map [("ncells", a); ("cy", b); ("nbeams", c)]%string in
  d !! "ncells" = Some a /\ d !! "cy" = Some b /\ d !! "nbeams" = Some c.
Proof. cbv zeta. repeat split; reflexivity. Qed.

Lemma ncells_lookup (a : pyval) :
  (list_to_map [("ncells", a)]%string : gmap string pyval) !! "ncells"
  = Some a.
Proof. reflexivity. Qed.

(** X13: [beams_cy_int2dict] loses nothing: whatever the record id, two
    beams/coordinate-system fields that decode to the same dict are equal.
    For the velocity-bearing ids the field is the cell count (bits 0 to 9),
    the coordinate system (bits 10 and 11; 3 reads as [None]) and the beam
    count (the bits from 12 up) side by side. *)
Theorem beams_cy_decoding_is_injective v v' id :
  beams_cy_int2dict v id = beams_cy_int2dict v' id -> v = v'.
Proof.
  unfold beams_cy_int2dict. destruct (id =? 28).
  - intros H.
    pose proof (ncells_lookup (PInt v)) as L. rewrite H in L.
    rewrite ncells_lookup in L. congruence.
  - intros H.
    pose proof (fields_lookup
                  (PInt (Z.land v (2 ^ 10 - 1)))
                  (nth (Z.to_nat (Z.land (Z.shiftr v 10) 3))
                       [PStr "ENU"; PStr "XYZ"; PStr "BEAM"; PNone] PNone)
                  (PInt (Z.shiftr v 12))) as L.
    pose proof (fields_lookup
                  (PInt (Z.land v' (2 ^ 10 - 1)))
                  (nth (Z.to_nat (Z.land (Z.shiftr v' 10) 3))
                       [PStr "ENU"; PStr "XYZ"; PStr "BEAM"; PNone] PNone)
                  (PInt (Z.shiftr v' 12))) as L'.
    cbv zeta in L, L'. rewrite H in L.
    destruct L as (A & B & C). destruct L' as (A' & B' & C').
    rewrite A in A'. rewrite B in B'. rewrite C in C'.
    injection A' as EA. injection B' as EB. injection C' as EC.
    change (2 ^ 10 - 1) with (Z.ones 10) in EA.
    rewrite !Z.land_ones in EA by lia.
    rewrite !Z.shiftr_div_pow2 in EC by lia.
    assert (R : forall x, 0 <= Z.land (Z.shiftr x 10) 3 < 4).
    { intros x. change 3 with (Z.ones 2). rewrite Z.land_ones by lia.
      apply Z.mod_pos_bound. lia. }
    pose proof (R v) as Rv. pose proof (R v') as Rv'.
    assert (EB' : Z.land (Z.shiftr v 10) 3 = Z.land (Z.shiftr v' 10) 3).
    { revert EB Rv Rv'.
      generalize (Z.land (Z.shiftr v 10) 3), (Z.land (Z.shiftr v' 10) 3).
      intros a a' EB Ra Ra'.
      apply cy_names_distinct in EB; lia. }
    clear EB. rename EB' into EB.
    change 3 with (Z.ones 2) in EB. rewrite !Z.land_ones in EB by lia.
    rewrite !Z.shiftr_div_pow2 in EB by lia.
    change (2 ^ 10) with 1024 in *. change (2 ^ 12) with 4096 in *.
    change (2 ^ 2) with 4 in *.
    pose proof (Z.div_mod v 1024 ltac:(lia)).
    pose proof (Z.div_mod v' 1024 ltac:(lia)).
    pose proof (Z.div_mod (v / 1024) 4 ltac:(lia)).
    pose proof (Z.div_mod (v' / 1024) 4 ltac:(lia)).
    rewrite !Z.div_div in * by lia. change (1024 * 4) with 4096 in *.
    lia.
Qed.

Lemma beams_cy_decoding_is_injective_witness :
  4100 = 4100.
Proof.
  apply (beams_cy_decoding_is_injective 4100 4100 21). reflexivity.
Defined.

(** X14: [get_index] builds the index file and then uses it: on a raw file
    shorter than [2^64] bytes whose scan ends normally, a call that finds
    no index file, or is told to reload, writes the index file beside the
    raw file and returns the entries [create_index_slow] has written; a
    later call without [reload] returns the same entries from the index
    file and leaves the files as they are. *)
Theorem get_index_builds_then_reuses fuel fs infile raw reload :
  fs !! infile = Some raw ->
  Z.of_nat (length raw) < 2 ^ 64 ->
  reload = true \/ fs !! (infile +:+ ".index")%string = None ->
  fst (create_index_slow fuel raw (2 ^ 32)) = Finished ->
  exists fs',
    get_index fuel fs infile reload
      = Some (fs', inr (snd (create_index_slow fuel raw (2 ^ 32)))) /\
    (forall k, k <> (infile +:+ ".index")%string -> fs' !! k = fs !! k) /\
    forall fuel',
      get_index fuel' fs' infile false
      = Some (fs', inr (snd (create_index_slow fuel raw (2 ^ 32)))).
Proof.
  intros Hraw Hlen Hmiss Hfin.
  destruct (create_index_file_fromfile fuel raw (2 ^ 32) Hlen ltac:(lia))
    as (bs & Ebs & _ & Ers).
  exists (<[(infile +:+ ".index")%string := bs]> fs). split; [| split].
  - unfold get_index. cbv zeta.
    assert (Hc : negb (bool_decide
                   (is_Some (fs !! (infile +:+ ".index")%string)))
                 || reload = true).
    { destruct Hmiss as [-> | ->]; [apply orb_true_r | reflexivity]. }
    rewrite Hc, Hraw.
    destruct (create_index_slow fuel raw (2 ^ 32)) as [st entries].
    simpl in *. rewrite Ebs, Hfin, Ers. reflexivity.
  - intros k Hk. apply lookup_insert_ne. congruence.
  - intros fuel'. unfold get_index. cbv zeta. rewrite !lookup_insert_eq.
    simpl. rewrite Ers. reflexivity.
Qed.

Lemma get_index_builds_then_reuses_witness :
  exists fs',
    get_index 3 raw_only "a.VEC" false
      = Some (fs', inr (snd (create_index_slow 3 stream_B (2 ^ 32)))) /\
    (forall k, k <> ("a.VEC" +:+ ".index")%string ->
               fs' !! k = raw_only !! k) /\
    forall fuel',
      get_index fuel' fs' "a.VEC" false
      = Some (fs', inr (snd (create_index_slow 3 stream_B (2 ^ 32)))).
Proof.
  apply (get_index_builds_then_reuses 3 raw_only "a.VEC" stream_B false).
  - reflexivity.
  - vm_compute. reflexivity.
  - right. reflexivity.
  - vm_compute. reflexivity.
Defined.

(* ===================================================================== *)
(** * Part VI.  Further properties of the rotations                       *)
(* ===================================================================== *)

Local Open Scope R_scope.

(** ** The principal rotations: failure, repetition, round trip *)

(** X15: A call of [earth2principal] that returns leaves data on which a
    further call changes nothing: the test of [coord_sys] makes the
    rotation idempotent. *)
Theorem earth2principal_twice single d ws d1 ws1 :
  earth2principal single (d, ws) = (inr tt, (d1, ws1)) ->
  earth2principal single (d1, ws1) = (inr tt, (d1, ws1)).
Proof.
  intros H. rewrite earth2principal_run in H.
  destruct (props d !! "coord_sys") as [cs|] eqn:Ecs; [| discriminate].
  destruct (match cs with VStr s => String.eqb s "principal" | _ => false end)
    eqn:Ep.
  - injection H as <- <-. apply earth2principal_noop.
    rewrite Ecs. f_equal. apply coord_sys_principal. exact Ep.
  - destruct (series d !! "u") as [u|]; [| discriminate].
    destruct (series d !! "v") as [v|]; [| discriminate].
    destruct (broadcast _ u v) as [e | tmp]; [discriminate |].
    injection H as <- <-. apply earth2principal_noop.
    apply store_rotated_tag.
Qed.

Lemma earth2principal_twice_witness :
  earth2principal (fun x => x)
    (store_rotated (fun x => x) (rotated (- PI) [1] [0]) "principal" d_earth,
     [])
  = (inr tt,
     (store_rotated (fun x => x) (rotated (- PI) [1] [0]) "principal" d_earth,
      [])).
Proof.
  apply (earth2principal_twice (fun x => x) d_earth []).
  rewrite (earth2principal_run_same (fun x => x) d_earth [] (VStr "earth")
             [1] [0] eq_refl eq_refl eq_refl eq_refl eq_refl).
  reflexivity.
Defined.

(** X16: The principal rotations fail cleanly: when [earth2principal] or
    [principal2earth] raises, the data object and the warnings are those
    of the input.  [earth2principal] raises [KeyError] when [props] has no
    [coord_sys]; either raises [AttributeError] when [u] or [v] is
    missing, and [ValueError] when [u] and [v] have different lengths
    none of which is 1; they raise nothing else. *)
Theorem principal_rotations_fail_cleanly single d ws e :
  (fst (earth2principal single (d, ws)) = inl e ->
   snd (earth2principal single (d, ws)) = (d, ws) /\
   (e = KeyError /\ props d !! "coord_sys" = None \/
    e = AttributeError /\
    (series d !! "u" = None \/ series d !! "v" = None) \/
    e = ValueError /\
    exists u v, series d !! "u" = Some u /\ series d !! "v" = Some v /\
      length u <> length v /\ length u <> 1%nat /\ length v <> 1%nat)) /\
  (fst (principal2earth single (d, ws)) = inl e ->
   snd (principal2earth single (d, ws)) = (d, ws) /\
   (e = AttributeError /\
    (series d !! "u" = None \/ series d !! "v" = None) \/
    e = ValueError /\
    exists u v, series d !! "u" = Some u /\ series d !! "v" = Some v /\
      length u <> length v /\ length u <> 1%nat /\ length v <> 1%nat)).
Proof.
  split.
  - rewrite earth2principal_run.
    destruct (props d !! "coord_sys") as [cs|].
    + destruct (match cs with
                | VStr s => String.eqb s "principal" | _ => false end);
        [discriminate |].
      destruct (series d !! "u") as [u|].
      * destruct (series d !! "v") as [v|].
        -- destruct (broadcast _ u v) as [e' | tmp] eqn:Eb; [| discriminate].
           simpl. intros H. injection H as <-.
           apply broadcast_inl in Eb. destruct Eb as (-> & H1 & H2 & H3).
           split; [reflexivity |]. right. right.
           split; [reflexivity |]. exists u, v. repeat split; assumption.
        -- simpl. intros H. injection H as <-. auto 10.
      * simpl. intros H. injection H as <-. auto 10.
    + simpl. intros H. injection H as <-. auto 10.
  - rewrite principal2earth_run.
    destruct (series d !! "u") as [u|].
    + destruct (series d !! "v") as [v|].
      * destruct (broadcast _ u v) as [e' | tmp] eqn:Eb; [| discriminate].
        simpl. intros H. injection H as <-.
        apply broadcast_inl in Eb. destruct Eb as (-> & H1 & H2 & H3).
        split; [reflexivity |]. right.
        split; [reflexivity |]. exists u, v. repeat split; assumption.
      * simpl. intros H. injection H as <-. auto 10.
    + simpl. intros H. injection H as <-. auto 10.
Qed.

(** Three samples of [u] against two of [v]. *)
Lemma principal_rotations_fail_cleanly_witness :
  (snd (earth2principal (fun x => x) (d_no_inputs, [])) = (d_no_inputs, []) /\
   (KeyError = KeyError /\ props d_no_inputs !! "coord_sys" = None \/
    KeyError = AttributeError /\
    (series d_no_inputs !! "u" = None \/ series d_no_inputs !! "v" = None) \/
    KeyError = ValueError /\
    exists u v, series d_no_inputs !! "u" = Some u /\
      series d_no_inputs !! "v" = Some v /\
      length u <> length v /\ length u <> 1%nat /\ length v <> 1%nat)) /\
  (snd (principal2earth (fun x => x) (d_ragged, [])) = (d_ragged, []) /\
   (ValueError = AttributeError /\
    (series d_ragged !! "u" = None \/ series d_ragged !! "v" = None) \/
    ValueError = ValueError /\
    exists u v, series d_ragged !! "u" = Some u /\
      series d_ragged !! "v" = Some v /\
      length u <> length v /\ length u <> 1%nat /\ length v <> 1%nat)).
Proof.
  split.
  - apply (proj1 (principal_rotations_fail_cleanly
                    (fun x => x) d_no_inputs [] KeyError)).
    rewrite earth2principal_run. reflexivity.
  - apply (proj2 (principal_rotations_fail_cleanly
                    (fun x => x) d_ragged [] ValueError)).
    rewrite principal2earth_run. reflexivity.
Defined.

(** *** The round trip over the reals *)

Lemma rotated_back theta : forall u v,
  length u = length v ->
  map fst (rotated theta (map fst (rotated (- theta) u v))
                         (map snd (rotated (- theta) u v))) = u /\
  map snd (rotated theta (map fst (rotated (- theta) u v))
                         (map snd (rotated (- theta) u v))) = v.
Proof.
  assert (T : (sin theta)² + (cos theta)² = 1) by apply sin2_cos2.
  unfold Rsqr in T.
  induction u as [|a u IH]; intros [|b v] Hlen; try discriminate.
  - split; reflexivity.
  - injection Hlen as Hlen. destruct (IH v Hlen) as [Hu Hv].
    unfold rotated in *. simpl. rewrite Hu, Hv.
    rewrite cos_neg, sin_neg.
    split; f_equal.
    + replace a with (a * (sin theta * sin theta + cos theta * cos theta))
        at 3 by (rewrite T; ring). ring.
    + replace b with (b * (sin theta * sin theta + cos theta * cos theta))
        at 3 by (rewrite T; ring). ring.
Qed.

(** X17: Over the reals and with the cast to single precision left out,
    [principal2earth] undoes [earth2principal]: on data not tagged
    [principal], with [u] and [v] of one length, the round trip returns,
    restores [u] and [v] and leaves the tag [earth].  ([U_rot] is the
    multiplication of [u + iv] by the unit phasor of the angle.) *)
Theorem principal_round_trip d ws cs u v :
  props d !! "coord_sys" = Some cs ->
  cs <> VStr "principal" ->
  series d !! "u" = Some u -> series d !! "v" = Some v ->
  length u = length v ->
  exists d2,
    (earth2principal (fun x => x) ≫= fun _ => principal2earth (fun x => x))
      (d, ws) = (inr tt, (d2, ws)) /\
    series d2 !! "u" = Some u /\ series d2 !! "v" = Some v /\
    props d2 !! "coord_sys" = Some (VStr "earth") /\
    same_but_uv_and_tag d d2.
Proof.
  intros Hcs Hnp Hu Hv Hlen.
  assert (Ep : match cs with
               | VStr s => String.eqb s "principal" | _ => false end = false).
  { destruct (match cs with
              | VStr s => String.eqb s "principal" | _ => false end) eqn:E;
      [| reflexivity].
    apply coord_sys_principal in E. contradiction. }
  rewrite bind_run,
    (earth2principal_run_same _ d ws cs u v Hcs Ep Hu Hv Hlen).
  set (d1 := store_rotated (fun x => x) (rotated (- principal_angle d) u v)
                           "principal" d).
  destruct (store_rotated_uv (fun x => x) (rotated (- principal_angle d) u v)
              "principal" d) as [Hu1 Hv1].
  fold d1 in Hu1, Hv1.
  rewrite (principal2earth_run_same _ d1 ws _ _ Hu1 Hv1)
    by (rewrite !length_map; reflexivity).
  assert (Ea : principal_angle d1 = principal_angle d) by reflexivity.
  rewrite Ea, !map_id.
  destruct (rotated_back (principal_angle d) u v Hlen) as [Bu Bv].
  eexists. split; [reflexivity |].
  destruct (store_rotated_uv (fun x => x)
              (rotated (principal_angle d)
                 (map fst (rotated (- principal_angle d) u v))
                 (map snd (rotated (- principal_angle d) u v)))
              "earth" d1) as [Hu2 Hv2].
  rewrite Hu2, Hv2, !map_id, Bu, Bv.
  split; [reflexivity |]. split; [reflexivity |].
  split; [apply store_rotated_tag |].
  pose proof (store_rotated_frame (fun x => x)
                (rotated (- principal_angle d) u v) "principal" d) as F1.
  pose proof (store_rotated_frame (fun x => x)
                (rotated (principal_angle d)
                   (map fst (rotated (- principal_angle d) u v))
                   (map snd (rotated (- principal_angle d) u v)))
                "earth" d1) as F2.
  fold d1 in F1. unfold same_but_uv_and_tag in *.
  destruct F1 as (A1 & A2 & A3 & A4 & A5 & A6 & A7 & A8 & A9 & A10).
  destruct F2 as (B1 & B2 & B3 & B4 & B5 & B6 & B7 & B8 & B9 & B10).
  split; [intros k K1 K2; rewrite B1, A1 by assumption; reflexivity |].
  split; [congruence |]. split; [congruence |]. split; [congruence |].
  split; [congruence |].
  split; [intros k K; rewrite B6, A6 by assumption; reflexivity |].
  split; [congruence |]. split; [congruence |]. split; congruence.
Qed.

Lemma principal_round_trip_witness :
  exists d2,
    (earth2principal (fun x => x) ≫= fun _ => principal2earth (fun x => x))
      (d_earth, []) = (inr tt, (d2, [])) /\
    series d2 !! "u" = Some [1] /\ series d2 !! "v" = Some [0] /\
    props d2 !! "coord_sys" = Some (VStr "earth") /\
    same_but_uv_and_tag d_earth d2.
Proof.
  apply (principal_round_trip d_earth [] (VStr "earth") [1] [0]).
  - reflexivity.
  - discriminate.
  - reflexivity.
  - reflexivity.
  - reflexivity.
Defined.

(** ** [calcRotationVel] *)

Section rotation_velocity.

Variable inv : v3 (v3 R) -> exn + v3 (v3 R).

Lemma calcRotationVel_point A x y z T :
  calcRotationVel inv A (Shape3 (V3 x y z)) T
  = inr (V3 (aneg (asub (ascale z (c1 A)) (ascale y (c2 A))))
            (aneg (asub (ascale x (c2 A)) (ascale z (c0 A))))
            (aneg (asub (ascale y (c0 A)) (ascale x (c1 A))))).
Proof. destruct T; reflexivity. Qed.

Lemma cross_is_perpendicular x y z : forall n a b c,
  length a = n -> length b = n -> length c = n ->
  let r := V3 (aneg (asub (ascale z b) (ascale y c)))
              (aneg (asub (ascale x c) (ascale z a)))
              (aneg (asub (ascale y a) (ascale x b))) in
  asum3 (fun i => amul (at3 r i) (at3 (V3 a b c) i)) = zeros n /\
  asum3 (fun i => ascale (at3 (V3 x y z) i) (at3 r i)) = zeros n.
Proof.
  induction n as [|n IH]; intros [|a' a] [|b' b] [|c' c] Ha Hb Hc;
    try discriminate.
  - split; reflexivity.
  - injection Ha as Ha. injection Hb as Hb. injection Hc as Hc.
    destruct (IH a b c Ha Hb Hc) as [H1 H2].
    cbv zeta in *. unfold asum3, at3 in *. cbn [c0 c1 c2] in *.
    unfold aadd, amul, ascale, aneg, asub, zeros in *. simpl.
    rewrite H1, H2. split; f_equal; ring.
Qed.

(** X18: Over the reals, with the rounding of double precision left out:
    the velocity [calcRotationVel] computes for one position is minus the
    cross product of the angular rate and the position, so that at every
    sample it is perpendicular to the angular rate and to the position
    (both dot products are the zero array); the call returns whatever
    matrix is passed for [transMat]. *)
Theorem rotation_velocity_is_perpendicular A v T n :
  rows_of_length n A ->
  exists r,
    calcRotationVel inv A (Shape3 v) T = inr r /\
    asum3 (fun i => amul (at3 r i) (at3 A i)) = zeros n /\
    asum3 (fun i => ascale (at3 v i) (at3 r i)) = zeros n.
Proof.
  intros (H0 & H1 & H2). destruct v as [x y z].
  rewrite calcRotationVel_point. eexists. split; [reflexivity |].
  destruct A as [a b c]. cbn [c0 c1 c2] in *.
  apply cross_is_perpendicular; assumption.
Qed.

(** X19: With several probe positions, the positions beyond the first play no
    part unless a transformation matrix is passed and the probes are
    three: the result is that for the first position alone. *)
Theorem rotation_velocity_uses_first_probe A x xs y ys z zs T :
  length ys = length xs -> length zs = length xs ->
  T = None \/ length xs <> 2%nat ->
  calcRotationVel inv A (Shape3P (V3 (x :: xs) (y :: ys) (z :: zs))) T
  = calcRotationVel inv A (Shape3 (V3 x y z)) None.
Proof.
  intros Hy Hz HT. rewrite calcRotationVel_point.
  unfold calcRotationVel. cbn [c0 c1 c2 map3 outer map zip_with length].
  destruct T as [T|]; [| reflexivity].
  destruct HT as [HT | HT]; [discriminate |].
  assert (E : Nat.eqb
                (S (length (map aneg
                     (zip_with asub (map (fun p => ascale p (c1 A)) zs)
                                    (map (fun p => ascale p (c2 A)) ys)))))
                3 = false).
  { apply Nat.eqb_neq. rewrite length_map, length_zip_with, !length_map.
    lia. }
  rewrite E. reflexivity.
Qed.

End rotation_velocity.

Lemma rotation_velocity_is_perpendicular_witness :
  exists r,
    calcRotationVel same_inv (V3 [1; 0] [0; 2] [3; 3]) (Shape3 (V3 1 2 3)) None
      = inr r /\
    asum3 (fun i => amul (at3 r i) (at3 (V3 [1; 0] [0; 2] [3; 3]) i))
      = zeros 2 /\
    asum3 (fun i => ascale (at3 (V3 1 2 3) i) (at3 r i)) = zeros 2.
Proof.
  apply (rotation_velocity_is_perpendicular same_inv
           (V3 [1; 0] [0; 2] [3; 3]) (V3 1 2 3) None 2).
  repeat split.
Defined.

Lemma rotation_velocity_uses_first_probe_witness :
  calcRotationVel same_inv (V3 [1; 0] [0; 2] [3; 3])
    (Shape3P (V3 [1; 5] [2; 6] [3; 7])) (Some id3)
  = calcRotationVel same_inv (V3 [1; 0] [0; 2] [3; 3])
      (Shape3 (V3 1 2 3)) None.
Proof.
  apply (rotation_velocity_uses_first_probe same_inv
           (V3 [1; 0] [0; 2] [3; 3]) 1 [5] 2 [6] 3 [7] (Some id3)).
  - reflexivity.
  - reflexivity.
  - right. simpl. lia.
Defined.

Lemma save_inst_data_run d ws :
  save_inst_data (d, ws) =
  match series d !! "u" with
  | None => (inl AttributeError, (d, ws))
  | Some u =>
      match series d !! "v" with
      | None => (inl AttributeError, (with_data "u_inst" u "inst" d, ws))
      | Some v =>
          match series d !! "w" with
          | None =>
              (inl AttributeError,
               (with_data "v_inst" v "inst" (with_data "u_inst" u "inst" d),
                ws))
          | Some w => (inr tt, (save_inst u v w d, ws))
          end
      end
  end.
Proof.
  unfold save_inst_data.
  rewrite bind_run, attr_run.
  destruct (series d !! "u") as [u|]; [| reflexivity].
  rewrite bind_run, add_data_run. fold (with_data "u_inst" u "inst" d).
  rewrite bind_run, attr_run.
  assert (Ev : series (with_data "u_inst" u "inst" d) !! "v"
               = series d !! "v").
  { unfold with_data. cbn [series set_groups set_series].
    apply lookup_insert_ne. discriminate. }
  rewrite Ev. destruct (series d !! "v") as [v|]; [| reflexivity].
  rewrite bind_run, add_data_run.
  fold (with_data "v_inst" v "inst" (with_data "u_inst" u "inst" d)).
  rewrite bind_run, attr_run.
  assert (Ew : series (with_data "v_inst" v "inst"
                         (with_data "u_inst" u "inst" d)) !! "w"
               = series d !! "w").
  { unfold with_data. cbn [series set_groups set_series].
    rewrite !lookup_insert_ne by discriminate. reflexivity. }
  rewrite Ew. destruct (series d !! "w") as [w|]; [| reflexivity].
  rewrite add_data_run. reflexivity.
Qed.

Lemma inst2earth_apply_run single rr pp hh d ws :
  inst2earth_apply single rr pp hh (d, ws) =
  match (if saves_inst d then save_inst_data else mret tt) (d, ws) with
  | (inl e, st) => (inl e, st)
  | (inr _, (dm, ws')) =>
      match earth_uvw single (oriented d rr) pp hh (obj_attr dm "u_inst")
              (obj_attr dm "v_inst") (obj_attr dm "w_inst") with
      | inr e => (inr tt, (store_earth e dm, ws'))
      | inl err => (inl err, (dm, ws'))
      end
  end.
Proof.
  unfold inst2earth_apply.
  rewrite bind_run, get_obj_run. cbn beta iota zeta.
  rewrite bind_run. fold (saves_inst d). fold save_inst_data.
  fold (oriented d rr).
  destruct ((if saves_inst d then save_inst_data else mret tt) (d, ws))
    as [[e | []] [dm ws']]; [reflexivity |].
  rewrite bind_run, get_obj_run. cbn beta iota zeta.
  unfold earth_uvw. cbv zeta.
  rewrite bind_run, lift_run.
  destruct (unop (map single) _) as [e | u]; [reflexivity |].
  cbn beta iota. rewrite bind_run, lift_run.
  destruct (unop (map single) _) as [e | v]; [reflexivity |].
  cbn beta iota. rewrite bind_run, lift_run.
  destruct (unop (map single) _) as [e | w]; reflexivity.
Qed.

Lemma store_earth_series e d k :
  k <> "u"%string -> k <> "v"%string -> k <> "w"%string ->
  series (store_earth e d) !! k = series d !! k.
Proof.
  intros Hu Hv Hw. unfold store_earth, with_data.
  cbn [series set_props set_groups set_series].
  rewrite !lookup_insert_ne by congruence. reflexivity.
Qed.

Lemma store_earth_uvw e d :
  series (store_earth e d) !! "u" = Some (c0 e) /\
  series (store_earth e d) !! "v" = Some (c1 e) /\
  series (store_earth e d) !! "w" = Some (c2 e).
Proof.
  unfold store_earth, with_data.
  cbn [series set_props set_groups set_series].
  split; [| split].
  - rewrite !lookup_insert_ne by discriminate. apply lookup_insert_eq.
  - rewrite lookup_insert_ne by discriminate. apply lookup_insert_eq.
  - apply lookup_insert_eq.
Qed.

Lemma store_earth_props e d k :
  k <> "coord_sys"%string -> props (store_earth e d) !! k = props d !! k.
Proof.
  intros Hk. unfold store_earth, with_data.
  cbn [props set_props set_groups set_series].
  apply lookup_insert_ne. congruence.
Qed.

Lemma save_inst_series u v w d k :
  k <> "u_inst"%string -> k <> "v_inst"%string -> k <> "w_inst"%string ->
  series (save_inst u v w d) !! k = series d !! k.
Proof.
  intros Hu Hv Hw. unfold save_inst, with_data.
  cbn [series set_groups set_series].
  rewrite !lookup_insert_ne by congruence. reflexivity.
Qed.

Lemma save_inst_uvw u v w d :
  series (save_inst u v w d) !! "u_inst" = Some u /\
  series (save_inst u v w d) !! "v_inst" = Some v /\
  series (save_inst u v w d) !! "w_inst" = Some w.
Proof.
  unfold save_inst, with_data. cbn [series set_groups set_series].
  split; [| split].
  - rewrite !lookup_insert_ne by discriminate. apply lookup_insert_eq.
  - rewrite lookup_insert_ne by discriminate. apply lookup_insert_eq.
  - apply lookup_insert_eq.
Qed.

Lemma advo_ext d d' :
  series d = series d' -> vectors d = vectors d' ->
  orientmat d = orientmat d' -> fs d = fs d' ->
  principal_angle d = principal_angle d' -> props d = props d' ->
  groups d = groups d' -> config_orientation d = config_orientation d' ->
  config_coordinate_system d = config_coordinate_system d' ->
  config_head d = config_head d' -> d = d'.
Proof.
  destruct d, d'. simpl. intros; subst. reflexivity.
Qed.

Lemma store_earth_series_eq e d :
  series (store_earth e d)
  = <["w" := c2 e]> (<["v" := c1 e]> (<["u" := c0 e]> (series d))).
Proof. reflexivity. Qed.

Lemma store_earth_props_eq e d :
  props (store_earth e d) = <["coord_sys" := VStr "earth"]> (props d).
Proof. reflexivity. Qed.

Lemma with_data_groups name a g d :
  groups (with_data name a g d)
  = <[g := {[name]} ∪ default ∅ (groups d !! g)]> (groups d).
Proof. reflexivity. Qed.

Lemma store_earth_groups_eq e d :
  groups (store_earth e d)
  = <["main" := {["w"]} ∪ ({["v"]} ∪ ({["u"]} ∪ default ∅ (groups d !! "main")))]>
      (groups d).
Proof.
  unfold store_earth. cbv zeta.
  change (groups (set_props ?p ?x)) with (groups x).
  rewrite !with_data_groups. rewrite !lookup_insert_eq. cbn [default].
  rewrite !insert_insert_eq. reflexivity.
Qed.

Lemma store_earth_idem e d : store_earth e (store_earth e d) = store_earth e d.
Proof.
  apply advo_ext; try reflexivity.
  - rewrite !store_earth_series_eq.
    apply map_eq. intros k.
    destruct (decide (k = "w"%string)) as [-> | Hw];
      [rewrite !lookup_insert_eq; reflexivity |].
    destruct (decide (k = "v"%string)) as [-> | Hv].
    { repeat first [rewrite lookup_insert_eq
                   | rewrite lookup_insert_ne by discriminate].
      reflexivity. }
    destruct (decide (k = "u"%string)) as [-> | Hu].
    { repeat first [rewrite lookup_insert_eq
                   | rewrite lookup_insert_ne by discriminate].
      reflexivity. }
    rewrite !lookup_insert_ne by congruence. reflexivity.
  - rewrite !store_earth_props_eq. apply insert_insert_eq.
  - rewrite !store_earth_groups_eq. rewrite lookup_insert_eq.
    cbn [default]. unfold Datatypes.id.
    rewrite insert_insert_eq. f_equal.
    apply set_eq. intros x. rewrite !elem_of_union. tauto.
Qed.

(** An operand that raises makes the expression raise. *)
Lemma binop_inl_r {A B C} (f : A -> B -> exn + C) (x : exn + A) (e : exn) :
  exists e', binop f x (inl e) = inl e'.
Proof. destruct x as [e0 | a]; simpl; eauto. Qed.

Lemma unop_inl {A B} (f : A -> B) (x : exn + A) (e : exn) :
  x = inl e -> unop f x = inl e.
Proof. intros ->. reflexivity. Qed.

Ltac raises :=
  repeat match goal with
         | |- context [binop ?f ?x (inl ?e)] =>
             let e' := fresh "e" in
             let E := fresh "E" in
             destruct (binop_inl_r f x e) as [e' E]; rewrite E; clear E;
             cbn [binop unop]
         end.

(** The rotation returns only on components that are there. *)
Lemma earth_uvw_inr single rr pp hh U V W e :
  earth_uvw single rr pp hh U V W = inr e ->
  exists ui vi wi, U = inr ui /\ V = inr vi /\ W = inr wi.
Proof.
  unfold earth_uvw. cbv zeta. intros H.
  destruct U as [eu | ui].
  { exfalso. revert H. raises. discriminate. }
  destruct V as [ev | vi].
  { exfalso. revert H. raises. discriminate. }
  destruct W as [ew | wi].
  { exfalso. revert H. raises. discriminate. }
  exists ui, vi, wi. auto.
Qed.

Lemma obj_attr_inr d name a :
  obj_attr d name = inr a <-> series d !! name = Some a.
Proof.
  unfold obj_attr. destruct (series d !! name); split; intros H;
    try discriminate; injection H as <-; reflexivity.
Qed.

(** What a run of the rotation part that returns has done. *)
Lemma inst2earth_apply_inr single rr pp hh d ws d1 ws1 :
  inst2earth_apply single rr pp hh (d, ws) = (inr tt, (d1, ws1)) ->
  ws1 = ws /\
  exists dm ui vi wi e,
    (saves_inst d = true /\
     series d !! "u" = Some ui /\ series d !! "v" = Some vi /\
     series d !! "w" = Some wi /\ dm = save_inst ui vi wi d
     \/ saves_inst d = false /\ dm = d) /\
    series dm !! "u_inst" = Some ui /\ series dm !! "v_inst" = Some vi /\
    series dm !! "w_inst" = Some wi /\
    earth_uvw single (oriented d rr) pp hh (inr ui) (inr vi) (inr wi)
      = inr e /\
    d1 = store_earth e dm.
Proof.
  intros H. rewrite inst2earth_apply_run in H.
  assert (Hgen : forall dm,
    match earth_uvw single (oriented d rr) pp hh (obj_attr dm "u_inst")
            (obj_attr dm "v_inst") (obj_attr dm "w_inst") with
    | inr e => (inr tt, (store_earth e dm, ws))
    | inl err => (inl err, (dm, ws))
    end = (inr tt, (d1, ws1)) ->
    ws1 = ws /\
    exists ui vi wi e,
      series dm !! "u_inst" = Some ui /\ series dm !! "v_inst" = Some vi /\
      series dm !! "w_inst" = Some wi /\
      earth_uvw single (oriented d rr) pp hh (inr ui) (inr vi) (inr wi)
        = inr e /\
      d1 = store_earth e dm).
  { intros dm H0.
    destruct (earth_uvw single (oriented d rr) pp hh _ _ _) as [err | e]
      eqn:Ee; [discriminate |].
    injection H0 as <- <-. split; [reflexivity |].
    destruct (earth_uvw_inr _ _ _ _ _ _ _ _ Ee) as (ui & vi & wi & Eu & Ev & Ew).
    rewrite Eu, Ev, Ew in Ee.
    exists ui, vi, wi, e.
    repeat split; try (apply obj_attr_inr; assumption). exact Ee. }
  destruct (saves_inst d) eqn:Es.
  - rewrite save_inst_data_run in H.
    destruct (series d !! "u") as [u|]; [| discriminate].
    destruct (series d !! "v") as [v|]; [| discriminate].
    destruct (series d !! "w") as [w|]; [| discriminate].
    destruct (Hgen _ H) as (-> & ui & vi & wi & e & Eu & Ev & Ew & Ee & ->).
    destruct (save_inst_uvw u v w d) as (Eu' & Ev' & Ew').
    rewrite Eu' in Eu. rewrite Ev' in Ev. rewrite Ew' in Ew.
    injection Eu as <-. injection Ev as <-. injection Ew as <-.
    split; [reflexivity |]. exists (save_inst u v w d), u, v, w, e.
    split; [left; auto |]. auto.
  - rewrite ret_run in H.
    destruct (Hgen _ H) as (-> & ui & vi & wi & e & Eu & Ev & Ew & Ee & ->).
    split; [reflexivity |]. exists d, ui, vi, wi, e.
    split; [right; auto |]. auto.
Qed.

(** The rotation part on data that hold the instrument-frame
    components. *)
Lemma inst2earth_apply_kept single rr pp hh d ws ui vi wi :
  series d !! "u_inst" = Some ui -> series d !! "v_inst" = Some vi ->
  series d !! "w_inst" = Some wi ->
  inst2earth_apply single rr pp hh (d, ws)
  = match earth_uvw single (oriented d rr) pp hh (inr ui) (inr vi) (inr wi)
    with
    | inr e => (inr tt, (store_earth e d, ws))
    | inl err => (inl err, (d, ws))
    end.
Proof.
  intros Eu Ev Ew. rewrite inst2earth_apply_run.
  assert (Es : saves_inst d = false).
  { unfold saves_inst. rewrite Eu.
    replace (bool_decide (is_Some (Some ui))) with true by reflexivity.
    apply andb_false_r. }
  rewrite Es, ret_run. unfold obj_attr. rewrite Eu, Ev, Ew. reflexivity.
Qed.

Lemma inst2earth_apply_twice single rr pp hh d ws d1 ws1 :
  inst2earth_apply single rr pp hh (d, ws) = (inr tt, (d1, ws1)) ->
  forall ws', inst2earth_apply single rr pp hh (d1, ws') = (inr tt, (d1, ws')).
Proof.
  intros H ws'. apply inst2earth_apply_inr in H.
  destruct H as (_ & dm & ui & vi & wi & e & Hdm & Eu & Ev & Ew & Ee & ->).
  assert (Eo : oriented dm rr = oriented d rr).
  { destruct Hdm as [(_ & _ & _ & _ & ->) | (_ & ->)]; reflexivity. }
  rewrite (inst2earth_apply_kept single rr pp hh _ ws' ui vi wi).
  - change (oriented (store_earth _ dm) rr) with (oriented dm rr).
    rewrite Eo, Ee, store_earth_idem. reflexivity.
  - rewrite store_earth_series by discriminate. exact Eu.
  - rewrite store_earth_series by discriminate. exact Ev.
  - rewrite store_earth_series by discriminate. exact Ew.
Qed.

(** The series and properties [inst2earth] reads before the rotation part
    are those of the input once the rotation part has returned. *)
Lemma inst2earth_apply_inputs single rr pp hh d ws d1 ws1 :
  inst2earth_apply single rr pp hh (d, ws) = (inr tt, (d1, ws1)) ->
  series d1 !! "roll" = series d !! "roll" /\
  series d1 !! "pitch" = series d !! "pitch" /\
  series d1 !! "heading" = series d !! "heading" /\
  props d1 !! "declination" = props d !! "declination" /\
  props d1 !! "heading_offset" = props d !! "heading_offset".
Proof.
  intros H. apply inst2earth_apply_inr in H.
  destruct H as (_ & dm & ui & vi & wi & e & Hdm & _ & _ & _ & _ & ->).
  rewrite !store_earth_series by discriminate.
  rewrite !store_earth_props by discriminate.
  destruct Hdm as [(_ & _ & _ & _ & ->) | (_ & ->)].
  - rewrite !save_inst_series by discriminate. repeat split.
  - repeat split.
Qed.

(** X21: A second [inst2earth] changes nothing: a call that returns leaves a
    data object on which a further call returns and leaves the same
    object.  The rotation reads the components kept in [u_inst], [v_inst],
    [w_inst], which the first call has stored or found, and never [u],
    [v], [w] again. *)
Theorem inst2earth_twice single np_angle use_mean_rotation d ws d1 ws1 :
  inst2earth single np_angle use_mean_rotation (d, ws) = (inr tt, (d1, ws1)) ->
  forall ws',
    fst (inst2earth single np_angle use_mean_rotation (d1, ws')) = inr tt /\
    fst (snd (inst2earth single np_angle use_mean_rotation (d1, ws'))) = d1.
Proof.
  intros H ws'. rewrite inst2earth_run in H. rewrite inst2earth_run.
  destruct (series d !! "roll") as [roll|] eqn:Er; [| discriminate].
  destruct (series d !! "pitch") as [pitch|] eqn:Ep; [| discriminate].
  destruct (series d !! "heading") as [heading|] eqn:Eh; [| discriminate].
  cbv zeta in H.
  set (rr := fst (fst (first_angles np_angle use_mean_rotation
                                    roll pitch heading))) in *.
  set (pp := snd (fst (first_angles np_angle use_mean_rotation
                                    roll pitch heading))) in *.
  set (hh := snd (first_angles np_angle use_mean_rotation
                               roll pitch heading)) in *.
  assert (Hgen : forall hh0 ws0,
            inst2earth_offset single rr pp hh0 (d, ws0) = (inr tt, (d1, ws1)) ->
            series d1 !! "roll" = Some roll /\
            series d1 !! "pitch" = Some pitch /\
            series d1 !! "heading" = Some heading /\
            props d1 !! "declination" = props d !! "declination" /\
            forall ws2,
              inst2earth_offset single rr pp hh0 (d1, ws2)
              = (inr tt, (d1, ws2))).
  { intros hh0 ws0 H0. rewrite heading_offset_run in H0.
    assert (Hin : forall hh1,
              inst2earth_apply single rr pp hh1 (d, ws0) = (inr tt, (d1, ws1)) ->
              series d1 !! "roll" = Some roll /\
              series d1 !! "pitch" = Some pitch /\
              series d1 !! "heading" = Some heading /\
              props d1 !! "declination" = props d !! "declination" /\
              props d1 !! "heading_offset" = props d !! "heading_offset" /\
              forall ws2,
                inst2earth_apply single rr pp hh1 (d1, ws2)
                = (inr tt, (d1, ws2))).
    { intros hh1 H1.
      destruct (inst2earth_apply_inputs _ _ _ _ _ _ _ _ H1)
        as (I1 & I2 & I3 & I4 & I5).
      rewrite I1, I2, I3, Er, Ep, Eh.
      repeat (split; [first [reflexivity | assumption] |]).
      apply (inst2earth_apply_twice _ _ _ _ _ _ _ _ H1). }
    destruct (props d !! "heading_offset") as [[x | | | |]|] eqn:Eo;
      try discriminate.
    - destruct (Hin _ H0) as (I1 & I2 & I3 & I4 & I5 & I6).
      repeat (split; [assumption |]).
      intros ws2. rewrite heading_offset_run, I5. apply I6.
    - destruct (Hin _ H0) as (I1 & I2 & I3 & I4 & I5 & I6).
      repeat (split; [assumption |]).
      intros ws2. rewrite heading_offset_run, I5. apply I6. }
  destruct (props d !! "declination") as [[x | | | |]|] eqn:Ed;
    try discriminate.
  - destruct (Hgen _ _ H) as (I1 & I2 & I3 & I4 & I5).
    rewrite I1, I2, I3, I4. cbv zeta. fold rr pp hh.
    rewrite I5. split; reflexivity.
  - destruct (Hgen _ _ H) as (I1 & I2 & I3 & I4 & I5).
    rewrite I1, I2, I3, I4. cbv zeta. fold rr pp hh.
    rewrite I5. split; reflexivity.
Qed.

Lemma inst2earth_twice_witness :
  fst (inst2earth (fun x => x) (fun _ _ => 0) false (d_rotated, [])) = inr tt /\
  fst (snd (inst2earth (fun x => x) (fun _ _ => 0) false (d_rotated, [])))
    = d_rotated.
Proof.
  apply (inst2earth_twice (fun x => x) (fun _ _ => 0) false d_no_offset []
           d_rotated
           (snd (snd (inst2earth (fun x => x) (fun _ _ => 0) false
                        (d_no_offset, []))))).
  assert (F : fst (inst2earth (fun x => x) (fun _ _ => 0) false
                     (d_no_offset, [])) = inr tt)
    by (vm_compute; reflexivity).
  unfold d_rotated.
  destruct (inst2earth (fun x => x) (fun _ _ => 0) false (d_no_offset, []))
    as [[e | []] [d1 ws1]]; [discriminate F | reflexivity].
Defined.

(** A run of [inst2earth] that returns has run its rotation part on the
    input. *)
Lemma inst2earth_inr single np_angle use_mean_rotation d ws d1 ws1 :
  inst2earth single np_angle use_mean_rotation (d, ws) = (inr tt, (d1, ws1)) ->
  exists rr pp hh ws0,
    inst2earth_apply single rr pp hh (d, ws0) = (inr tt, (d1, ws1)).
Proof.
  intros H. rewrite inst2earth_run in H.
  destruct (series d !! "roll") as [roll|]; [| discriminate].
  destruct (series d !! "pitch") as [pitch|]; [| discriminate].
  destruct (series d !! "heading") as [heading|]; [| discriminate].
  cbv zeta in H.
  destruct (props d !! "declination") as [[x | | | |]|];
    try discriminate; rewrite heading_offset_run in H;
    destruct (props d !! "heading_offset") as [[y | | | |]|];
    try discriminate; eauto.
Qed.

(** X22: [inst2earth] keeps the instrument-frame data.  Once a call has
    returned, the tag is [earth]; [u_inst], [v_inst], [w_inst] hold the
    components the input had in [u], [v], [w] when the copy was made (the
    coordinate system is [XYZ] and the input has no [u_inst]), and are
    those of the input otherwise; every series but these six, the
    [(3, N)] arrays, the orientation matrix, the properties other than
    [coord_sys], the groups other than [main] and [inst] and the
    configuration are those of the input. *)
Theorem inst2earth_keeps_instrument_data
    single np_angle use_mean_rotation d ws d1 ws1 :
  inst2earth single np_angle use_mean_rotation (d, ws) = (inr tt, (d1, ws1)) ->
  props d1 !! "coord_sys" = Some (VStr "earth") /\
  (if saves_inst d
   then series d1 !! "u_inst" = series d !! "u" /\
        series d1 !! "v_inst" = series d !! "v" /\
        series d1 !! "w_inst" = series d !! "w"
   else series d1 !! "u_inst" = series d !! "u_inst" /\
        series d1 !! "v_inst" = series d !! "v_inst" /\
        series d1 !! "w_inst" = series d !! "w_inst") /\
  (forall k : string,
     ~ In k ["u"; "v"; "w"; "u_inst"; "v_inst"; "w_inst"]%string ->
     series d1 !! k = series d !! k) /\
  vectors d1 = vectors d /\ orientmat d1 = orientmat d /\
  (forall k : string, k <> "coord_sys"%string ->
     props d1 !! k = props d !! k) /\
  (forall g : string, g <> "main"%string -> g <> "inst"%string ->
     groups d1 !! g = groups d !! g) /\
  config_orientation d1 = config_orientation d /\
  config_coordinate_system d1 = config_coordinate_system d /\
  config_head d1 = config_head d.
Proof.
  intros H. apply inst2earth_inr in H.
  destruct H as (rr & pp & hh & ws0 & H).
  apply inst2earth_apply_inr in H.
  destruct H as (_ & dm & ui & vi & wi & e & Hdm & Eu & Ev & Ew & Ee & ->).
  split.
  { unfold store_earth. cbn [props set_props]. apply lookup_insert_eq. }
  split.
  { rewrite !store_earth_series by discriminate. rewrite Eu, Ev, Ew.
    destruct Hdm as [(-> & Hu & Hv & Hw & _) | (-> & ->)].
    - rewrite Hu, Hv, Hw. repeat split.
    - rewrite Eu, Ev, Ew. repeat split. }
  split.
  { intros k Hk. simpl in Hk.
    rewrite store_earth_series by (intros ->; tauto).
    destruct Hdm as [(_ & _ & _ & _ & ->) | (_ & ->)]; [| reflexivity].
    apply save_inst_series; intros ->; tauto. }
  assert (Hg : forall g : string, g <> "main"%string -> g <> "inst"%string ->
             groups (store_earth e dm) !! g = groups d !! g).
  { intros g Hm Hi. unfold store_earth, with_data.
    cbn [groups set_props set_groups set_series].
    rewrite !lookup_insert_ne by congruence.
    destruct Hdm as [(_ & _ & _ & _ & ->) | (_ & ->)]; [| reflexivity].
    unfold save_inst, with_data. cbn [groups set_groups set_series].
    rewrite !lookup_insert_ne by congruence. reflexivity. }
  destruct Hdm as [(_ & _ & _ & _ & ->) | (_ & ->)];
    (split; [reflexivity |]); (split; [reflexivity |]);
    (split; [intros k Hk; rewrite store_earth_props by exact Hk;
             reflexivity |]);
    (split; [exact Hg |]); repeat split.
Qed.

Lemma inst2earth_keeps_instrument_data_witness :
  props d_rotated !! "coord_sys" = Some (VStr "earth") /\
  (if saves_inst d_no_offset
   then series d_rotated !! "u_inst" = series d_no_offset !! "u" /\
        series d_rotated !! "v_inst" = series d_no_offset !! "v" /\
        series d_rotated !! "w_inst" = series d_no_offset !! "w"
   else series d_rotated !! "u_inst" = series d_no_offset !! "u_inst" /\
        series d_rotated !! "v_inst" = series d_no_offset !! "v_inst" /\
        series d_rotated !! "w_inst" = series d_no_offset !! "w_inst") /\
  (forall k : string,
     ~ In k ["u"; "v"; "w"; "u_inst"; "v_inst"; "w_inst"]%string ->
     series d_rotated !! k = series d_no_offset !! k) /\
  vectors d_rotated = vectors d_no_offset /\
  orientmat d_rotated = orientmat d_no_offset /\
  (forall k : string, k <> "coord_sys"%string ->
     props d_rotated !! k = props d_no_offset !! k) /\
  (forall g : string, g <> "main"%string -> g <> "inst"%string ->
     groups d_rotated !! g = groups d_no_offset !! g) /\
  config_orientation d_rotated = config_orientation d_no_offset /\
  config_coordinate_system d_rotated = config_coordinate_system d_no_offset /\
  config_head d_rotated = config_head d_no_offset.
Proof.
  apply (inst2earth_keeps_instrument_data (fun x => x) (fun _ _ => 0) false
           d_no_offset [] d_rotated
           (snd (snd (inst2earth (fun x => x) (fun _ _ => 0) false
                        (d_no_offset, []))))).
  assert (F : fst (inst2earth (fun x => x) (fun _ _ => 0) false
                     (d_no_offset, [])) = inr tt)
    by (vm_compute; reflexivity).
  unfold d_rotated.
  destruct (inst2earth (fun x => x) (fun _ _ => 0) false (d_no_offset, []))
    as [[e | []] [d1 ws1]]; [discriminate F | reflexivity].
Defined.

Lemma nd_fits_map n f a : nd_fits n a -> nd_fits n (nd_map f a).
Proof. destruct a; simpl; [auto |]. rewrite length_map. auto. Qed.

(** X23: When the coordinate system is not [XYZ] and the data object has no
    [u_inst], [inst2earth] never returns, and the data object is left as
    it was.  It raises [AttributeError], or [TypeError] for a declination
    or heading offset that is not a number, or [ValueError] when the
    product of the cosines of heading and pitch, which is evaluated
    before [u_inst] is read, cannot be formed: the latter never happens
    when the pitch and heading series have one length. *)
Theorem inst2earth_needs_instrument_data
    single np_angle use_mean_rotation d ws :
  config_coordinate_system d <> "XYZ"%string ->
  series d !! "u_inst" = None ->
  (fst (inst2earth single np_angle use_mean_rotation (d, ws))
     = inl AttributeError \/
   fst (inst2earth single np_angle use_mean_rotation (d, ws))
     = inl TypeError \/
   fst (inst2earth single np_angle use_mean_rotation (d, ws))
     = inl ValueError) /\
  fst (snd (inst2earth single np_angle use_mean_rotation (d, ws))) = d /\
  (forall pitch heading,
     series d !! "pitch" = Some pitch ->
     series d !! "heading" = Some heading ->
     length pitch = length heading ->
     fst (inst2earth single np_angle use_mean_rotation (d, ws))
       <> inl ValueError).
Proof.
  intros Hcs Hu.
  assert (Es : saves_inst d = false).
  { unfold saves_inst.
    destruct (String.eqb_spec (config_coordinate_system d) "XYZ");
      [contradiction | reflexivity]. }
  assert (Ha : forall rr pp hh ws0,
            (fst (inst2earth_apply single rr pp hh (d, ws0))
               = inl AttributeError \/
             fst (inst2earth_apply single rr pp hh (d, ws0))
               = inl ValueError) /\
            fst (snd (inst2earth_apply single rr pp hh (d, ws0))) = d /\
            forall n, nd_fits n pp -> nd_fits n hh ->
              fst (inst2earth_apply single rr pp hh (d, ws0))
                <> inl ValueError).
  { intros rr pp hh ws0.
    rewrite inst2earth_apply_run, Es, ret_run.
    assert (Eo : obj_attr d "u_inst" = inl AttributeError)
      by (unfold obj_attr; rewrite Hu; reflexivity).
    rewrite Eo. unfold earth_uvw. cbv zeta. cbn [binop unop].
    destruct (nd_zip Rmult (nd_map cos hh) (nd_map cos pp)) as [e | t] eqn:Et.
    - cbn [binop unop fst snd].
      assert (Hb : e = ValueError /\
                   forall n, nd_fits n pp -> nd_fits n hh -> False).
      { destruct hh as [x | l], pp as [y | m]; try discriminate Et.
        simpl in Et.
        destruct (broadcast Rmult (map cos l) (map cos m)) as [e' | r] eqn:Eb;
          [| discriminate Et].
        apply broadcast_inl in Eb. destruct Eb as (-> & Hne & _).
        injection Et as <-. split; [reflexivity |].
        intros n Fp Fh. simpl in Fp, Fh. rewrite !length_map in Hne. lia. }
      destruct Hb as [-> Hb].
      split; [auto |]. split; [reflexivity |].
      intros n Fp Fh. exfalso. exact (Hb n Fp Fh).
    - cbn [binop unop fst snd]. split; [auto |]. split; [reflexivity |].
      intros; discriminate. }
  rewrite inst2earth_run.
  destruct (series d !! "roll") as [roll|];
    [| simpl; split; [auto | split; [reflexivity | intros; discriminate]]].
  destruct (series d !! "pitch") as [pitch|];
    [| simpl; split; [auto | split; [reflexivity | intros; discriminate]]].
  destruct (series d !! "heading") as [heading|];
    [| simpl; split; [auto | split; [reflexivity | intros; discriminate]]].
  cbv zeta.
  assert (Ffit : forall n, length pitch = n -> length heading = n ->
            nd_fits n (snd (fst (first_angles np_angle use_mean_rotation
                                   roll pitch heading))) /\
            nd_fits n (snd (first_angles np_angle use_mean_rotation
                              roll pitch heading))).
  { intros n Lp Lh. unfold first_angles. destruct use_mean_rotation; simpl;
      rewrite ?length_map; auto. }
  assert (Hfin : forall rr pp hh ws0,
            (length pitch = length heading ->
             nd_fits (length pitch) pp /\ nd_fits (length pitch) hh) ->
            (fst (inst2earth_apply single rr pp hh (d, ws0))
               = inl AttributeError \/
             fst (inst2earth_apply single rr pp hh (d, ws0)) = inl TypeError \/
             fst (inst2earth_apply single rr pp hh (d, ws0))
               = inl ValueError) /\
            fst (snd (inst2earth_apply single rr pp hh (d, ws0))) = d /\
            (forall pitch0 heading0 : list R,
               Some pitch = Some pitch0 -> Some heading = Some heading0 ->
               length pitch0 = length heading0 ->
               fst (inst2earth_apply single rr pp hh (d, ws0))
                 <> inl ValueError)).
  { intros rr pp hh ws0 Hok.
    destruct (Ha rr pp hh ws0) as (A & B & C).
    split; [tauto |]. split; [exact B |].
    intros p0 h0 E1 E2 Hl. injection E1 as <-. injection E2 as <-.
    destruct (Hok Hl) as [Fp Fh]. exact (C _ Fp Fh). }
  assert (Hte : (@inl exn unit TypeError = inl AttributeError \/
                 @inl exn unit TypeError = inl TypeError \/
                 @inl exn unit TypeError = inl ValueError) /\
                d = d /\
                (forall pitch0 heading0 : list R,
                   Some pitch = Some pitch0 -> Some heading = Some heading0 ->
                   length pitch0 = length heading0 ->
                   @inl exn unit TypeError <> inl ValueError)).
  { split; [auto |]. split; [reflexivity |]. intros; discriminate. }
  destruct (props d !! "declination") as [[x | | | |]|];
    try exact Hte; rewrite heading_offset_run;
    destruct (props d !! "heading_offset") as [[y | | | |]|];
    try exact Hte; apply Hfin; intros Hl;
    destruct (Ffit _ eq_refl (eq_sym Hl)) as [Fp Fh];
    (split; [exact Fp |]); repeat apply nd_fits_map; exact Fh.
Qed.

Lemma inst2earth_needs_instrument_data_witness :
  (fst (inst2earth (fun x => x) (fun _ _ => 0) false (d_enu, []))
     = inl AttributeError \/
   fst (inst2earth (fun x => x) (fun _ _ => 0) false (d_enu, []))
     = inl TypeError \/
   fst (inst2earth (fun x => x) (fun _ _ => 0) false (d_enu, []))
     = inl ValueError) /\
  fst (snd (inst2earth (fun x => x) (fun _ _ => 0) false (d_enu, []))) = d_enu /\
  (forall pitch heading,
     series d_enu !! "pitch" = Some pitch ->
     series d_enu !! "heading" = Some heading ->
     length pitch = length heading ->
     fst (inst2earth (fun x => x) (fun _ _ => 0) false (d_enu, []))
       <> inl ValueError).
Proof.
  apply (inst2earth_needs_instrument_data (fun x => x) (fun _ _ => 0) false
           d_enu []).
  - discriminate.
  - reflexivity.
Defined.

(** ** The orientation [down] *)

Lemma zip_with_opp_r (f : R -> R -> R) :
  (forall x y, f x (- y) = - f x y) ->
  forall l m, zip_with f l (map Ropp m) = map Ropp (zip_with f l m).
Proof.
  intros Hf. induction l as [|a l IH]; intros [|b m]; simpl;
    try reflexivity.
  rewrite Hf, IH. reflexivity.
Qed.

Lemma zip_with_opp_l (f : R -> R -> R) :
  (forall x y, f (- x) y = - f x y) ->
  forall l m, zip_with f (map Ropp l) m = map Ropp (zip_with f l m).
Proof.
  intros Hf. induction l as [|a l IH]; intros [|b m]; simpl;
    try reflexivity.
  rewrite Hf, IH. reflexivity.
Qed.

Lemma zip_with_opp_both (f : R -> R -> R) :
  (forall x y, f (- x) (- y) = - f x y) ->
  forall l m,
    zip_with f (map Ropp l) (map Ropp m) = map Ropp (zip_with f l m).
Proof.
  intros Hf. induction l as [|a l IH]; intros [|b m]; simpl;
    try reflexivity.
  rewrite Hf, IH. reflexivity.
Qed.

Lemma broadcast_opp_r (f : R -> R -> R) :
  (forall x y, f x (- y) = - f x y) ->
  forall l m,
    broadcast f l (map Ropp m) = unop (map Ropp) (broadcast f l m).
Proof.
  intros Hf l m. unfold broadcast. rewrite length_map.
  destruct (Nat.eqb (length l) (length m)).
  { simpl. f_equal. apply zip_with_opp_r, Hf. }
  destruct l as [|x [|x' l]], m as [|y [|y' m]]; simpl; try reflexivity;
    f_equal; rewrite ?map_map, ?Hf;
    repeat first [ reflexivity
                 | apply map_ext; intros; rewrite ?Hf; reflexivity
                 | f_equal ].
Qed.

Lemma broadcast_opp_l (f : R -> R -> R) :
  (forall x y, f (- x) y = - f x y) ->
  forall l m,
    broadcast f (map Ropp l) m = unop (map Ropp) (broadcast f l m).
Proof.
  intros Hf l m. unfold broadcast. rewrite length_map.
  destruct (Nat.eqb (length l) (length m)).
  { simpl. f_equal. apply zip_with_opp_l, Hf. }
  destruct l as [|x [|x' l]], m as [|y [|y' m]]; simpl; try reflexivity;
    f_equal; rewrite ?map_map, ?Hf;
    repeat first [ reflexivity
                 | apply map_ext; intros; rewrite ?Hf; reflexivity
                 | f_equal ].
Qed.

Lemma broadcast_opp_both (f : R -> R -> R) :
  (forall x y, f (- x) (- y) = - f x y) ->
  forall l m,
    broadcast f (map Ropp l) (map Ropp m)
    = unop (map Ropp) (broadcast f l m).
Proof.
  intros Hf l m. unfold broadcast. rewrite !length_map.
  destruct (Nat.eqb (length l) (length m)).
  { simpl. f_equal. apply zip_with_opp_both, Hf. }
  destruct l as [|x [|x' l]], m as [|y [|y' m]]; simpl; try reflexivity;
    f_equal; rewrite ?map_map, ?Hf;
    repeat first [ reflexivity
                 | apply map_ext; intros; rewrite ?Hf; reflexivity
                 | f_equal ].
Qed.

Lemma unop_Ar_opp (x : exn + list R) :
  unop Ar (unop (map Ropp) x) = unop (nd_map Ropp) (unop Ar x).
Proof. destruct x; reflexivity. Qed.

Lemma nd_zip_opp_r (f : R -> R -> R) a b :
  (forall x y, f x (- y) = - f x y) ->
  nd_zip f a (nd_map Ropp b) = unop (nd_map Ropp) (nd_zip f a b).
Proof.
  intros Hf. destruct a as [x | l], b as [y | m]; simpl.
  - rewrite Hf. reflexivity.
  - do 2 f_equal. rewrite !map_map. apply map_ext. intros; apply Hf.
  - do 2 f_equal. rewrite !map_map. apply map_ext. intros; apply Hf.
  - rewrite broadcast_opp_r by exact Hf. apply unop_Ar_opp.
Qed.

Lemma nd_zip_opp_l (f : R -> R -> R) a b :
  (forall x y, f (- x) y = - f x y) ->
  nd_zip f (nd_map Ropp a) b = unop (nd_map Ropp) (nd_zip f a b).
Proof.
  intros Hf. destruct a as [x | l], b as [y | m]; simpl.
  - rewrite Hf. reflexivity.
  - do 2 f_equal. rewrite !map_map. apply map_ext. intros; apply Hf.
  - do 2 f_equal. rewrite !map_map. apply map_ext. intros; apply Hf.
  - rewrite broadcast_opp_l by exact Hf. apply unop_Ar_opp.
Qed.

Lemma nd_zip_opp_both (f : R -> R -> R) a b :
  (forall x y, f (- x) (- y) = - f x y) ->
  nd_zip f (nd_map Ropp a) (nd_map Ropp b)
  = unop (nd_map Ropp) (nd_zip f a b).
Proof.
  intros Hf. destruct a as [x | l], b as [y | m]; simpl.
  - rewrite Hf. reflexivity.
  - do 2 f_equal. rewrite !map_map. apply map_ext. intros; apply Hf.
  - do 2 f_equal. rewrite !map_map. apply map_ext. intros; apply Hf.
  - rewrite broadcast_opp_both by exact Hf. apply unop_Ar_opp.
Qed.

(** The sign rules of the expressions, exceptions included. *)
Lemma nd_mul_opp_r (a b : exn + nd) : (a * - b)%nd = (- (a * b))%nd.
Proof.
  destruct a as [e | a], b as [e' | b]; try reflexivity.
  simpl. apply nd_zip_opp_r. intros; ring.
Qed.

Lemma nd_mul_opp_l (a b : exn + nd) : (- a * b)%nd = (- (a * b))%nd.
Proof.
  destruct a as [e | a], b as [e' | b]; try reflexivity.
  simpl. apply nd_zip_opp_l. intros; ring.
Qed.

Lemma nd_add_opp (a b : exn + nd) : (- a + - b)%nd = (- (a + b))%nd.
Proof.
  destruct a as [e | a], b as [e' | b]; try reflexivity.
  simpl. apply nd_zip_opp_both. intros; ring.
Qed.

Lemma nd_sub_opp (a b : exn + nd) : (- a - - b)%nd = (- (a - b))%nd.
Proof.
  destruct a as [e | a], b as [e' | b]; try reflexivity.
  simpl. apply nd_zip_opp_both. intros; ring.
Qed.

Lemma bmul_opp (a : exn + nd) (v : exn + list R) :
  ((- a)%nd * v)%arr = (a * unop aneg v)%arr.
Proof.
  destruct a as [e | a], v as [e' | v]; try reflexivity.
  simpl. destruct a as [x | l]; simpl.
  - f_equal. unfold ascale, aneg. rewrite !map_map. apply map_ext.
    intros; ring.
  - unfold aneg.
    rewrite broadcast_opp_l by (intros; ring).
    rewrite broadcast_opp_r by (intros; ring). reflexivity.
Qed.

Lemma nd_cos_plus_PI rr :
  nd_map cos (nd_map (fun r => r + PI) rr) = nd_map Ropp (nd_map cos rr).
Proof.
  destruct rr as [x | l]; simpl; f_equal.
  - apply neg_cos.
  - rewrite !map_map. apply map_ext. intros; apply neg_cos.
Qed.

Lemma nd_sin_plus_PI rr :
  nd_map sin (nd_map (fun r => r + PI) rr) = nd_map Ropp (nd_map sin rr).
Proof.
  destruct rr as [x | l]; simpl; f_equal.
  - apply neg_sin.
  - rewrite !map_map. apply map_ext. intros; apply neg_sin.
Qed.

(** Adding [PI] to the roll is the same as negating the second and third
    instrument-frame components. *)
Lemma earth_uvw_down single rr pp hh U V W :
  earth_uvw single (nd_map (fun r => r + PI) rr) pp hh U V W
  = earth_uvw single rr pp hh U (unop aneg V) (unop aneg W).
Proof.
  unfold earth_uvw. cbv zeta.
  rewrite nd_cos_plus_PI, nd_sin_plus_PI.
  set (ch := @inr exn nd (nd_map cos hh)).
  set (sh := @inr exn nd (nd_map sin hh)).
  set (cp := @inr exn nd (nd_map cos pp)).
  set (sp := @inr exn nd (nd_map sin pp)).
  change (@inr exn nd (nd_map Ropp (nd_map cos rr)))
    with (- @inr exn nd (nd_map cos rr))%nd.
  change (@inr exn nd (nd_map Ropp (nd_map sin rr)))
    with (- @inr exn nd (nd_map sin rr))%nd.
  set (cr := @inr exn nd (nd_map cos rr)).
  set (sr := @inr exn nd (nd_map sin rr)).
  rewrite !nd_mul_opp_r.
  rewrite (nd_mul_opp_l (- ch * cr)%nd).
  rewrite (nd_mul_opp_l (sh * cr)%nd).
  rewrite (nd_mul_opp_l sr).
  rewrite !nd_add_opp, !nd_sub_opp, !bmul_opp.
  reflexivity.
Qed.

Lemma inst2earth_apply_down single rr pp hh d ws ui vi wi :
  config_orientation d = "down"%string ->
  series d !! "u_inst" = Some ui -> series d !! "v_inst" = Some vi ->
  series d !! "w_inst" = Some wi ->
  outcome_uvw (inst2earth_apply single rr pp hh (d, ws))
  = outcome_uvw (inst2earth_apply single rr pp hh (turned_up vi wi d, ws)).
Proof.
  intros Ho Eu Ev Ew.
  rewrite (inst2earth_apply_kept single rr pp hh d ws ui vi wi)
    by assumption.
  rewrite (inst2earth_apply_kept single rr pp hh (turned_up vi wi d) ws
             ui (aneg vi) (aneg wi)).
  - unfold oriented. rewrite Ho. cbn [config_orientation turned_up].
    change (String.eqb "down" "down") with true.
    change (String.eqb "up" "down") with false. cbv iota.
    rewrite earth_uvw_down. cbn [unop].
    destruct (earth_uvw single rr pp hh (inr ui) (inr (aneg vi))
                (inr (aneg wi))) as [err | e].
    + unfold outcome_uvw. cbn [fst snd series turned_up].
      rewrite !lookup_insert_ne by discriminate. reflexivity.
    + unfold outcome_uvw. cbn [fst snd].
      destruct (store_earth_uvw e d) as (A & B & C).
      destruct (store_earth_uvw e (turned_up vi wi d)) as (A' & B' & C').
      rewrite A, B, C, A', B', C'. reflexivity.
  - cbn [series turned_up]. rewrite !lookup_insert_ne by discriminate.
    exact Eu.
  - cbn [series turned_up]. rewrite lookup_insert_ne by discriminate.
    apply lookup_insert_eq.
  - cbn [series turned_up]. apply lookup_insert_eq.
Qed.

(** X24: Over the reals, with the rounding of double precision left out,
    the comment on the orientation [down] in [inst2earth] holds: adding
    [PI] to the roll is the same as changing the sign of the second and
    third instrument-frame components.  On data in the orientation [down]
    that hold [u_inst], [v_inst], [w_inst], the call ends as it does on
    the same data in the orientation [up] with [v_inst] and [w_inst]
    negated (it returns or raises the same exception), issues the same
    warnings and leaves the same [u], [v] and [w]. *)
Theorem inst2earth_down_negates_v_and_w
    single np_angle use_mean_rotation d ws ui vi wi :
  config_orientation d = "down"%string ->
  series d !! "u_inst" = Some ui -> series d !! "v_inst" = Some vi ->
  series d !! "w_inst" = Some wi ->
  outcome_uvw (inst2earth single np_angle use_mean_rotation (d, ws))
  = outcome_uvw (inst2earth single np_angle use_mean_rotation
                   (turned_up vi wi d, ws)).
Proof.
  intros Ho Eu Ev Ew. rewrite !inst2earth_run.
  cbn [series props turned_up].
  rewrite !(lookup_insert_ne _ "w_inst"%string) by discriminate.
  rewrite !(lookup_insert_ne _ "v_inst"%string) by discriminate.
  assert (Hfail : forall e ws0,
            outcome_uvw (inl e, (d, ws0))
            = outcome_uvw (inl e, (turned_up vi wi d, ws0))).
  { intros e ws0. unfold outcome_uvw. cbn [fst snd series turned_up].
    rewrite !lookup_insert_ne by discriminate. reflexivity. }
  destruct (series d !! "roll") as [roll|]; [| apply Hfail].
  destruct (series d !! "pitch") as [pitch|]; [| apply Hfail].
  destruct (series d !! "heading") as [heading|]; [| apply Hfail].
  cbv zeta.
  destruct (props d !! "declination") as [[x | | | |]|];
    try apply Hfail; rewrite !heading_offset_run;
    cbn [props turned_up];
    destruct (props d !! "heading_offset") as [[y | | | |]|];
    try apply Hfail;
    apply (inst2earth_apply_down single _ _ _ d _ ui vi wi); assumption.
Qed.

Lemma inst2earth_down_negates_v_and_w_witness :
  outcome_uvw (inst2earth (fun x => x) (fun _ _ => 0) false (d_down, []))
  = outcome_uvw (inst2earth (fun x => x) (fun _ _ => 0) false
                   (turned_up [2] [3] d_down, [])).
Proof.
  apply (inst2earth_down_negates_v_and_w (fun x => x) (fun _ _ => 0) false
           d_down [] [1] [2] [3]); reflexivity.
Defined.

Lemma rotation_preserves_norm ch sh cp sp cr sr a b c :
  ch * ch + sh * sh = 1 -> cp * cp + sp * sp = 1 -> cr * cr + sr * sr = 1 ->
  let u := ch * cp * a + (- ch * sp * sr + sh * cr) * b
           + (- ch * cr * sp - sh * sr) * c in
  let v := - sh * cp * a + (sh * sp * sr + ch * cr) * b
           + (sh * cr * sp - ch * sr) * c in
  let w := sp * a + sr * cp * b + cp * cr * c in
  u * u + v * v + w * w = a * a + b * b + c * c.
Proof.
  intros Hh Hp Hr. cbv zeta. nsatz.
Qed.

Lemma nth_zip_with0 (f : R -> R -> R) : forall l m i,
  length l = length m -> (i < length l)%nat ->
  nth i (zip_with f l m) 0 = f (nth i l 0) (nth i m 0).
Proof.
  induction l as [|a l IH]; intros [|b m] i Hlen Hi; simpl in *;
    try lia; try discriminate.
  destruct i as [|i]; [reflexivity |]. apply IH; lia.
Qed.

Lemma nth_map0 (f : R -> R) l i :
  (i < length l)%nat -> nth i (map f l) 0 = f (nth i l 0).
Proof.
  intros Hi. rewrite (nth_indep _ 0 (f 0)) by (rewrite length_map; exact Hi).
  apply map_nth.
Qed.

Lemma nd_at_map n f a i :
  nd_fits n a -> (i < n)%nat -> nd_at (nd_map f a) i = f (nd_at a i).
Proof.
  destruct a; simpl; [reflexivity |]. intros <- Hi. apply nth_map0, Hi.
Qed.

Lemma aadd_length n a b :
  length a = n -> length b = n -> length (aadd a b) = n.
Proof. intros Ha Hb. unfold aadd. rewrite length_zip_with. lia. Qed.

Lemma aadd_nth n a b i :
  length a = n -> length b = n -> (i < n)%nat ->
  nth i (aadd a b) 0 = nth i a 0 + nth i b 0.
Proof. intros Ha Hb Hi. apply nth_zip_with0; lia. Qed.

Lemma amul_length n a b :
  length a = n -> length b = n -> length (amul a b) = n.
Proof. intros Ha Hb. unfold amul. rewrite length_zip_with. lia. Qed.

Lemma amul_nth n a b i :
  length a = n -> length b = n -> (i < n)%nat ->
  nth i (amul a b) 0 = nth i a 0 * nth i b 0.
Proof. intros Ha Hb Hi. apply nth_zip_with0; lia. Qed.

Lemma speed2_length n u v w :
  length u = n -> length v = n -> length w = n -> length (speed2 u v w) = n.
Proof.
  intros. unfold speed2.
  repeat first [apply aadd_length | apply amul_length]; assumption.
Qed.

Lemma speed2_nth n u v w i :
  length u = n -> length v = n -> length w = n -> (i < n)%nat ->
  nth i (speed2 u v w) 0
  = nth i u 0 * nth i u 0 + nth i v 0 * nth i v 0 + nth i w 0 * nth i w 0.
Proof.
  intros Hu Hv Hw Hi. unfold speed2.
  rewrite (aadd_nth n), (aadd_nth n), !(amul_nth n); try assumption;
    try reflexivity;
    repeat first [apply aadd_length | apply amul_length]; assumption.
Qed.

Lemma nd_good_val n a : nd_fits n a -> nd_good n (nd_at a) (inr a).
Proof. intros H. exists a. auto. Qed.

Lemma nd_good_map n f g a :
  nd_fits n a -> (forall i, (i < n)%nat -> f (nd_at a i) = g i) ->
  nd_good n g (inr (nd_map f a)).
Proof.
  intros H Hg. exists (nd_map f a). split; [reflexivity |].
  split; [apply nd_fits_map, H |].
  intros i Hi. rewrite (nd_at_map n) by assumption. apply Hg, Hi.
Qed.

Lemma nd_good_binop n f gx gy x y :
  nd_good n gx x -> nd_good n gy y ->
  nd_good n (fun i => f (gx i) (gy i)) (binop (nd_zip f) x y).
Proof.
  intros (a & -> & Fa & Ha) (b & -> & Fb & Hb). simpl.
  destruct a as [p | l], b as [q | m]; simpl in *.
  - eexists. split; [reflexivity |]. split; [exact I |].
    intros i Hi. simpl. rewrite <- Ha, <- Hb by exact Hi. reflexivity.
  - eexists. split; [reflexivity |]. simpl. rewrite length_map.
    split; [exact Fb |]. intros i Hi.
    rewrite (nth_map0 (f p)) by lia.
    rewrite <- Ha, <- Hb by exact Hi. reflexivity.
  - eexists. split; [reflexivity |]. simpl. rewrite length_map.
    split; [exact Fa |]. intros i Hi.
    rewrite (nth_map0 (fun z => f z q)) by lia.
    rewrite <- Ha, <- Hb by exact Hi. reflexivity.
  - rewrite broadcast_same by lia. simpl.
    eexists. split; [reflexivity |]. simpl. rewrite length_zip_with.
    split; [lia |]. intros i Hi.
    rewrite nth_zip_with0 by lia.
    rewrite <- Ha, <- Hb by exact Hi. reflexivity.
Qed.

Lemma nd_good_opp n gx x :
  nd_good n gx x -> nd_good n (fun i => - gx i) (unop (nd_map Ropp) x).
Proof.
  intros (a & -> & Fa & Ha). simpl.
  exists (nd_map Ropp a). split; [reflexivity |].
  split; [apply nd_fits_map, Fa |].
  intros i Hi. rewrite (nd_at_map n) by assumption.
  rewrite Ha by exact Hi. reflexivity.
Qed.

Lemma arr_good_val n a :
  length a = n -> arr_good n (fun i => nth i a 0) (inr a).
Proof. intros H. exists a. auto. Qed.

Lemma arr_good_bmul n gx gy x y :
  nd_good n gx x -> arr_good n gy y ->
  arr_good n (fun i => gx i * gy i) (binop bmul x y).
Proof.
  intros (a & -> & Fa & Ha) (b & -> & Fb & Hb). simpl.
  destruct a as [p | l]; simpl in *.
  - eexists. split; [reflexivity |]. unfold ascale. rewrite length_map.
    split; [exact Fb |]. intros i Hi.
    rewrite (nth_map0 (Rmult p)) by lia.
    rewrite <- Ha, <- Hb by exact Hi. reflexivity.
  - rewrite broadcast_same by lia.
    eexists. split; [reflexivity |]. rewrite length_zip_with.
    split; [lia |]. intros i Hi.
    rewrite nth_zip_with0 by lia.
    rewrite <- Ha, <- Hb by exact Hi. reflexivity.
Qed.

Lemma arr_good_add n gx gy x y :
  arr_good n gx x -> arr_good n gy y ->
  arr_good n (fun i => gx i + gy i) (binop (broadcast Rplus) x y).
Proof.
  intros (a & -> & Fa & Ha) (b & -> & Fb & Hb). simpl.
  rewrite broadcast_same by lia.
  eexists. split; [reflexivity |]. rewrite length_zip_with.
  split; [lia |]. intros i Hi.
  rewrite nth_zip_with0 by lia.
  rewrite <- Ha, <- Hb by exact Hi. reflexivity.
Qed.

Lemma arr_good_uncast n g x :
  arr_good n g x -> arr_good n g (unop (map (fun z => z)) x).
Proof.
  intros (a & -> & Fa & Ha). simpl. rewrite map_id. exists a. auto.
Qed.

Ltac good :=
  repeat first [ apply arr_good_uncast
               | apply arr_good_add
               | apply arr_good_bmul
               | apply nd_good_binop
               | apply nd_good_opp
               | apply nd_good_val; apply nd_fits_map; assumption
               | apply arr_good_val; assumption ].

(** With the cast left out, the rotation returns on angles and components
    of one length, and the components in the earth frame have, at every
    sample, the squared speed of the components in the instrument
    frame. *)
Lemma earth_uvw_speed n rr pp hh ui vi wi e :
  nd_fits n rr -> nd_fits n pp -> nd_fits n hh ->
  length ui = n -> length vi = n -> length wi = n ->
  earth_uvw (fun x => x) rr pp hh (inr ui) (inr vi) (inr wi) = inr e ->
  speed2 (c0 e) (c1 e) (c2 e) = speed2 ui vi wi.
Proof.
  intros Hr Hp Hh Hu Hv Hw. unfold earth_uvw. cbv zeta.
  set (ch := fun i => nd_at (nd_map cos hh) i).
  set (sh := fun i => nd_at (nd_map sin hh) i).
  set (cp := fun i => nd_at (nd_map cos pp) i).
  set (sp := fun i => nd_at (nd_map sin pp) i).
  set (cr := fun i => nd_at (nd_map cos rr) i).
  set (sr := fun i => nd_at (nd_map sin rr) i).
  match goal with
  | |- binop _ (binop _ ?U ?V) ?W = _ -> _ =>
      assert (GU : arr_good n
                (fun i => ch i * cp i * nth i ui 0
                          + (- ch i * sp i * sr i + sh i * cr i) * nth i vi 0
                          + (- ch i * cr i * sp i - sh i * sr i) * nth i wi 0)
                U) by good;
      assert (GV : arr_good n
                (fun i => - sh i * cp i * nth i ui 0
                          + (sh i * sp i * sr i + ch i * cr i) * nth i vi 0
                          + (sh i * cr i * sp i - ch i * sr i) * nth i wi 0)
                V) by good;
      assert (GW : arr_good n
                (fun i => sp i * nth i ui 0 + sr i * cp i * nth i vi 0
                          + cp i * cr i * nth i wi 0)
                W) by good;
      destruct GU as (u & EU & LU & NU); destruct GV as (v & EV & LV & NV);
      destruct GW as (w & EW & LW & NW);
      rewrite EU, EV, EW
  end.
  cbn [binop fst snd]. intros E. injection E as <-. cbn [c0 c1 c2].
  apply (nth_ext _ _ 0 0).
  - rewrite (speed2_length n), (speed2_length n); auto.
  - intros i Hi. rewrite (speed2_length n) in Hi by auto.
    rewrite !(speed2_nth n) by auto.
    rewrite (NU i Hi), (NV i Hi), (NW i Hi).
    apply rotation_preserves_norm.
    + unfold ch, sh. rewrite !(nd_at_map n) by assumption.
      pose proof (sin2_cos2 (nd_at hh i)) as T. unfold Rsqr in T. lra.
    + unfold cp, sp. rewrite !(nd_at_map n) by assumption.
      pose proof (sin2_cos2 (nd_at pp i)) as T. unfold Rsqr in T. lra.
    + unfold cr, sr. rewrite !(nd_at_map n) by assumption.
      pose proof (sin2_cos2 (nd_at rr i)) as T. unfold Rsqr in T. lra.
Qed.

Lemma inst2earth_inr_fits single np_angle use_mean_rotation d ws d1 ws1 n :
  (forall (k : string) a, In k ["roll"; "pitch"; "heading"]%string ->
     series d !! k = Some a -> length a = n) ->
  inst2earth single np_angle use_mean_rotation (d, ws) = (inr tt, (d1, ws1)) ->
  exists rr pp hh ws0,
    nd_fits n rr /\ nd_fits n pp /\ nd_fits n hh /\
    inst2earth_apply single rr pp hh (d, ws0) = (inr tt, (d1, ws1)).
Proof.
  intros Hlen H. rewrite inst2earth_run in H.
  destruct (series d !! "roll") as [roll|] eqn:Er; [| discriminate].
  destruct (series d !! "pitch") as [pitch|] eqn:Ep; [| discriminate].
  destruct (series d !! "heading") as [heading|] eqn:Eh; [| discriminate].
  cbv zeta in H.
  assert (Lr : length roll = n) by (apply (Hlen "roll"%string); simpl; auto).
  assert (Lp : length pitch = n) by (apply (Hlen "pitch"%string); simpl; auto).
  assert (Lh : length heading = n)
    by (apply (Hlen "heading"%string); simpl; auto).
  assert (F : nd_fits n (fst (fst (first_angles np_angle use_mean_rotation
                                     roll pitch heading))) /\
              nd_fits n (snd (fst (first_angles np_angle use_mean_rotation
                                     roll pitch heading))) /\
              nd_fits n (snd (first_angles np_angle use_mean_rotation
                                roll pitch heading))).
  { unfold first_angles. destruct use_mean_rotation; simpl;
      rewrite ?length_map; auto. }
  destruct F as (Fr & Fp & Fh).
  destruct (props d !! "declination") as [[x | | | |]|];
    try discriminate; rewrite heading_offset_run in H;
    destruct (props d !! "heading_offset") as [[y | | | |]|];
    try discriminate;
    do 4 eexists; (split; [exact Fr |]); (split; [exact Fp |]);
    (split; [| exact H]); repeat apply nd_fits_map; exact Fh.
Qed.

(** X25: The rotation of [inst2earth] is a rotation: with the cast to single
    precision left out, the squared speed [u^2 + v^2 + w^2] the call
    leaves equals, sample by sample, that of the instrument-frame
    components it leaves in [u_inst], [v_inst], [w_inst], whenever the
    angle series and these components have one length. *)
Theorem inst2earth_preserves_speed
    np_angle use_mean_rotation d ws d1 ws1 n :
  inst2earth (fun x => x) np_angle use_mean_rotation (d, ws)
    = (inr tt, (d1, ws1)) ->
  (forall (k : string) a, In k ["roll"; "pitch"; "heading"]%string ->
     series d !! k = Some a -> length a = n) ->
  (forall (k : string) a, In k ["u_inst"; "v_inst"; "w_inst"]%string ->
     series d1 !! k = Some a -> length a = n) ->
  exists u v w ui vi wi,
    series d1 !! "u" = Some u /\ series d1 !! "v" = Some v /\
    series d1 !! "w" = Some w /\
    series d1 !! "u_inst" = Some ui /\ series d1 !! "v_inst" = Some vi /\
    series d1 !! "w_inst" = Some wi /\
    speed2 u v w = speed2 ui vi wi.
Proof.
  intros H Hang Hinst.
  apply (inst2earth_inr_fits _ _ _ _ _ _ _ n Hang) in H.
  destruct H as (rr & pp & hh & ws0 & Fr & Fp & Fh & H).
  apply inst2earth_apply_inr in H.
  destruct H as (_ & dm & ui & vi & wi & e & _ & Eu & Ev & Ew & Ee & ->).
  assert (Eu1 : series (store_earth e dm) !! "u_inst" = Some ui)
    by (rewrite store_earth_series by discriminate; exact Eu).
  assert (Ev1 : series (store_earth e dm) !! "v_inst" = Some vi)
    by (rewrite store_earth_series by discriminate; exact Ev).
  assert (Ew1 : series (store_earth e dm) !! "w_inst" = Some wi)
    by (rewrite store_earth_series by discriminate; exact Ew).
  destruct (store_earth_uvw e dm) as (A & B & C).
  exists (c0 e), (c1 e), (c2 e), ui, vi, wi.
  repeat (split; [assumption |]).
  apply (earth_uvw_speed n (oriented d rr) pp hh ui vi wi).
  - unfold oriented. destruct (String.eqb _ _);
      [apply nd_fits_map |]; exact Fr.
  - exact Fp.
  - exact Fh.
  - apply (Hinst "u_inst"%string); [simpl; auto | exact Eu1].
  - apply (Hinst "v_inst"%string); [simpl; auto | exact Ev1].
  - apply (Hinst "w_inst"%string); [simpl; auto | exact Ew1].
  - exact Ee.
Qed.

Lemma inst2earth_kept_inst single np_angle use_mean_rotation d ws d1 ws1 :
  inst2earth single np_angle use_mean_rotation (d, ws) = (inr tt, (d1, ws1)) ->
  saves_inst d = false ->
  series d1 !! "u_inst" = series d !! "u_inst" /\
  series d1 !! "v_inst" = series d !! "v_inst" /\
  series d1 !! "w_inst" = series d !! "w_inst".
Proof.
  intros H Hs. apply inst2earth_inr in H.
  destruct H as (rr & pp & hh & ws0 & H).
  apply inst2earth_apply_inr in H.
  destruct H as (_ & dm & ui & vi & wi & e & Hdm & _ & _ & _ & _ & ->).
  rewrite !store_earth_series by discriminate.
  destruct Hdm as [(E & _) | (_ & ->)]; [congruence | repeat split].
Qed.

Lemma inst2earth_preserves_speed_witness :
  exists u v w ui vi wi,
    series d_two_rotated !! "u" = Some u /\
    series d_two_rotated !! "v" = Some v /\
    series d_two_rotated !! "w" = Some w /\
    series d_two_rotated !! "u_inst" = Some ui /\
    series d_two_rotated !! "v_inst" = Some vi /\
    series d_two_rotated !! "w_inst" = Some wi /\
    speed2 u v w = speed2 ui vi wi.
Proof.
  assert (F : fst (inst2earth (fun x => x) (fun _ _ => 0) false (d_two, []))
              = inr tt)
    by (vm_compute; reflexivity).
  assert (E : inst2earth (fun x => x) (fun _ _ => 0) false (d_two, [])
              = (inr tt, (d_two_rotated,
                          snd (snd (inst2earth (fun x => x) (fun _ _ => 0)
                                      false (d_two, [])))))).
  { unfold d_two_rotated.
    destruct (inst2earth (fun x => x) (fun _ _ => 0) false (d_two, []))
      as [[e | []] [d1 ws1]]; [discriminate F | reflexivity]. }
  apply (inst2earth_preserves_speed (fun _ _ => 0) false d_two [] _ _ 2 E).
  - intros k a [<- | [<- | [<- | []]]] H; vm_compute in H;
      injection H as <-; reflexivity.
  - destruct (inst2earth_kept_inst _ _ _ _ _ _ _ E eq_refl)
      as (K1 & K2 & K3).
    intros k a [<- | [<- | [<- | []]]] H.
    + rewrite K1 in H. vm_compute in H. injection H as <-. reflexivity.
    + rewrite K2 in H. vm_compute in H. injection H as <-. reflexivity.
    + rewrite K3 in H. vm_compute in H. injection H as <-. reflexivity.
Defined.

Section coincident_probes.

Variable inv : v3 (v3 R) -> exn + v3 (v3 R).

Lemma ascale_length c a : length (ascale c a) = length a.
Proof. unfold ascale. apply length_map. Qed.

Lemma ascale_nth c a i :
  (i < length a)%nat -> nth i (ascale c a) 0 = c * nth i a 0.
Proof. intros Hi. apply (nth_map0 (Rmult c)), Hi. Qed.

Lemma asum3_length n (f : ix3 -> list R) :
  (forall j, length (f j) = n) -> length (asum3 f) = n.
Proof.
  intros H. unfold asum3. repeat apply aadd_length; apply H.
Qed.

Lemma asum3_nth n (f : ix3 -> list R) i :
  (forall j, length (f j) = n) -> (i < n)%nat ->
  nth i (asum3 f) 0 = nth i (f I0) 0 + nth i (f I1) 0 + nth i (f I2) 0.
Proof.
  intros H Hi. unfold asum3.
  rewrite (aadd_nth n), (aadd_nth n); auto.
  apply aadd_length; apply H.
Qed.

(** X20: Over the reals, with the rounding of double precision left out:
    when the three probes sit at one position, the velocity computed probe
    by probe through the transformation matrix is the velocity computed
    for that position alone, provided [np.linalg.inv] returns an exact
    inverse of the matrix. *)
Theorem rotation_velocity_of_coincident_probes A x y z T Ti n :
  rows_of_length n A ->
  inv T = inr Ti ->
  (forall v, dot_vec T (dot_vec Ti v) = v) ->
  calcRotationVel inv A (Shape3P (V3 [x; x; x] [y; y; y] [z; z; z])) (Some T)
  = calcRotationVel inv A (Shape3 (V3 x y z)) None.
Proof.
  intros (H0 & H1 & H2) Hinv Hid.
  unfold calcRotationVel.
  cbn [c0 c1 c2 map3 outer map zip_with length Nat.eqb nth at3].
  rewrite Hinv. f_equal.
  set (e0 := aneg (asub (ascale z (c1 A)) (ascale y (c2 A)))).
  set (e1 := aneg (asub (ascale x (c2 A)) (ascale z (c0 A)))).
  set (e2 := aneg (asub (ascale y (c0 A)) (ascale x (c1 A)))).
  assert (L0 : length e0 = n).
  { unfold e0, aneg, asub. rewrite length_map, length_zip_with, !ascale_length.
    lia. }
  assert (L1 : length e1 = n).
  { unfold e1, aneg, asub. rewrite length_map, length_zip_with, !ascale_length.
    lia. }
  assert (L2 : length e2 = n).
  { unfold e2, aneg, asub. rewrite length_map, length_zip_with, !ascale_length.
    lia. }
  assert (Hrow : forall i : ix3,
    asum3 (fun j =>
      ascale (at3 (at3 T i) j)
        (asum3 (fun m =>
           ascale (at3 (at3 Ti j) m)
                  (match m with I0 => e0 | I1 => e1 | I2 => e2 end))))
    = match i with I0 => e0 | I1 => e1 | I2 => e2 end).
  { intros i.
    assert (Lin : forall j,
              length (asum3 (fun m =>
                        ascale (at3 (at3 Ti j) m)
                          (match m with I0 => e0 | I1 => e1 | I2 => e2 end)))
              = n).
    { intros j. apply asum3_length. intros m. rewrite ascale_length.
      destruct m; assumption. }
    apply (nth_ext _ _ 0 0).
    - rewrite (asum3_length n);
        [destruct i; symmetry; assumption |].
      intros j. rewrite ascale_length. apply Lin.
    - intros l Hl. rewrite (asum3_length n) in Hl
        by (intros j; rewrite ascale_length; apply Lin).
      rewrite (asum3_nth n)
        by (first [intros j; rewrite ascale_length; apply Lin | exact Hl]).
      rewrite !ascale_nth by (rewrite Lin; exact Hl).
      rewrite !(asum3_nth n)
        by (first [intros m; rewrite ascale_length; destruct m; assumption
                  | exact Hl]).
      rewrite !ascale_nth by lia.
      pose proof (Hid (V3 (nth l e0 0) (nth l e1 0) (nth l e2 0))) as E.
      unfold dot_vec, tab3, sum3 in E. cbn [at3 c0 c1 c2] in E.
      injection E as E0 E1 E2.
      destruct i; cbn [at3]; [rewrite <- E0 at 4 | rewrite <- E1 at 4
                               | rewrite <- E2 at 4]; ring. }
  pose proof (Hrow I0) as R0. pose proof (Hrow I1) as R1.
  pose proof (Hrow I2) as R2. clear Hrow.
  unfold tab3, asum3 in *.
  cbn [at3 map3 map nth c0 c1 c2] in *.
  fold e0 e1 e2. rewrite R0, R1, R2. reflexivity.
Qed.

End coincident_probes.

Lemma rotation_velocity_of_coincident_probes_witness :
  calcRotationVel same_inv (V3 [1; 0] [0; 2] [3; 3])
    (Shape3P (V3 [1; 1; 1] [2; 2; 2] [3; 3; 3])) (Some id3)
  = calcRotationVel same_inv (V3 [1; 0] [0; 2] [3; 3])
      (Shape3 (V3 1 2 3)) None.
Proof.
  apply (rotation_velocity_of_coincident_probes same_inv
           (V3 [1; 0] [0; 2] [3; 3]) 1 2 3 id3 id3 2).
  - repeat split.
  - reflexivity.
  - intros [a b c]. unfold dot_vec, tab3, sum3, id3. cbn [at3 c0 c1 c2].
    f_equal; ring.
Defined.

Section motion.

Variable butter : nat -> R -> exn + (list R * list R).
Variable filtfilt : list R -> list R -> list R -> exn + list R.
Variable inv : v3 (v3 R) -> exn + v3 (v3 R).

Tactic Notation "unbind" hyp(H) "as" ident(a) ident(st) ident(H1) :=
  apply bind_inr in H; destruct H as (a & st & H1 & H).

Lemma group_add_records key v d ws d1 ws1 :
  group_add "orient" key
    (set_vectors (<[key := v]> (vectors d)) d, ws) = (inr tt, (d1, ws1)) ->
  ws1 = ws /\ records_vector key d d1.
Proof.
  rewrite group_add_run. cbn [groups set_vectors].
  destruct (groups d !! "orient") as [names|] eqn:Eg; [| discriminate].
  intros E. injection E as <- <-. split; [reflexivity |].
  exists v, names. split; [exact Eg | reflexivity].
Qed.

Lemma _calcRotVel_records self d ws d1 ws1 :
  _calcRotVel inv self (d, ws) = (inr tt, (d1, ws1)) ->
  ws1 = ws /\ records_vector "urot" d d1.
Proof.
  intros H. unfold _calcRotVel in H.
  unbind H as pos s1 E1. apply _calcProbePos_inr in E1. destruct E1 as [-> _].
  unbind H as u s2 E2.
  assert (Hset : exists v,
            s2 = (set_vectors (<["urot" := v]> (vectors d)) d, ws)).
  { destruct (separate_probes self).
    - unbind E2 as m s3 E3. apply prop_mat_inr in E3. destruct E3 as [_ ->].
      unbind E2 as a s4 E4. apply attr3_inr in E4. destruct E4 as [_ ->].
      unbind E2 as d0 s5 E5. rewrite get_obj_run in E5. injection E5 as <- <-.
      unbind E2 as v s6 E6. apply lift_inr in E6. destruct E6 as [_ ->].
      rewrite set_attr3_run in E2. injection E2 as _ <-. eauto.
    - unbind E2 as a s4 E4. apply attr3_inr in E4. destruct E4 as [_ ->].
      unbind E2 as v s6 E6. apply lift_inr in E6. destruct E6 as [_ ->].
      rewrite set_attr3_run in E2. injection E2 as _ <-. eauto. }
  destruct Hset as [v ->]. apply group_add_records in H. exact H.
Qed.

Lemma _calcAccelStable_records self d ws d1 ws1 :
  _calcAccelStable butter filtfilt self (d, ws) = (inr tt, (d1, ws1)) ->
  ws1 = ws /\ records_vector "AccelStable" d d1.
Proof.
  intros H. unfold _calcAccelStable in H.
  unbind H as d0 s1 E1. rewrite get_obj_run in E1. injection E1 as <- <-.
  unbind H as om s2 E2.
  destruct (orientmat d) as [om'|]; [| discriminate].
  rewrite ret_run in E2. injection E2 as <- <-.
  unbind H as acc s3 E3. apply attr3_inr in E3. destruct E3 as [_ ->].
  cbv zeta in H.
  unbind H as flt s4 E4. apply lift_inr in E4. destruct E4 as [_ ->].
  unbind H as a0 s5 E5. apply lift_inr in E5. destruct E5 as [_ ->].
  unbind H as a1 s6 E6. apply lift_inr in E6. destruct E6 as [_ ->].
  unbind H as a2 s7 E7. apply lift_inr in E7. destruct E7 as [_ ->].
  unbind H as u s8 E8. rewrite set_attr3_run in E8. injection E8 as _ <-.
  apply group_add_records in H. exact H.
Qed.

Lemma _calcAccelVel_records self d ws d1 ws1 :
  _calcAccelVel butter filtfilt self (d, ws) = (inr tt, (d1, ws1)) ->
  ws1 = ws /\ records_vector "uacc" d d1.
Proof.
  intros H. unfold _calcAccelVel in H.
  unbind H as acc s1 E1. apply attr3_inr in E1. destruct E1 as [_ ->].
  unbind H as stable s2 E2. apply attr3_inr in E2. destruct E2 as [_ ->].
  unbind H as d0 s3 E3. rewrite get_obj_run in E3. injection E3 as <- <-.
  unbind H as v s4 E4. apply lift_inr in E4. destruct E4 as [_ ->].
  unbind H as u s5 E5. rewrite set_attr3_run in E5. injection E5 as _ <-.
  apply group_add_records in H. exact H.
Qed.

(** X26: The whole footprint of motion correction.  A call that returns has
    found the head-to-body matrix [m] and the velocity [u0]; it leaves
    [urot], [AccelStable] and [uacc] stored and recorded in the group
    [orient], and as [_u] the velocity rotated into the body frame minus
    the sum of [urot] and [uacc]; [rotate_vars] holds the names the call
    adds; every other [(3, N)] array, the series, the orientation matrix,
    the other properties and the other groups are those of the input, and
    no warning is issued. *)
Theorem motion_correction_footprint self d ws d' ws' :
  correct_motion_call butter filtfilt inv self (d, ws) = (inr tt, (d', ws')) ->
  ws' = ws /\
  exists m u0 urot stable uacc names,
    props d !! "body2head_rotmat" = Some (VMat m) /\
    vectors d !! "_u" = Some u0 /\
    vectors d' !! "urot" = Some urot /\
    vectors d' !! "AccelStable" = Some stable /\
    vectors d' !! "uacc" = Some uacc /\
    vectors d' !! "_u"
      = Some (zip3 asub (dot_arrays (transpose m) u0)
                        (zip3 aadd urot uacc)) /\
    (forall k : string,
       ~ In k ["_u"; "urot"; "AccelStable"; "uacc"]%string ->
       vectors d' !! k = vectors d !! k) /\
    props d' = <["rotate_vars" := rotate_vars_after d]> (props d) /\
    groups d !! "orient" = Some names /\
    groups d'
      = <["orient" := {["uacc"]} ∪ ({["AccelStable"]} ∪ ({["urot"]} ∪ names))]>
          (groups d) /\
    series d' = series d /\ orientmat d' = orientmat d.
Proof.
  intros H. unfold correct_motion_call in H.
  unbind H as d0 s0 E0. rewrite get_obj_run in E0. injection E0 as <- <-.
  unbind H as t1 s1 E1.
  assert (Hs1 : s1 = (set_props (<["rotate_vars" := rotate_vars_after d]>
                                   (props d)) d, ws)).
  { unfold rotate_vars_after.
    destruct (props d !! "rotate_vars") as [[]|];
      try discriminate E1;
      rewrite set_prop_run in E1; injection E1 as _ <-; reflexivity. }
  subst s1. set (p1 := <["rotate_vars" := rotate_vars_after d]> (props d)) in *.
  unbind H as t2 s2 E2. unfold _rotateVel2body in E2.
  unbind E2 as m s3 E3. apply prop_mat_inr in E3. destruct E3 as [Hm1 ->].
  unbind E2 as u0 s4 E4. apply attr3_inr in E4. destruct E4 as [Hu ->].
  rewrite set_attr3_run in E2. injection E2 as _ <-.
  cbn [props vectors set_props] in Hm1, Hu, H.
  assert (Hm : props d !! "body2head_rotmat" = Some (VMat m)).
  { unfold p1 in Hm1. rewrite lookup_insert_ne in Hm1 by discriminate.
    exact Hm1. }
  set (u1 := dot_arrays (transpose m) u0) in *.
  set (d2 := set_vectors (<["_u" := u1]> (vectors d)) (set_props p1 d)) in *.
  unbind H as t3 s3 E3. destruct t3, s3 as [d3 ws3].
  apply _calcRotVel_records in E3.
  destruct E3 as (-> & urot & n2 & G2 & ->).
  unbind H as t4 s4 E4. destruct t4, s4 as [d4 ws4].
  apply _calcAccelStable_records in E4.
  destruct E4 as (-> & stable & n3 & G3 & ->).
  unbind H as t5 s5 E5. destruct t5, s5 as [d5 ws5].
  apply _calcAccelVel_records in E5.
  destruct E5 as (-> & uacc & n4 & G4 & ->).
  cbn [groups set_groups set_vectors set_props] in G2, G3, G4.
  unfold d2 in G2. cbn [groups set_groups set_vectors set_props] in G2.
  rewrite lookup_insert_eq in G3. injection G3 as <-.
  rewrite lookup_insert_eq in G4. injection G4 as <-.
  unbind H as u s6 E6. apply attr3_inr in E6. destruct E6 as [Eu ->].
  unbind H as ur s7 E7. apply attr3_inr in E7. destruct E7 as [Eur ->].
  unbind H as ua s8 E8. apply attr3_inr in E8. destruct E8 as [Eua ->].
  rewrite set_attr3_run in H. injection H as <- <-.
  cbn [vectors set_groups set_vectors set_props] in Eu, Eur, Eua.
  unfold d2 in Eu, Eur, Eua.
  cbn [vectors set_groups set_vectors set_props] in Eu, Eur, Eua.
  rewrite !lookup_insert_ne in Eu by discriminate.
  rewrite lookup_insert_eq in Eu. injection Eu as <-.
  rewrite !lookup_insert_ne in Eur by discriminate.
  rewrite lookup_insert_eq in Eur. injection Eur as <-.
  rewrite lookup_insert_eq in Eua. injection Eua as <-.
  split; [reflexivity |].
  exists m, u0, urot, stable, uacc, n2.
  unfold d2.
  cbn [vectors series orientmat props groups set_groups set_vectors
       set_props].
  split; [exact Hm |]. split; [exact Hu |].
  split.
  { rewrite !lookup_insert_ne by discriminate. apply lookup_insert_eq. }
  split.
  { rewrite !lookup_insert_ne by discriminate. apply lookup_insert_eq. }
  split.
  { rewrite lookup_insert_ne by discriminate. apply lookup_insert_eq. }
  split; [apply lookup_insert_eq |].
  split.
  { intros k Hk. simpl in Hk.
    rewrite !lookup_insert_ne by (intros <-; tauto). reflexivity. }
  split; [reflexivity |]. split; [exact G2 |].
  split; [rewrite !insert_insert_eq; reflexivity |].
  split; reflexivity.
Qed.

(** X27: [__call__] changes [rotate_vars] before anything else, and a failure
    afterwards leaves the change in place: on a data object without the
    head-to-body matrix it raises [KeyError] and leaves the object with
    [rotate_vars] set or extended. *)
Theorem motion_correction_fails_after_rotate_vars self d ws :
  (forall v, props d !! "rotate_vars" = Some v -> exists l, v = VStrs l) ->
  props d !! "body2head_rotmat" = None ->
  correct_motion_call butter filtfilt inv self (d, ws)
  = (inl KeyError,
     (set_props (<["rotate_vars" := rotate_vars_after d]> (props d)) d, ws)).
Proof.
  intros Hrv Hm. unfold correct_motion_call.
  rewrite bind_run, get_obj_run. cbn beta iota. rewrite bind_run.
  unfold rotate_vars_after.
  destruct (props d !! "rotate_vars") as [x|] eqn:Erv.
  - destruct (Hrv x eq_refl) as [l ->].
    rewrite set_prop_run. cbn beta iota.
    rewrite bind_run. unfold _rotateVel2body.
    rewrite bind_run, prop_mat_run. cbn [props set_props].
    rewrite lookup_insert_ne by discriminate. rewrite Hm. reflexivity.
  - rewrite set_prop_run. cbn beta iota.
    rewrite bind_run. unfold _rotateVel2body.
    rewrite bind_run, prop_mat_run. cbn [props set_props].
    rewrite lookup_insert_ne by discriminate. rewrite Hm. reflexivity.
Qed.

End motion.

Lemma motion_correction_footprint_witness :
  @nil string = [] /\
  exists m u0 urot stable uacc names,
    props d_rest !! "body2head_rotmat" = Some (VMat m) /\
    vectors d_rest !! "_u" = Some u0 /\
    vectors d_rest_corrected !! "urot" = Some urot /\
    vectors d_rest_corrected !! "AccelStable" = Some stable /\
    vectors d_rest_corrected !! "uacc" = Some uacc /\
    vectors d_rest_corrected !! "_u"
      = Some (zip3 asub (dot_arrays (transpose m) u0)
                        (zip3 aadd urot uacc)) /\
    (forall k : string,
       ~ In k ["_u"; "urot"; "AccelStable"; "uacc"]%string ->
       vectors d_rest_corrected !! k = vectors d_rest !! k) /\
    props d_rest_corrected
      = <["rotate_vars" := rotate_vars_after d_rest]> (props d_rest) /\
    groups d_rest !! "orient" = Some names /\
    groups d_rest_corrected
      = <["orient" := {["uacc"]} ∪ ({["AccelStable"]} ∪ ({["urot"]} ∪ names))]>
          (groups d_rest) /\
    series d_rest_corrected = series d_rest /\
    orientmat d_rest_corrected = orientmat d_rest.
Proof.
  apply (motion_correction_footprint unit_butter pass_filtfilt same_inv
           (correct_motion_init (1 / 30) (1 / 100) false) d_rest []
           d_rest_corrected []).
  assert (F : fst (correct_motion_call unit_butter pass_filtfilt same_inv
                     (correct_motion_init (1 / 30) (1 / 100) false)
                     (d_rest, [])) = inr tt
              /\ snd (snd (correct_motion_call unit_butter pass_filtfilt
                             same_inv
                             (correct_motion_init (1 / 30) (1 / 100) false)
                             (d_rest, []))) = [])
    by (vm_compute; split; reflexivity).
  unfold d_rest_corrected.
  destruct (correct_motion_call unit_butter pass_filtfilt same_inv
              (correct_motion_init (1 / 30) (1 / 100) false) (d_rest, []))
    as [[e | []] [d1 ws1]]; simpl in F; destruct F as [F1 F2];
    [discriminate F1 | subst ws1; reflexivity].
Defined.

Lemma motion_correction_fails_after_rotate_vars_witness :
  correct_motion_call unit_butter pass_filtfilt same_inv
    (correct_motion_init (1 / 30) (1 / 100) false) (d_no_inputs, [])
  = (inl KeyError,
     (set_props (<["rotate_vars" := rotate_vars_after d_no_inputs]>
                   (props d_no_inputs)) d_no_inputs, [])).
Proof.
  apply (motion_correction_fails_after_rotate_vars
           unit_butter pass_filtfilt same_inv
           (correct_motion_init (1 / 30) (1 / 100) false) d_no_inputs []).
  - intros v H. discriminate H.
  - reflexivity.
Defined.
